(** * 3d-space-shooter: entity simulation and collision loop

    A shallow embedding of the simulation core of the game
    (math_utils.py, entity.py, player.py, enemy.py, meteorite.py,
    life_sphere.py, projectile.py, physics.py, camera.py and the
    update / collision / cleanup part of main.py), followed by the
    properties of the specification.

    Numbers.  Python floats are modelled by the real numbers of the
    Standard Library: [+], [-], [*], [/], [math.sqrt], [math.sin] and
    [math.cos] are the exact operations, and a comparison is the
    decision of the order on R.  Rounding, overflow and NaN are outside
    the model.  Python ints (lives, health, score, points) are [Z].

    State.  Python objects that the game mutates in place are records;
    a method that mutates [self] is a function returning the new record
    (and the returned value, when there is one).  Loops over the entity
    lists are structural recursions over Rocq lists in the order of the
    Python list. *)

From Stdlib Require Import Reals Lra Lia ZArith List Bool String.
From Equations Require Import Equations.
Import ListNotations.

Local Open Scope R_scope.

(** * Part I: the embedding *)

(** ** Comparisons of floats as booleans *)

Module PyFloat.

Definition ltb (a b : R) : bool := if Rlt_dec a b then true else false.
Definition leb (a b : R) : bool := if Rle_dec a b then true else false.
Definition gtb (a b : R) : bool := if Rgt_dec a b then true else false.
Definition geb (a b : R) : bool := if Rge_dec a b then true else false.

(** [max(a, b)] and [min(a, b)] as the builtins decide them: the first
    argument is kept unless the second is strictly larger (smaller). *)
Definition max (a b : R) : R := if gtb b a then b else a.
Definition min (a b : R) : R := if ltb b a then b else a.

(** [abs(x)] *)
Definition abs (a : R) : R := Rabs a.

(** [math.radians(d)] *)
Definition radians (d : R) : R := d * PI / 180.

(** [math.atan2(y, x)]: the angle of the point [(x, y)], in [(-pi, pi]]. *)
Definition atan2 (y x : R) : R :=
  if gtb x 0 then atan (y / x)
  else if ltb x 0 then (if geb y 0 then atan (y / x) + PI else atan (y / x) - PI)
  else if gtb y 0 then PI / 2
  else if ltb y 0 then - (PI / 2)
  else 0.

End PyFloat.

Declare Scope pyfloat_scope.
Delimit Scope pyfloat_scope with py.
Notation "a <? b" := (PyFloat.ltb a b) (at level 70) : pyfloat_scope.
Notation "a <=? b" := (PyFloat.leb a b) (at level 70) : pyfloat_scope.
Notation "a >? b" := (PyFloat.gtb a b) (at level 70) : pyfloat_scope.
Notation "a >=? b" := (PyFloat.geb a b) (at level 70) : pyfloat_scope.
Local Open Scope pyfloat_scope.

(** ** config.py *)

Module Config.
Definition PLAYER_SPEED : R := 30.
Definition PLAYER_STRAFE_SPEED : R := 20.
Definition PLAYER_MOUSE_SENSITIVITY : R := 2 / 10.       (* 0.2 *)
Definition PLAYER_STARTING_LIVES : Z := 3.
Definition PLAYER_SHOOT_COOLDOWN : R := 3 / 10.          (* 0.3 *)

Definition SHIP_ROLL_SENSITIVITY : R := 1.
Definition SHIP_PITCH_SENSITIVITY : R := 5 / 10.         (* 0.5 *)
Definition SHIP_ANIMATION_DAMPING : R := 10.
Definition MAX_SHIP_ROLL : R := 15.
Definition MAX_SHIP_PITCH_OFFSET : R := 8.

Definition CAMERA_YAW_LIMIT : R := 89.

Definition ENEMY_SPEED : R := 15.
Definition ENEMY_SPAWN_DISTANCE : R := 100.
Definition ENEMY_SPAWN_INTERVAL : R := 3.
Definition ENEMY_SHOOT_INTERVAL : R := 2.
Definition ENEMY_SHOOT_RANGE : R := 50.
Definition ENEMY_HEALTH : Z := 1.
Definition ENEMY_POINTS : Z := 1.

Definition METEORITE_MIN_SIZE : R := 2.
Definition METEORITE_MAX_SIZE : R := 5.
Definition METEORITE_COUNT : nat := 10.
Definition METEORITE_COLLISION_PENALTY : Z := -1.

Definition LIFE_SPHERE_SIZE : R := 15 / 10.              (* 1.5 *)
Definition LIFE_SPHERE_SPAWN_DISTANCE : R := 70.
Definition LIFE_SPHERE_SPAWN_INTERVAL : R := 10.
Definition LIFE_SPHERE_ROTATION_SPEED : R := 2.

Definition LASER_SPEED : R := 80.
Definition LASER_LIFETIME : R := 5.

Definition COLLISION_PUSH_BACK : R := 5.
Definition WORLD_SIZE : R := 200.
End Config.

(** ** math_utils.py *)

Module Vector3.

Record t : Type := mk { x : R; y : R; z : R }.

(** [__add__], [__sub__], [__mul__] (by a scalar), [__truediv__] *)
Definition add (a b : t) : t := mk (x a + x b) (y a + y b) (z a + z b).
Definition sub (a b : t) : t := mk (x a - x b) (y a - y b) (z a - z b).
Definition mul (a : t) (scalar : R) : t :=
  mk (x a * scalar) (y a * scalar) (z a * scalar).
Definition truediv (a : t) (scalar : R) : t :=
  mk (x a / scalar) (y a / scalar) (z a / scalar).

Definition dot (a b : t) : R := x a * x b + y a * y b + z a * z b.

Definition cross (a b : t) : t :=
  mk (y a * z b - z a * y b)
     (z a * x b - x a * z b)
     (x a * y b - y a * x b).

(** [math.sqrt(self.x**2 + self.y**2 + self.z**2)] *)
Definition length (a : t) : R := sqrt (x a ^ 2 + y a ^ 2 + z a ^ 2).

Definition normalize (a : t) : t :=
  let length := length a in
  if length >? 0 then truediv a length else mk 0 0 0.

Definition distance_to (a b : t) : R := length (sub a b).

Definition copy (a : t) : t := mk (x a) (y a) (z a).

End Vector3.

Abbreviation Vec := Vector3.t.

(** [clamp(value, min_value, max_value)] and [lerp(a, b, t)] *)
Definition clamp (value min_value max_value : R) : R :=
  PyFloat.max min_value (PyFloat.min max_value value).

Definition lerp (a b t : R) : R := a + (b - a) * t.

(** ** entities/entity.py *)

Module Entity.

(** The render-model handle is not part of the embedding: the
    simulation never reads it. *)
Record t : Type := mk {
  position : Vec;
  velocity : Vec;
  rotation : R * R * R;      (* radians, [x, y, z] *)
  scale : R * R * R;
  alive : bool;
  radius : R
}.

Definition with_position (p : Vec) (e : t) : t :=
  mk p (velocity e) (rotation e) (scale e) (alive e) (radius e).
Definition with_velocity (v : Vec) (e : t) : t :=
  mk (position e) v (rotation e) (scale e) (alive e) (radius e).
Definition with_rotation (r : R * R * R) (e : t) : t :=
  mk (position e) (velocity e) r (scale e) (alive e) (radius e).
Definition with_scale (s : R * R * R) (e : t) : t :=
  mk (position e) (velocity e) (rotation e) s (alive e) (radius e).
Definition with_alive (a : bool) (e : t) : t :=
  mk (position e) (velocity e) (rotation e) (scale e) a (radius e).
Definition with_radius (r : R) (e : t) : t :=
  mk (position e) (velocity e) (rotation e) (scale e) (alive e) r.

(** [__init__(position=None)] *)
Definition init (position : option Vec) : t :=
  mk (match position with Some p => p | None => Vector3.mk 0 0 0 end)
     (Vector3.mk 0 0 0) (0, 0, 0) (1, 1, 1) true 1.

Definition update (dt : R) (e : t) : t :=
  with_position (Vector3.add (position e) (Vector3.mul (velocity e) dt)) e.

Definition get_radius (e : t) : R := radius e.

Definition rotate (drx dry drz : R) (e : t) : t :=
  let '(rx, ry, rz) := rotation e in
  with_rotation (rx + drx, ry + dry, rz + drz) e.

Definition destroy (e : t) : t := with_alive false e.

Definition is_alive (e : t) : bool := alive e.

End Entity.

(** ** entities/player.py *)

Module Player.

Record t : Type := mk {
  base : Entity.t;
  lives : Z;
  shoot_cooldown : R;
  damage_flash_timer : R;
  can_shoot : bool
}.

Definition with_base (b : Entity.t) (p : t) : t :=
  mk b (lives p) (shoot_cooldown p) (damage_flash_timer p) (can_shoot p).
Definition with_lives (l : Z) (p : t) : t :=
  mk (base p) l (shoot_cooldown p) (damage_flash_timer p) (can_shoot p).
Definition with_shoot_cooldown (c : R) (p : t) : t :=
  mk (base p) (lives p) c (damage_flash_timer p) (can_shoot p).
Definition with_damage_flash_timer (f : R) (p : t) : t :=
  mk (base p) (lives p) (shoot_cooldown p) f (can_shoot p).
Definition with_can_shoot (c : bool) (p : t) : t :=
  mk (base p) (lives p) (shoot_cooldown p) (damage_flash_timer p) c.

(** [__init__]; [starting_lives] is [PLAYER_STARTING_LIVES]. *)
Definition init_with (starting_lives : Z) (position : option Vec) : t :=
  mk (Entity.with_radius 2 (Entity.init position)) starting_lives 0 0 true.

Definition init (position : option Vec) : t :=
  init_with Config.PLAYER_STARTING_LIVES position.

Definition update (dt : R) (p : t) : t :=
  let p := with_base (Entity.update dt (base p)) p in
  (* Update shoot cooldown *)
  let p :=
    if shoot_cooldown p >? 0 then
      let p := with_shoot_cooldown (shoot_cooldown p - dt) p in
      if shoot_cooldown p <=? 0 then with_can_shoot true p else p
    else p in
  (* Update damage flash *)
  if damage_flash_timer p >? 0
  then with_damage_flash_timer (damage_flash_timer p - dt) p
  else p.

(** [shoot()]: the returned flag and the player afterwards. *)
Definition shoot (p : t) : bool * t :=
  if can_shoot p then
    (true, with_shoot_cooldown Config.PLAYER_SHOOT_COOLDOWN (with_can_shoot false p))
  else (false, p).

Definition take_damage (p : t) : t :=
  let p := with_lives (lives p - 1) p in
  let p := with_damage_flash_timer (5 / 10) p in
  if (lives p <=? 0)%Z then with_base (Entity.destroy (base p)) p else p.

Definition add_life (p : t) : t := with_lives (lives p + 1) p.

Definition get_lives (p : t) : Z := lives p.

Definition is_alive (p : t) : bool := Entity.is_alive (base p).

End Player.

(** ** entities/enemy.py *)

Module Enemy.

(** [target_position] is set to [None] by [__init__] and never read or
    written again; it is left out. *)
Record t : Type := mk {
  base : Entity.t;
  health : Z;
  points : Z;
  shoot_timer : R
}.

Definition with_base (b : Entity.t) (e : t) : t :=
  mk b (health e) (points e) (shoot_timer e).
Definition with_health (h : Z) (e : t) : t :=
  mk (base e) h (points e) (shoot_timer e).
Definition with_shoot_timer (s : R) (e : t) : t :=
  mk (base e) (health e) (points e) s.

(** [__init__]; [timer0] is the draw
    [random.uniform(0, ENEMY_SHOOT_INTERVAL)]. *)
Definition init (position : option Vec) (timer0 : R) : t :=
  mk (Entity.with_radius (15 / 10) (Entity.init position))
     Config.ENEMY_HEALTH Config.ENEMY_POINTS timer0.

Definition _move_toward_target (target_pos : Vec) (dt : R) (e : t) : t :=
  let direction := Vector3.sub target_pos (Entity.position (base e)) in
  let distance := Vector3.length direction in
  if distance >? 10 then
    let direction := Vector3.normalize direction in
    with_base (Entity.with_velocity (Vector3.mul direction Config.ENEMY_SPEED) (base e)) e
  else
    with_base (Entity.with_velocity (Vector3.mk 0 0 0) (base e)) e.

Definition update (dt : R) (player_position : option Vec) (e : t) : t :=
  let e := with_base (Entity.update dt (base e)) e in
  (* AI: move toward player *)
  let e := match player_position with
           | Some pos => _move_toward_target pos dt e
           | None => e
           end in
  (* Update shoot timer *)
  let e := with_shoot_timer (shoot_timer e - dt) e in
  (* Rotate for visual effect *)
  with_base (Entity.rotate 0 (dt * (5 / 10)) 0 (base e)) e.

(** [can_shoot(player_position)]: the returned flag and the enemy
    afterwards. *)
Definition can_shoot (player_position : Vec) (e : t) : bool * t :=
  if shoot_timer e <=? 0 then
    let distance := Vector3.distance_to (Entity.position (base e)) player_position in
    if distance <? Config.ENEMY_SHOOT_RANGE then
      (true, with_shoot_timer Config.ENEMY_SHOOT_INTERVAL e)
    else (false, e)
  else (false, e).

Definition get_shoot_direction (player_position : Vec) (e : t) : Vec :=
  let direction := Vector3.sub player_position (Entity.position (base e)) in
  Vector3.normalize direction.

Definition take_damage (damage : Z) (e : t) : t :=
  let e := with_health (health e - damage) e in
  if (health e <=? 0)%Z then with_base (Entity.destroy (base e)) e else e.

Definition get_points (e : t) : Z := points e.

Definition is_alive (e : t) : bool := Entity.is_alive (base e).

Definition destroy (e : t) : t := with_base (Entity.destroy (base e)) e.

End Enemy.

(** ** entities/meteorite.py *)

Module Meteorite.

Record t : Type := mk {
  base : Entity.t;
  size : R;
  rotation_speed : R * R * R
}.

Definition with_base (b : Entity.t) (m : t) : t :=
  mk b (size m) (rotation_speed m).

(** The draws of [__init__]: the size
    ([random.uniform(METEORITE_MIN_SIZE, METEORITE_MAX_SIZE)]), the
    three rotation speeds and the three drift components. *)
Record Draw : Type := mkDraw {
  draw_size : R;
  draw_rotation_speed : R * R * R;
  draw_velocity : Vec
}.

Definition init (position : option Vec) (d : Draw) : t :=
  let size := draw_size d in
  let b := Entity.init position in
  let b := Entity.with_radius (size * (12 / 10)) b in
  let b := Entity.with_scale (size, size, size) b in
  let b := Entity.with_velocity (draw_velocity d) b in
  mk b size (draw_rotation_speed d).

Definition update (dt : R) (m : t) : t :=
  let m := with_base (Entity.update dt (base m)) m in
  let '(s0, s1, s2) := rotation_speed m in
  with_base (Entity.rotate (s0 * dt) (s1 * dt) (s2 * dt) (base m)) m.

Definition is_indestructible (m : t) : bool := true.

Definition is_alive (m : t) : bool := Entity.is_alive (base m).

End Meteorite.

(** ** entities/life_sphere.py *)

Module LifeSphere.

Record t : Type := mk {
  base : Entity.t;
  collected : bool
}.

Definition with_base (b : Entity.t) (s : t) : t := mk b (collected s).
Definition with_collected (c : bool) (s : t) : t := mk (base s) c.

Definition init (position : option Vec) : t :=
  let b := Entity.init position in
  let b := Entity.with_radius Config.LIFE_SPHERE_SIZE b in
  let b := Entity.with_scale
             (Config.LIFE_SPHERE_SIZE, Config.LIFE_SPHERE_SIZE, Config.LIFE_SPHERE_SIZE) b in
  mk b false.

(** [update(dt)]; [ticks] is what [pygame.time.get_ticks()] returns
    when the sphere reads it (milliseconds since start-up). *)
Definition update (dt : R) (ticks : Z) (s : t) : t :=
  let s := with_base (Entity.update dt (base s)) s in
  (* Rotate for visual effect *)
  let s := with_base
             (Entity.rotate (dt * Config.LIFE_SPHERE_ROTATION_SPEED)
                            (dt * Config.LIFE_SPHERE_ROTATION_SPEED * (15 / 10))
                            (dt * Config.LIFE_SPHERE_ROTATION_SPEED * (8 / 10))
                            (base s)) s in
  (* Gentle bobbing motion *)
  let p := Entity.position (base s) in
  let p := Vector3.mk (Vector3.x p)
                      (Vector3.y p + sin (IZR ticks * (2 / 1000)) * (1 / 100))
                      (Vector3.z p) in
  with_base (Entity.with_position p (base s)) s.

Definition collect (s : t) : t :=
  let s := with_collected true s in
  with_base (Entity.destroy (base s)) s.

Definition is_collected (s : t) : bool := collected s.

Definition is_alive (s : t) : bool := Entity.is_alive (base s).

End LifeSphere.

(** ** entities/projectile.py *)

Module Projectile.

Record t : Type := mk {
  base : Entity.t;
  owner_type : string;
  direction : Vec;
  lifetime : R;
  age : R
}.

Definition with_base (b : Entity.t) (p : t) : t :=
  mk b (owner_type p) (direction p) (lifetime p) (age p).
Definition with_age (a : R) (p : t) : t :=
  mk (base p) (owner_type p) (direction p) (lifetime p) a.

Definition _set_rotation_from_direction (p : t) : t :=
  if Vector3.length (direction p) >? 0 then
    let yaw := PyFloat.atan2 (Vector3.x (direction p)) (Vector3.z (direction p)) in
    let xz_length := sqrt (Vector3.x (direction p) ^ 2 + Vector3.z (direction p) ^ 2) in
    let pitch := PyFloat.atan2 (Vector3.y (direction p)) xz_length in
    with_base (Entity.with_rotation (pitch, yaw, 0) (base p)) p
  else p.

Definition init (position : Vec) (direction : Vec) (owner_type : string) : t :=
  let b := Entity.init (Some position) in
  let direction := Vector3.normalize direction in
  let b := Entity.with_velocity (Vector3.mul direction Config.LASER_SPEED) b in
  let b := Entity.with_radius (3 / 10) b in
  _set_rotation_from_direction (mk b owner_type direction Config.LASER_LIFETIME 0).

Definition destroy (p : t) : t := with_base (Entity.destroy (base p)) p.

Definition update (dt : R) (p : t) : t :=
  let p := with_base (Entity.update dt (base p)) p in
  let p := with_age (age p + dt) p in
  if age p >=? lifetime p then destroy p else p.

Definition is_player_projectile (p : t) : bool := String.eqb (owner_type p) "player".
Definition is_enemy_projectile (p : t) : bool := String.eqb (owner_type p) "enemy".

Definition is_alive (p : t) : bool := Entity.is_alive (base p).

End Projectile.

(** ** engine/physics.py *)

Module BoundingSphere.

Record t : Type := mk { center : Vec; radius : R }.

Definition intersects (self other : t) : bool :=
  let distance := Vector3.distance_to (center self) (center other) in
  distance <? (radius self + radius other).

Definition contains_point (self : t) (point : Vec) : bool :=
  let distance := Vector3.distance_to (center self) point in
  distance <? radius self.

End BoundingSphere.

Module CollisionSystem.

Definition check_collision (entity1 entity2 : Entity.t) : bool :=
  let sphere1 := BoundingSphere.mk (Entity.position entity1) (Entity.get_radius entity1) in
  let sphere2 := BoundingSphere.mk (Entity.position entity2) (Entity.get_radius entity2) in
  BoundingSphere.intersects sphere1 sphere2.

Definition push_back (entity : Entity.t) (direction : Vec) (distance : R) : Entity.t :=
  let push_vector := Vector3.mul (Vector3.normalize direction) (- distance) in
  Entity.with_position (Vector3.add (Entity.position entity) push_vector) entity.

(** [resolve_collision(entity1, entity2, push_distance)]: both entities
    as the call leaves them. *)
Definition resolve_collision (entity1 entity2 : Entity.t) (push_distance : R)
  : Entity.t * Entity.t :=
  (* Calculate direction from entity2 to entity1 *)
  let direction := Vector3.sub (Entity.position entity1) (Entity.position entity2) in
  let direction :=
    if Vector3.length direction >? 0 then Vector3.normalize direction
    else Vector3.mk 1 0 0 in
  (* Push entity1 back *)
  (Entity.with_position
     (Vector3.add (Entity.position entity1) (Vector3.mul direction push_distance))
     entity1,
   entity2).


Definition check_projectile_collision (projectile target : Entity.t) : bool :=
  check_collision projectile target.

(** [check_collision_list(entity, entity_list)].  [Entity] defines no
    [__eq__], so [other == entity] compares object identities: here the
    entities are addresses in a store of entity states.  The loop, for
    the sphere of [entity] built before it. *)
Fixpoint check_collision_list_loop (store : nat -> Entity.t) (entity : nat)
  (entity_sphere : BoundingSphere.t) (entity_list : list nat) : option nat :=
  match entity_list with
  | [] => None
  | other :: rest =>
      if Nat.eqb other entity then
        check_collision_list_loop store entity entity_sphere rest
      else
        let other_sphere :=
          BoundingSphere.mk (Entity.position (store other)) (Entity.get_radius (store other)) in
        if BoundingSphere.intersects entity_sphere other_sphere then Some other
        else check_collision_list_loop store entity entity_sphere rest
  end.

Definition check_collision_list (store : nat -> Entity.t) (entity : nat)
  (entity_list : list nat) : option nat :=
  let entity_sphere :=
    BoundingSphere.mk (Entity.position (store entity)) (Entity.get_radius (store entity)) in
  check_collision_list_loop store entity entity_sphere entity_list.

End CollisionSystem.

(** ** engine/camera.py *)

Module Camera.

Record t : Type := mk {
  position : Vec;
  yaw : R;          (* degrees *)
  pitch : R;        (* degrees *)
  front : Vec;
  up : Vec;
  right : Vec;
  world_up : Vec
}.

Definition with_position (p : Vec) (c : t) : t :=
  mk p (yaw c) (pitch c) (front c) (up c) (right c) (world_up c).
Definition with_yaw (v : R) (c : t) : t :=
  mk (position c) v (pitch c) (front c) (up c) (right c) (world_up c).
Definition with_pitch (v : R) (c : t) : t :=
  mk (position c) (yaw c) v (front c) (up c) (right c) (world_up c).
Definition with_front (v : Vec) (c : t) : t :=
  mk (position c) (yaw c) (pitch c) v (up c) (right c) (world_up c).
Definition with_up (v : Vec) (c : t) : t :=
  mk (position c) (yaw c) (pitch c) (front c) v (right c) (world_up c).
Definition with_right (v : Vec) (c : t) : t :=
  mk (position c) (yaw c) (pitch c) (front c) (up c) v (world_up c).

Definition update_vectors (c : t) : t :=
  let front_x := cos (PyFloat.radians (yaw c)) * cos (PyFloat.radians (pitch c)) in
  let front_y := sin (PyFloat.radians (pitch c)) in
  let front_z := sin (PyFloat.radians (yaw c)) * cos (PyFloat.radians (pitch c)) in
  let c := with_front (Vector3.normalize (Vector3.mk front_x front_y front_z)) c in
  let c := with_right (Vector3.normalize (Vector3.cross (front c) (world_up c))) c in
  with_up (Vector3.normalize (Vector3.cross (right c) (front c))) c.

(** [__init__(position, yaw=-90.0, pitch=0.0)] *)
Definition init (position : option Vec) (yaw pitch : R) : t :=
  update_vectors
    (mk (match position with Some p => p | None => Vector3.mk 0 0 0 end)
        yaw pitch
        (Vector3.mk 0 0 (-1)) (Vector3.mk 0 1 0) (Vector3.mk 1 0 0) (Vector3.mk 0 1 0)).

Definition process_mouse_movement (xoffset yoffset : R) (constrain_pitch : bool) (c : t) : t :=
  let c := with_yaw (yaw c + xoffset) c in
  let c := with_pitch (pitch c + yoffset) c in
  let c := if constrain_pitch
           then with_pitch (clamp (pitch c) (- Config.CAMERA_YAW_LIMIT) Config.CAMERA_YAW_LIMIT) c
           else c in
  update_vectors c.

Definition move_forward (distance : R) (c : t) : t :=
  with_position (Vector3.add (position c) (Vector3.mul (front c) distance)) c.
Definition move_backward (distance : R) (c : t) : t :=
  with_position (Vector3.sub (position c) (Vector3.mul (front c) distance)) c.
Definition move_right (distance : R) (c : t) : t :=
  with_position (Vector3.add (position c) (Vector3.mul (right c) distance)) c.
Definition move_left (distance : R) (c : t) : t :=
  with_position (Vector3.sub (position c) (Vector3.mul (right c) distance)) c.

Definition move_up (distance : R) (c : t) : t :=
  with_position (Vector3.add (position c) (Vector3.mul (up c) distance)) c.
Definition move_down (distance : R) (c : t) : t :=
  with_position (Vector3.sub (position c) (Vector3.mul (up c) distance)) c.

Definition get_view_target (c : t) : Vec := Vector3.add (position c) (front c).

Definition get_forward_vector (c : t) : Vec := Vector3.copy (front c).

End Camera.

(** ** Python loops over lists of mutable objects *)

(** [for a in l: body], the body acting on the element and on the rest
    of the state. *)
Fixpoint for_each {A S : Type} (body : A -> S -> A * S) (l : list A) (s : S)
  : list A * S :=
  match l with
  | [] => ([], s)
  | a :: rest =>
      let '(a', s') := body a s in
      let '(rest', s'') := for_each body rest s' in
      (a' :: rest', s'')
  end.

(** The same with [break]: the body also says whether it broke out of
    the loop. *)
Fixpoint for_each_break {A S : Type} (body : A -> S -> A * S * bool) (l : list A) (s : S)
  : list A * S :=
  match l with
  | [] => ([], s)
  | a :: rest =>
      let '(a', s', broke) := body a s in
      if broke then (a' :: rest, s')
      else let '(rest', s'') := for_each_break body rest s' in
           (a' :: rest', s'')
  end.

(** [for i, a in enumerate(l)], from index [i]. *)
Fixpoint map_indexed {A B : Type} (f : nat -> A -> B) (i : nat) (l : list A) : list B :=
  match l with
  | [] => []
  | a :: rest => f i a :: map_indexed f (S i) rest
  end.

(** ** main.py: the yaw-delta loops of [_update_ship_animation] *)

(** A bound on the number of iterations left: the number of whole turns
    in [d], rounded up. *)
Definition turns (d : R) : nat := Z.to_nat (up (d / 360)).

(** [up (d - 1) = up d - 1]: what makes [turns] decrease along the loops. *)
Lemma up_minus_one (d : R) : up (d - 1) = (up d - 1)%Z.
Proof.
  symmetry; apply tech_up; rewrite minus_IZR;
    destruct (archimed d) as [Hlo Hhi]; simpl; lra.
Qed.

Lemma turns_decrease (d : R) : d > 180 -> (turns (d - 360) < turns d)%nat.
Proof.
  intros Hd; unfold turns.
  replace ((d - 360) / 360) with (d / 360 - 1) by field.
  rewrite up_minus_one.
  assert (Hpos : (0 < up (d / 360))%Z).
  { apply lt_IZR; destruct (archimed (d / 360)) as [Hlo _]; simpl.
    assert (0 < d / 360) by (apply Rdiv_lt_0_compat; lra); lra. }
  lia.
Qed.

(** [while yaw_delta > 180: yaw_delta -= 360] *)
Equations? while_above_180 (yaw_delta : R) : R by wf (turns yaw_delta) lt :=
while_above_180 yaw_delta with Rgt_dec yaw_delta 180 := {
  | left _ => while_above_180 (yaw_delta - 360)
  | right _ => yaw_delta }.
Proof. apply turns_decrease; assumption. Qed.

(** [while yaw_delta < -180: yaw_delta += 360] *)
Equations? while_below_minus_180 (yaw_delta : R) : R by wf (turns (- yaw_delta)) lt :=
while_below_minus_180 yaw_delta with Rlt_dec yaw_delta (-180) := {
  | left _ => while_below_minus_180 (yaw_delta + 360)
  | right _ => yaw_delta }.
Proof.
  replace (- (yaw_delta + 360)) with (- yaw_delta - 360) by ring.
  apply turns_decrease; lra.
Qed.

(** Normalize yaw delta (handle wraparound at 360/-180 degrees): the
    two loops, one after the other. *)
Definition normalize_yaw_delta (yaw_delta : R) : R :=
  while_below_minus_180 (while_above_180 yaw_delta).

(** ** main.py: the game *)

(** pygame key codes *)
Definition K_ESCAPE : Z := 27.
Definition K_SPACE : Z := 32.
Definition K_a : Z := 97.
Definition K_d : Z := 100.
Definition K_r : Z := 114.
Definition K_s : Z := 115.
Definition K_w : Z := 119.

(** pygame events, as far as [handle_events] reads them *)
Inductive Event : Type :=
| QUIT
| KEYDOWN (key : Z)
| KEYUP (key : Z)
| MOUSEMOTION (dx dy : Z)
| VIDEORESIZE (w h : Z)
| OTHER_EVENT.

(** What one meteorite of [_spawn_initial_meteorites] draws: the three
    coordinates of its position and the draws of [Meteorite.__init__]. *)
Record MeteoriteSeed : Type := mkSeed {
  seed_x : R;      (* random.uniform(-WORLD_SIZE / 2, WORLD_SIZE / 2) *)
  seed_y : R;      (* random.uniform(-WORLD_SIZE / 4, WORLD_SIZE / 4) *)
  seed_z : R;      (* random.uniform(-WORLD_SIZE, -20) *)
  seed_draw : Meteorite.Draw
}.

(** What one call of [update] reads from outside the game: the keyboard
    state, the clock (one read per life sphere, in list order) and the
    draws of the two spawn functions. *)
Record Env : Type := mkEnv {
  get_pressed : Z -> bool;      (* pygame.key.get_pressed()[key] *)
  get_ticks : nat -> Z;         (* pygame.time.get_ticks(), i-th read *)
  enemy_draw_x : R;             (* random.uniform(-0.5, 0.5) *)
  enemy_draw_y : R;             (* random.uniform(-10, 10) *)
  enemy_draw_timer : R;         (* random.uniform(0, ENEMY_SHOOT_INTERVAL) *)
  sphere_draw_x : R;            (* random.uniform(-30, 30) *)
  sphere_draw_y : R;            (* random.uniform(-20, 20) *)
  sphere_draw_z : R             (* random.uniform(30, LIFE_SPHERE_SPAWN_DISTANCE) *)
}.

Module Game.

Record t : Type := mk {
  camera : Camera.t;
  previous_camera_yaw : R;
  previous_camera_pitch : R;
  ship_roll : R;
  ship_pitch_offset : R;
  ship_yaw_offset : R;
  running : bool;
  paused : bool;
  game_over : bool;
  score : Z;
  player : Player.t;
  enemies : list Enemy.t;
  meteorites : list Meteorite.t;
  life_spheres : list LifeSphere.t;
  projectiles : list Projectile.t;
  enemy_spawn_timer : R;
  life_sphere_spawn_timer : R;
  keys_pressed : list Z;
  cockpit_sway : R
}.

Definition with_camera (v : Camera.t) (g : t) : t :=
  mk v (previous_camera_yaw g) (previous_camera_pitch g) (ship_roll g) (ship_pitch_offset g) (ship_yaw_offset g) (running g) (paused g) (game_over g) (score g) (player g) (enemies g) (meteorites g) (life_spheres g) (projectiles g) (enemy_spawn_timer g) (life_sphere_spawn_timer g) (keys_pressed g) (cockpit_sway g).
Definition with_previous_camera_yaw (v : R) (g : t) : t :=
  mk (camera g) v (previous_camera_pitch g) (ship_roll g) (ship_pitch_offset g) (ship_yaw_offset g) (running g) (paused g) (game_over g) (score g) (player g) (enemies g) (meteorites g) (life_spheres g) (projectiles g) (enemy_spawn_timer g) (life_sphere_spawn_timer g) (keys_pressed g) (cockpit_sway g).
Definition with_previous_camera_pitch (v : R) (g : t) : t :=
  mk (camera g) (previous_camera_yaw g) v (ship_roll g) (ship_pitch_offset g) (ship_yaw_offset g) (running g) (paused g) (game_over g) (score g) (player g) (enemies g) (meteorites g) (life_spheres g) (projectiles g) (enemy_spawn_timer g) (life_sphere_spawn_timer g) (keys_pressed g) (cockpit_sway g).
Definition with_ship_roll (v : R) (g : t) : t :=
  mk (camera g) (previous_camera_yaw g) (previous_camera_pitch g) v (ship_pitch_offset g) (ship_yaw_offset g) (running g) (paused g) (game_over g) (score g) (player g) (enemies g) (meteorites g) (life_spheres g) (projectiles g) (enemy_spawn_timer g) (life_sphere_spawn_timer g) (keys_pressed g) (cockpit_sway g).
Definition with_ship_pitch_offset (v : R) (g : t) : t :=
  mk (camera g) (previous_camera_yaw g) (previous_camera_pitch g) (ship_roll g) v (ship_yaw_offset g) (running g) (paused g) (game_over g) (score g) (player g) (enemies g) (meteorites g) (life_spheres g) (projectiles g) (enemy_spawn_timer g) (life_sphere_spawn_timer g) (keys_pressed g) (cockpit_sway g).
Definition with_ship_yaw_offset (v : R) (g : t) : t :=
  mk (camera g) (previous_camera_yaw g) (previous_camera_pitch g) (ship_roll g) (ship_pitch_offset g) v (running g) (paused g) (game_over g) (score g) (player g) (enemies g) (meteorites g) (life_spheres g) (projectiles g) (enemy_spawn_timer g) (life_sphere_spawn_timer g) (keys_pressed g) (cockpit_sway g).
Definition with_running (v : bool) (g : t) : t :=
  mk (camera g) (previous_camera_yaw g) (previous_camera_pitch g) (ship_roll g) (ship_pitch_offset g) (ship_yaw_offset g) v (paused g) (game_over g) (score g) (player g) (enemies g) (meteorites g) (life_spheres g) (projectiles g) (enemy_spawn_timer g) (life_sphere_spawn_timer g) (keys_pressed g) (cockpit_sway g).
Definition with_paused (v : bool) (g : t) : t :=
  mk (camera g) (previous_camera_yaw g) (previous_camera_pitch g) (ship_roll g) (ship_pitch_offset g) (ship_yaw_offset g) (running g) v (game_over g) (score g) (player g) (enemies g) (meteorites g) (life_spheres g) (projectiles g) (enemy_spawn_timer g) (life_sphere_spawn_timer g) (keys_pressed g) (cockpit_sway g).
Definition with_game_over (v : bool) (g : t) : t :=
  mk (camera g) (previous_camera_yaw g) (previous_camera_pitch g) (ship_roll g) (ship_pitch_offset g) (ship_yaw_offset g) (running g) (paused g) v (score g) (player g) (enemies g) (meteorites g) (life_spheres g) (projectiles g) (enemy_spawn_timer g) (life_sphere_spawn_timer g) (keys_pressed g) (cockpit_sway g).
Definition with_score (v : Z) (g : t) : t :=
  mk (camera g) (previous_camera_yaw g) (previous_camera_pitch g) (ship_roll g) (ship_pitch_offset g) (ship_yaw_offset g) (running g) (paused g) (game_over g) v (player g) (enemies g) (meteorites g) (life_spheres g) (projectiles g) (enemy_spawn_timer g) (life_sphere_spawn_timer g) (keys_pressed g) (cockpit_sway g).
Definition with_player (v : Player.t) (g : t) : t :=
  mk (camera g) (previous_camera_yaw g) (previous_camera_pitch g) (ship_roll g) (ship_pitch_offset g) (ship_yaw_offset g) (running g) (paused g) (game_over g) (score g) v (enemies g) (meteorites g) (life_spheres g) (projectiles g) (enemy_spawn_timer g) (life_sphere_spawn_timer g) (keys_pressed g) (cockpit_sway g).
Definition with_enemies (v : list Enemy.t) (g : t) : t :=
  mk (camera g) (previous_camera_yaw g) (previous_camera_pitch g) (ship_roll g) (ship_pitch_offset g) (ship_yaw_offset g) (running g) (paused g) (game_over g) (score g) (player g) v (meteorites g) (life_spheres g) (projectiles g) (enemy_spawn_timer g) (life_sphere_spawn_timer g) (keys_pressed g) (cockpit_sway g).
Definition with_meteorites (v : list Meteorite.t) (g : t) : t :=
  mk (camera g) (previous_camera_yaw g) (previous_camera_pitch g) (ship_roll g) (ship_pitch_offset g) (ship_yaw_offset g) (running g) (paused g) (game_over g) (score g) (player g) (enemies g) v (life_spheres g) (projectiles g) (enemy_spawn_timer g) (life_sphere_spawn_timer g) (keys_pressed g) (cockpit_sway g).
Definition with_life_spheres (v : list LifeSphere.t) (g : t) : t :=
  mk (camera g) (previous_camera_yaw g) (previous_camera_pitch g) (ship_roll g) (ship_pitch_offset g) (ship_yaw_offset g) (running g) (paused g) (game_over g) (score g) (player g) (enemies g) (meteorites g) v (projectiles g) (enemy_spawn_timer g) (life_sphere_spawn_timer g) (keys_pressed g) (cockpit_sway g).
Definition with_projectiles (v : list Projectile.t) (g : t) : t :=
  mk (camera g) (previous_camera_yaw g) (previous_camera_pitch g) (ship_roll g) (ship_pitch_offset g) (ship_yaw_offset g) (running g) (paused g) (game_over g) (score g) (player g) (enemies g) (meteorites g) (life_spheres g) v (enemy_spawn_timer g) (life_sphere_spawn_timer g) (keys_pressed g) (cockpit_sway g).
Definition with_enemy_spawn_timer (v : R) (g : t) : t :=
  mk (camera g) (previous_camera_yaw g) (previous_camera_pitch g) (ship_roll g) (ship_pitch_offset g) (ship_yaw_offset g) (running g) (paused g) (game_over g) (score g) (player g) (enemies g) (meteorites g) (life_spheres g) (projectiles g) v (life_sphere_spawn_timer g) (keys_pressed g) (cockpit_sway g).
Definition with_life_sphere_spawn_timer (v : R) (g : t) : t :=
  mk (camera g) (previous_camera_yaw g) (previous_camera_pitch g) (ship_roll g) (ship_pitch_offset g) (ship_yaw_offset g) (running g) (paused g) (game_over g) (score g) (player g) (enemies g) (meteorites g) (life_spheres g) (projectiles g) (enemy_spawn_timer g) v (keys_pressed g) (cockpit_sway g).
Definition with_keys_pressed (v : list Z) (g : t) : t :=
  mk (camera g) (previous_camera_yaw g) (previous_camera_pitch g) (ship_roll g) (ship_pitch_offset g) (ship_yaw_offset g) (running g) (paused g) (game_over g) (score g) (player g) (enemies g) (meteorites g) (life_spheres g) (projectiles g) (enemy_spawn_timer g) (life_sphere_spawn_timer g) v (cockpit_sway g).
Definition with_cockpit_sway (v : R) (g : t) : t :=
  mk (camera g) (previous_camera_yaw g) (previous_camera_pitch g) (ship_roll g) (ship_pitch_offset g) (ship_yaw_offset g) (running g) (paused g) (game_over g) (score g) (player g) (enemies g) (meteorites g) (life_spheres g) (projectiles g) (enemy_spawn_timer g) (life_sphere_spawn_timer g) (keys_pressed g) v.

(** [Game.__init__] before [_spawn_initial_meteorites]; window, renderer,
    HUD and clock are outside the embedding. *)
Definition init_fields : t :=
  let camera := Camera.init (Some (Vector3.mk 0 0 5)) (-90) 0 in
  mk camera (Camera.yaw camera) (Camera.pitch camera) 0 0 0
     true false false 0%Z
     (Player.init (Some (Vector3.mk 0 0 0))) [] [] [] []
     0 0 [] 0.

Definition _spawn_initial_meteorites (seeds : nat -> MeteoriteSeed) (g : t) : t :=
  with_meteorites
    (meteorites g ++
     map (fun i =>
            let pos := Vector3.mk (seed_x (seeds i)) (seed_y (seeds i)) (seed_z (seeds i)) in
            Meteorite.init (Some pos) (seed_draw (seeds i)))
         (seq 0 Config.METEORITE_COUNT))
    g.

Definition init (seeds : nat -> MeteoriteSeed) : t :=
  _spawn_initial_meteorites seeds init_fields.

Definition _spawn_enemy (env : Env) (g : t) : t :=
  let distance := Config.ENEMY_SPAWN_DISTANCE in
  let pos := Vector3.mk
               (Vector3.x (Camera.position (camera g)) + distance * enemy_draw_x env)
               (Vector3.y (Camera.position (camera g)) + enemy_draw_y env)
               (Vector3.z (Camera.position (camera g)) - distance) in
  with_enemies (enemies g ++ [Enemy.init (Some pos) (enemy_draw_timer env)]) g.

Definition _spawn_life_sphere (env : Env) (g : t) : t :=
  let pos := Vector3.mk
               (Vector3.x (Camera.position (camera g)) + sphere_draw_x env)
               (Vector3.y (Camera.position (camera g)) + sphere_draw_y env)
               (Vector3.z (Camera.position (camera g)) - sphere_draw_z env) in
  with_life_spheres (life_spheres g ++ [LifeSphere.init (Some pos)]) g.

Definition _shoot_player_laser (g : t) : t :=
  let '(fired, p) := Player.shoot (player g) in
  let g := with_player p g in
  if fired then
    let direction := Camera.get_forward_vector (camera g) in
    let pos := Vector3.add (Camera.position (camera g)) (Vector3.mul direction 2) in
    with_projectiles (projectiles g ++ [Projectile.init pos direction "player"]) g
  else g.

(** [_shoot_enemy_laser(enemy)]: the projectile it appends. *)
Definition enemy_laser (player_position : Vec) (enemy : Enemy.t) : Projectile.t :=
  let direction := Enemy.get_shoot_direction player_position enemy in
  let pos := Vector3.copy (Entity.position (Enemy.base enemy)) in
  Projectile.init pos direction "enemy".

Definition _restart_game (seeds : nat -> MeteoriteSeed) (g : t) : t :=
  let g := with_game_over false g in
  let g := with_paused false g in
  let g := with_score 0%Z g in
  let g := with_player (Player.init (Some (Vector3.mk 0 0 0))) g in
  let g := with_camera (Camera.init (Some (Vector3.mk 0 0 5)) (-90) 0) g in
  let g := with_previous_camera_yaw (Camera.yaw (camera g)) g in
  let g := with_previous_camera_pitch (Camera.pitch (camera g)) g in
  let g := with_ship_roll 0 g in
  let g := with_ship_pitch_offset 0 g in
  let g := with_ship_yaw_offset 0 g in
  let g := with_enemies [] g in
  let g := with_meteorites [] g in
  let g := with_life_spheres [] g in
  let g := with_projectiles [] g in
  let g := with_enemy_spawn_timer 0 g in
  let g := with_life_sphere_spawn_timer 0 g in
  _spawn_initial_meteorites seeds g.

(** The set [keys_pressed] *)
Definition key_in (key : Z) (keys : list Z) : bool := existsb (Z.eqb key) keys.
Definition key_add (key : Z) (keys : list Z) : list Z :=
  if key_in key keys then keys else key :: keys.
Definition key_remove (key : Z) (keys : list Z) : list Z :=
  filter (fun k => negb (Z.eqb key k)) keys.

(** The body of the loop of [handle_events], for one event. *)
Definition handle_event (seeds : nat -> MeteoriteSeed) (event : Event) (g : t) : t :=
  match event with
  | QUIT => with_running false g
  | KEYDOWN key =>
      let g :=
        if Z.eqb key K_ESCAPE then
          if game_over g then with_running false g
          else with_paused (negb (paused g)) g
        else if Z.eqb key K_r && game_over g then _restart_game seeds g
        else if Z.eqb key K_SPACE && negb (paused g) && negb (game_over g)
             then _shoot_player_laser g
        else g in
      with_keys_pressed (key_add key (keys_pressed g)) g
  | KEYUP key =>
      if key_in key (keys_pressed g)
      then with_keys_pressed (key_remove key (keys_pressed g)) g
      else g
  | MOUSEMOTION dx dy =>
      if negb (paused g) && negb (game_over g) then
        with_camera
          (Camera.process_mouse_movement
             (IZR dx * Config.PLAYER_MOUSE_SENSITIVITY)
             (- IZR dy * Config.PLAYER_MOUSE_SENSITIVITY) true (camera g)) g
      else g
  | VIDEORESIZE _ _ => g
  | OTHER_EVENT => g
  end.

Definition handle_events (seeds : nat -> MeteoriteSeed) (events : list Event) (g : t) : t :=
  fold_left (fun g event => handle_event seeds event g) events g.

Definition handle_movement (dt : R) (g : t) : t :=
  if paused g || game_over g then g
  else
    let move (key : Z) (f : R -> Camera.t -> Camera.t) (speed : R) (g : t) : t :=
      if key_in key (keys_pressed g)
      then with_camera (f (speed * dt) (camera g)) g else g in
    let g := move K_w Camera.move_forward Config.PLAYER_SPEED g in
    let g := move K_s Camera.move_backward Config.PLAYER_SPEED g in
    let g := move K_a Camera.move_left Config.PLAYER_STRAFE_SPEED g in
    let g := move K_d Camera.move_right Config.PLAYER_STRAFE_SPEED g in
    (* Update player position to match camera *)
    with_player
      (Player.with_base
         (Entity.with_position (Vector3.copy (Camera.position (camera g)))
                               (Player.base (player g)))
         (player g)) g.

Definition _update_ship_animation (dt : R) (env : Env) (g : t) : t :=
  (* Calculate camera rotation changes *)
  let yaw_delta := Camera.yaw (camera g) - previous_camera_yaw g in
  let pitch_delta := Camera.pitch (camera g) - previous_camera_pitch g in
  (* Normalize yaw delta *)
  let yaw_delta := normalize_yaw_delta yaw_delta in
  (* Clamp deltas to prevent extreme values *)
  let yaw_delta := PyFloat.max (-10) (PyFloat.min 10 yaw_delta) in
  let pitch_delta := PyFloat.max (-10) (PyFloat.min 10 pitch_delta) in
  (* Banking/rolling when turning left/right *)
  let target_roll := - yaw_delta * Config.SHIP_ROLL_SENSITIVITY in
  let target_roll :=
    PyFloat.max (- Config.MAX_SHIP_ROLL) (PyFloat.min Config.MAX_SHIP_ROLL target_roll) in
  let damping_factor := PyFloat.min 1 (Config.SHIP_ANIMATION_DAMPING * dt) in
  let g := with_ship_roll (ship_roll g + (target_roll - ship_roll g) * damping_factor) g in
  let g := with_ship_roll
             (PyFloat.max (- Config.MAX_SHIP_ROLL)
                          (PyFloat.min Config.MAX_SHIP_ROLL (ship_roll g))) g in
  (* Pitch offset when looking up/down *)
  let target_pitch_offset := pitch_delta * Config.SHIP_PITCH_SENSITIVITY in
  let target_pitch_offset :=
    PyFloat.max (- Config.MAX_SHIP_PITCH_OFFSET)
                (PyFloat.min Config.MAX_SHIP_PITCH_OFFSET target_pitch_offset) in
  let g := with_ship_pitch_offset
             (ship_pitch_offset g
              + (target_pitch_offset - ship_pitch_offset g) * damping_factor) g in
  let g := with_ship_pitch_offset
             (PyFloat.max (- Config.MAX_SHIP_PITCH_OFFSET)
                          (PyFloat.min Config.MAX_SHIP_PITCH_OFFSET (ship_pitch_offset g))) g in
  (* Damping: gradually return to neutral when not moving camera *)
  let g := if PyFloat.abs yaw_delta <? 5 / 10
           then with_ship_roll (ship_roll g * (92 / 100)) g else g in
  let g := if PyFloat.abs pitch_delta <? 5 / 10
           then with_ship_pitch_offset (ship_pitch_offset g * (92 / 100)) g else g in
  (* Safety: force to zero if very small *)
  let g := if PyFloat.abs (ship_roll g) <? 1 / 10 then with_ship_roll 0 g else g in
  let g := if PyFloat.abs (ship_pitch_offset g) <? 1 / 10
           then with_ship_pitch_offset 0 g else g in
  (* Update previous camera state *)
  let g := with_previous_camera_yaw (Camera.yaw (camera g)) g in
  let g := with_previous_camera_pitch (Camera.pitch (camera g)) g in
  (* Cockpit inertia (sway) *)
  let target_sway :=
    if get_pressed env K_a then -40
    else if get_pressed env K_d then 40
    else 0 in
  let sway_speed := 5 * dt in
  with_cockpit_sway (cockpit_sway g + (target_sway - cockpit_sway g) * sway_speed) g.

Definition _update_spawning (dt : R) (env : Env) (g : t) : t :=
  (* Spawn enemies *)
  let g := with_enemy_spawn_timer (enemy_spawn_timer g + dt) g in
  let g := if enemy_spawn_timer g >=? Config.ENEMY_SPAWN_INTERVAL
           then _spawn_enemy env (with_enemy_spawn_timer 0 g) else g in
  (* Spawn life spheres *)
  let g := with_life_sphere_spawn_timer (life_sphere_spawn_timer g + dt) g in
  if life_sphere_spawn_timer g >=? Config.LIFE_SPHERE_SPAWN_INTERVAL
  then _spawn_life_sphere env (with_life_sphere_spawn_timer 0 g) else g.

(** *** [_handle_collisions]: the bodies of its loops *)

(** Player vs Meteorites *)
Definition player_meteorite (meteorite : Meteorite.t) (g : t) : Meteorite.t * t :=
  if CollisionSystem.check_collision (Player.base (player g)) (Meteorite.base meteorite) then
    let g := with_score (score g + Config.METEORITE_COLLISION_PENALTY)%Z g in
    (* Push player back *)
    let '(entity1, entity2) :=
      CollisionSystem.resolve_collision
        (Player.base (player g)) (Meteorite.base meteorite) Config.COLLISION_PUSH_BACK in
    let g := with_player (Player.with_base entity1 (player g)) g in
    let meteorite := Meteorite.with_base entity2 meteorite in
    let g := with_camera
               (Camera.with_position
                  (Vector3.copy (Entity.position (Player.base (player g)))) (camera g)) g in
    (meteorite, g)
  else (meteorite, g).

(** Player vs Life Spheres *)
Definition player_life_sphere (sphere : LifeSphere.t) (g : t) : LifeSphere.t * t :=
  if CollisionSystem.check_collision (Player.base (player g)) (LifeSphere.base sphere) then
    let g := with_player (Player.add_life (player g)) g in
    (LifeSphere.collect sphere, g)
  else (sphere, g).

(** Player vs Enemy *)
Definition player_enemy (enemy : Enemy.t) (g : t) : Enemy.t * t :=
  if CollisionSystem.check_collision (Player.base (player g)) (Enemy.base enemy) then
    let g := with_player (Player.take_damage (player g)) g in
    (Enemy.destroy enemy, g)
  else (enemy, g).

(** Player projectiles vs enemies; the flag is the [break]. *)
Definition projectile_enemy (enemy : Enemy.t) (s : Projectile.t * t)
  : Enemy.t * (Projectile.t * t) * bool :=
  let '(projectile, g) := s in
  if CollisionSystem.check_collision (Projectile.base projectile) (Enemy.base enemy) then
    let enemy := Enemy.take_damage 1 enemy in
    let projectile := Projectile.destroy projectile in
    let g := if negb (Enemy.is_alive enemy)
             then with_score (score g + Enemy.get_points enemy)%Z g else g in
    (enemy, (projectile, g), true)
  else (enemy, (projectile, g), false).

(** Player projectiles vs life spheres *)
Definition projectile_life_sphere (sphere : LifeSphere.t) (s : Projectile.t * t)
  : LifeSphere.t * (Projectile.t * t) * bool :=
  let '(projectile, g) := s in
  if CollisionSystem.check_collision (Projectile.base projectile) (LifeSphere.base sphere) then
    let g := with_player (Player.add_life (player g)) g in
    let sphere := LifeSphere.collect sphere in
    let projectile := Projectile.destroy projectile in
    (sphere, (projectile, g), true)
  else (sphere, (projectile, g), false).

(** Projectiles vs meteorites (block) *)
Definition projectile_meteorite (meteorite : Meteorite.t) (s : Projectile.t * t)
  : Meteorite.t * (Projectile.t * t) * bool :=
  let '(projectile, g) := s in
  if CollisionSystem.check_collision (Projectile.base projectile) (Meteorite.base meteorite) then
    let projectile := Projectile.destroy projectile in
    (meteorite, (projectile, g), true)
  else (meteorite, (projectile, g), false).

(** The body of [for projectile in self.projectiles[:]]. *)
Definition projectile_collisions (projectile : Projectile.t) (g : t) : Projectile.t * t :=
  if Projectile.is_player_projectile projectile then
    let '(es, (projectile, g)) :=
      for_each_break projectile_enemy (enemies g) (projectile, g) in
    let g := with_enemies es g in
    let '(ss, (projectile, g)) :=
      for_each_break projectile_life_sphere (life_spheres g) (projectile, g) in
    let g := with_life_spheres ss g in
    let '(ms, (projectile, g)) :=
      for_each_break projectile_meteorite (meteorites g) (projectile, g) in
    let g := with_meteorites ms g in
    (projectile, g)
  else if Projectile.is_enemy_projectile projectile then
    let '(projectile, g) :=
      if CollisionSystem.check_collision (Projectile.base projectile) (Player.base (player g))
      then (Projectile.destroy projectile, with_player (Player.take_damage (player g)) g)
      else (projectile, g) in
    let '(ms, (projectile, g)) :=
      for_each_break projectile_meteorite (meteorites g) (projectile, g) in
    let g := with_meteorites ms g in
    (projectile, g)
  else (projectile, g).

Definition _handle_collisions (g : t) : t :=
  let '(ms, g) := for_each player_meteorite (meteorites g) g in
  let g := with_meteorites ms g in
  let '(ss, g) := for_each player_life_sphere (life_spheres g) g in
  let g := with_life_spheres ss g in
  let '(es, g) := for_each player_enemy (enemies g) g in
  let g := with_enemies es g in
  let '(ps, g) := for_each projectile_collisions (projectiles g) g in
  let g := with_projectiles ps g in
  (* Check if player is dead *)
  if negb (Player.is_alive (player g)) then with_game_over true g else g.

Definition _cleanup_entities (g : t) : t :=
  let g := with_enemies (filter Enemy.is_alive (enemies g)) g in
  let g := with_life_spheres (filter LifeSphere.is_alive (life_spheres g)) g in
  with_projectiles (filter Projectile.is_alive (projectiles g)) g.

(** The body of [for enemy in self.enemies[:]] in [update]. *)
Definition update_enemy (dt : R) (enemy : Enemy.t) (g : t) : Enemy.t * t :=
  let player_position := Entity.position (Player.base (player g)) in
  let enemy := Enemy.update dt (Some player_position) enemy in
  (* Enemy AI shooting *)
  let '(fire, enemy) := Enemy.can_shoot player_position enemy in
  if fire
  then (enemy, with_projectiles (projectiles g ++ [enemy_laser player_position enemy]) g)
  else (enemy, g).

Definition update (dt : R) (env : Env) (g : t) : t :=
  if paused g || game_over g then g
  else
    let g := _update_ship_animation dt env g in
    let g := with_player (Player.update dt (player g)) g in
    let '(es, g) := for_each (update_enemy dt) (enemies g) g in
    let g := with_enemies es g in
    let g := with_meteorites (map (Meteorite.update dt) (meteorites g)) g in
    let g := with_life_spheres
               (map_indexed (fun i sphere => LifeSphere.update dt (get_ticks env i) sphere)
                            0 (life_spheres g)) g in
    let g := with_projectiles (map (Projectile.update dt) (projectiles g)) g in
    let g := _update_spawning dt env g in
    let g := _handle_collisions g in
    _cleanup_entities g.

(** [render]: the cooldown ratio it computes for the HUD. *)
Definition cooldown_ratio (g : t) : R :=
  if Player.shoot_cooldown (player g) >? 0
  then Player.shoot_cooldown (player g) / Config.PLAYER_SHOOT_COOLDOWN
  else 0.

(** One turn of the loop of [run], rendering apart. *)
Definition frame (dt : R) (events : list Event) (seeds : nat -> MeteoriteSeed) (env : Env)
  (g : t) : t :=
  update dt env (handle_movement dt (handle_events seeds events g)).

End Game.

(** ** What the outside may supply *)

(** The draws stay in the intervals [random.uniform] is called with. *)
Definition seed_ok (s : MeteoriteSeed) : Prop :=
  - Config.WORLD_SIZE / 2 <= seed_x s <= Config.WORLD_SIZE / 2 /\
  - Config.WORLD_SIZE / 4 <= seed_y s <= Config.WORLD_SIZE / 4 /\
  - Config.WORLD_SIZE <= seed_z s <= -20 /\
  Config.METEORITE_MIN_SIZE <= Meteorite.draw_size (seed_draw s) <= Config.METEORITE_MAX_SIZE /\
  (let v := Meteorite.draw_velocity (seed_draw s) in
   - (5 / 100) <= Vector3.x v <= 5 / 100 /\
   - (5 / 100) <= Vector3.y v <= 5 / 100 /\
   - (5 / 100) <= Vector3.z v <= 5 / 100).

Definition env_ok (env : Env) : Prop :=
  (forall i, (0 <= get_ticks env i)%Z) /\
  - (5 / 10) <= enemy_draw_x env <= 5 / 10 /\
  -10 <= enemy_draw_y env <= 10 /\
  0 <= enemy_draw_timer env <= Config.ENEMY_SHOOT_INTERVAL /\
  -30 <= sphere_draw_x env <= 30 /\
  -20 <= sphere_draw_y env <= 20 /\
  30 <= sphere_draw_z env <= Config.LIFE_SPHERE_SPAWN_DISTANCE.

(** The states of the game: the initial one, and what a frame with a
    delta time [dt >= 0] (from [clock.tick]) makes of a state. *)
Inductive reachable : Game.t -> Prop :=
| reachable_init (seeds : nat -> MeteoriteSeed) :
    (forall i, seed_ok (seeds i)) -> reachable (Game.init seeds)
| reachable_frame (g : Game.t) (dt : R) (events : list Event)
    (seeds : nat -> MeteoriteSeed) (env : Env) :
    reachable g -> 0 <= dt -> (forall i, seed_ok (seeds i)) -> env_ok env ->
    reachable (Game.frame dt events seeds env g).

(** * Part II: what the properties are stated with *)

(** ** Calls on the player *)





(** ** Seeding *)

(** The meteorites [_restart_game] (and [__init__]) seeds: as many as
    [METEORITE_COUNT], each from its own draws. *)
Definition seeded_meteorites (seeds : nat -> MeteoriteSeed) : list Meteorite.t :=
  map (fun i =>
         Meteorite.init
           (Some (Vector3.mk (seed_x (seeds i)) (seed_y (seeds i)) (seed_z (seeds i))))
           (seed_draw (seeds i)))
      (seq 0 Config.METEORITE_COUNT).

(** The draws of the examples: every meteorite at [(0, 0, -100)], of
    size 2, neither rotating nor drifting. *)
Definition still_seed : MeteoriteSeed :=
  mkSeed 0 0 (-100) (Meteorite.mkDraw 2 (0, 0, 0) (Vector3.mk 0 0 0)).

(** The outside of the examples: no key held, the clock at 0 ms; an
    enemy would be spawned straight ahead with 2 s on its timer, a life
    sphere 30 ahead of the camera. *)
Definition quiet_env : Env :=
  mkEnv (fun _ => false) (fun _ => 0%Z) 0 0 2 0 0 30.


(** The game as [__init__] leaves it, with these draws. *)
Definition seeded_game : Game.t := Game.init (fun _ => still_seed).

(** ** Projectiles against the entity lists *)

(** [f] applied to the first element that [hit] holds of, and to no
    other: what a loop [for a in l: if hit(a): f(a); break] does to
    the list. *)
Fixpoint update_first {A : Type} (hit : A -> bool) (f : A -> A) (l : list A) : list A :=
  match l with
  | [] => []
  | a :: rest => if hit a then f a :: rest else a :: update_first hit f rest
  end.

(** Two lists of the same length that differ at one index at most. *)
Definition changed_at_most_one {A : Type} (l l' : list A) : Prop :=
  List.length l' = List.length l /\
  exists i : nat, forall j : nat, j <> i -> nth_error l' j = nth_error l j.

(** Whether the sphere of [projectile] overlaps the sphere of [e]. *)
Definition hits (projectile : Projectile.t) (e : Entity.t) : bool :=
  CollisionSystem.check_collision (Projectile.base projectile) e.

Arguments hits : simpl never.
Arguments CollisionSystem.check_collision : simpl never.

(** A player projectile at [(0, 0, -10)] between an enemy at
    [(1, 0, -10)] and a life sphere at [(-1, 0, -10)]. *)
Definition crossfire_projectile : Projectile.t :=
  Projectile.init (Vector3.mk 0 0 (-10)) (Vector3.mk 0 0 (-1)) "player".

(** The enemy, with 1 s on its timer. *)
Definition crossfire_enemy : Enemy.t := Enemy.init (Some (Vector3.mk 1 0 (-10))) 1.

(** The life sphere. *)
Definition crossfire_sphere : LifeSphere.t := LifeSphere.init (Some (Vector3.mk (-1) 0 (-10))).

(** The initial state with that enemy and that life sphere. *)
Definition crossfire_game : Game.t :=
  Game.with_life_spheres [crossfire_sphere]
    (Game.with_enemies [crossfire_enemy] (Game.init (fun _ => still_seed))).

(** ** Frames in which nothing collides *)





(** Two states of an enemy that differ in velocity at most. *)
Definition same_but_velocity (e e' : Enemy.t) : Prop :=
  e' = Enemy.with_base
         (Entity.with_velocity (Entity.velocity (Enemy.base e')) (Enemy.base e)) e.




(** ** A frame that spawns a life sphere *)

(** The initial state after one frame of 10 s, no event, no key held. *)
Definition sphere_game : Game.t :=
  Game.frame 10 [] (fun _ => still_seed) quiet_env seeded_game.






(** ** Sequences of calls on one entity *)

(** A call of one of the methods of [Player] that change it. *)
Inductive PlayerOp : Type :=
| OpUpdate (dt : R)
| OpShoot
| OpTakeDamage
| OpAddLife.

Definition apply_op (op : PlayerOp) (p : Player.t) : Player.t :=
  match op with
  | OpUpdate dt => Player.update dt p
  | OpShoot => snd (Player.shoot p)
  | OpTakeDamage => Player.take_damage p
  | OpAddLife => Player.add_life p
  end.

(** The calls one after the other. *)
Definition apply_ops (ops : list PlayerOp) (p : Player.t) : Player.t :=
  fold_left (fun p op => apply_op op p) ops p.

(** The delta times of the updates are durations. *)
Definition forward_ops (ops : list PlayerOp) : Prop :=
  Forall (fun op => match op with OpUpdate dt => 0 <= dt | _ => True end) ops.

(** How often [op] is called: [take_damage()] and [add_life()]. *)
Definition damage_calls (ops : list PlayerOp) : Z :=
  Z.of_nat (List.length (filter (fun op => match op with OpTakeDamage => true | _ => false end)
                                ops)).
Definition life_calls (ops : list PlayerOp) : Z :=
  Z.of_nat (List.length (filter (fun op => match op with OpAddLife => true | _ => false end)
                                ops)).



(** [take_damage(damage)] called once per damage of [damages], and the
    damage dealt in all. *)
Definition enemy_hits (damages : list Z) (e : Enemy.t) : Enemy.t :=
  fold_left (fun e damage => Enemy.take_damage damage e) damages e.
Definition total_damage (damages : list Z) : Z := fold_right Z.add 0%Z damages.

(** ** The animation of the ship *)

(** The yaw and pitch deltas [_update_ship_animation] works with:
    wrapped (the yaw) and clamped to [[-10, 10]]. *)
Definition clamped_yaw_delta (g : Game.t) : R :=
  PyFloat.max (-10)
    (PyFloat.min 10
       (normalize_yaw_delta (Camera.yaw (Game.camera g) - Game.previous_camera_yaw g))).

Definition clamped_pitch_delta (g : Game.t) : R :=
  PyFloat.max (-10)
    (PyFloat.min 10 (Camera.pitch (Game.camera g) - Game.previous_camera_pitch g)).

(** The statements of [_update_ship_animation] on one of the two
    angles ([ship_roll], [ship_pitch_offset]): [angle] before, [target]
    the target before it is clamped, [limit] the maximum, [delta] the
    clamped camera delta. *)
Definition eased (angle target limit delta dt : R) : R :=
  let target := PyFloat.max (- limit) (PyFloat.min limit target) in
  let damping_factor := PyFloat.min 1 (Config.SHIP_ANIMATION_DAMPING * dt) in
  let angle := angle + (target - angle) * damping_factor in
  let angle := PyFloat.max (- limit) (PyFloat.min limit angle) in
  let angle := if PyFloat.abs delta <? 5 / 10 then angle * (92 / 100) else angle in
  if PyFloat.abs angle <? 1 / 10 then 0 else angle.

(** ** Movement keys *)

(** 1 while [key] is held, 0 otherwise. *)
Definition held (key : Z) (g : Game.t) : R :=
  if Game.key_in key (Game.keys_pressed g) then 1 else 0.

(** ** Contact of the player with enemies and life spheres *)

(** Whether the sphere of the player of [g] overlaps that of [e]. *)
Definition touches (g : Game.t) (e : Entity.t) : bool :=
  CollisionSystem.check_collision (Player.base (Game.player g)) e.

Arguments touches : simpl never.

(** ** What the states of the game have in common *)

(** [can_shoot] says whether the cooldown has run out, and the cooldown
    is never longer than [PLAYER_SHOOT_COOLDOWN]. *)
Definition shoot_state_ok (p : Player.t) : Prop :=
  (Player.can_shoot p = true <-> Player.shoot_cooldown p <= 0) /\
  Player.shoot_cooldown p <= Config.PLAYER_SHOOT_COOLDOWN.

(** The player does not move by itself, has radius 2, and has a life
    left while it is alive. *)
Definition player_ok (p : Player.t) : Prop :=
  Entity.velocity (Player.base p) = Vector3.mk 0 0 0 /\
  Entity.radius (Player.base p) = 2 /\
  shoot_state_ok p /\
  (Player.is_alive p = true -> (1 <= Player.lives p)%Z).

(** The world up vector is [(0, 1, 0)], the pitch is within the limit,
    and [front], [right] and [up] are those of the yaw and the pitch. *)
Definition camera_ok (c : Camera.t) : Prop :=
  Camera.world_up c = Vector3.mk 0 1 0 /\
  - Config.CAMERA_YAW_LIMIT <= Camera.pitch c <= Config.CAMERA_YAW_LIMIT /\
  Camera.update_vectors c = c.

(** The player is where the camera is, or both are where a new game
    puts them. *)
Definition anchored (p : Player.t) (c : Camera.t) : Prop :=
  Entity.position (Player.base p) = Camera.position c \/
  (Entity.position (Player.base p) = Vector3.mk 0 0 0 /\
   Camera.position c = Vector3.mk 0 0 5).

(** An enemy that is alive has never been hit. *)
Definition enemy_ok (e : Enemy.t) : Prop :=
  Enemy.points e = Config.ENEMY_POINTS /\
  Entity.radius (Enemy.base e) = 15 / 10 /\
  (Enemy.is_alive e = true -> Enemy.health e = Config.ENEMY_HEALTH).

(** A life sphere is collected exactly when it is dead. *)
Definition sphere_ok (s : LifeSphere.t) : Prop :=
  Entity.radius (LifeSphere.base s) = Config.LIFE_SPHERE_SIZE /\
  LifeSphere.is_collected s = negb (LifeSphere.is_alive s).

(** A projectile is the player's or an enemy's, no faster than
    [LASER_SPEED], and younger than its lifetime while it is alive. *)
Definition projectile_ok (p : Projectile.t) : Prop :=
  (Projectile.is_player_projectile p = true \/ Projectile.is_enemy_projectile p = true) /\
  Entity.radius (Projectile.base p) = 3 / 10 /\
  Vector3.length (Entity.velocity (Projectile.base p)) <= Config.LASER_SPEED /\
  Projectile.lifetime p = Config.LASER_LIFETIME /\
  0 <= Projectile.age p /\
  (Projectile.is_alive p = true -> Projectile.age p < Projectile.lifetime p).

(** A meteorite is alive, of a size [random.uniform] can draw, with the
    radius of that size. *)
Definition meteorite_ok (m : Meteorite.t) : Prop :=
  Meteorite.is_alive m = true /\
  Entity.radius (Meteorite.base m) = Meteorite.size m * (12 / 10) /\
  Config.METEORITE_MIN_SIZE <= Meteorite.size m <= Config.METEORITE_MAX_SIZE.

Definition game_ok (g : Game.t) : Prop :=
  player_ok (Game.player g) /\
  camera_ok (Game.camera g) /\
  anchored (Game.player g) (Game.camera g) /\
  Forall enemy_ok (Game.enemies g) /\
  Forall sphere_ok (Game.life_spheres g) /\
  Forall projectile_ok (Game.projectiles g) /\
  Forall meteorite_ok (Game.meteorites g) /\
  List.length (Game.meteorites g) = Config.METEORITE_COUNT /\
  0 <= Game.enemy_spawn_timer g < Config.ENEMY_SPAWN_INTERVAL /\
  0 <= Game.life_sphere_spawn_timer g < Config.LIFE_SPHERE_SPAWN_INTERVAL /\
  - Config.MAX_SHIP_ROLL <= Game.ship_roll g <= Config.MAX_SHIP_ROLL /\
  - Config.MAX_SHIP_PITCH_OFFSET <= Game.ship_pitch_offset g <= Config.MAX_SHIP_PITCH_OFFSET.

(** What clean-up leaves: no dead entity in the lists, and the game
    over exactly when the player is dead. *)
Definition settled (g : Game.t) : Prop :=
  Forall (fun e => Enemy.is_alive e = true) (Game.enemies g) /\
  Forall (fun s => LifeSphere.is_alive s = true) (Game.life_spheres g) /\
  Forall (fun p => Projectile.is_alive p = true) (Game.projectiles g) /\
  Game.game_over g = negb (Player.is_alive (Game.player g)).

(** A state in the middle of [update]: the game is not over. *)
Definition playing (g : Game.t) : Prop := game_ok g /\ Game.game_over g = false.

(** The state of the loops of [_handle_collisions] for one projectile. *)
Definition shooting (s : Projectile.t * Game.t) : Prop :=
  projectile_ok (fst s) /\ playing (snd s).

(** [g'] is [g] but for [running] and [keys_pressed]. *)
Definition same_but_input (g g' : Game.t) : Prop :=
  g' = Game.with_keys_pressed (Game.keys_pressed g') (Game.with_running (Game.running g') g).

(** * Part III: properties *)

(** ** Comparisons *)

Lemma ltb_true_iff (a b : R) : (a <? b) = true <-> a < b.
Proof. unfold PyFloat.ltb; destruct (Rlt_dec a b); split; intros; easy. Qed.

Lemma ltb_false_iff (a b : R) : (a <? b) = false <-> b <= a.
Proof. unfold PyFloat.ltb; destruct (Rlt_dec a b); split; intros; try easy; lra. Qed.

Lemma leb_true_iff (a b : R) : (a <=? b) = true <-> a <= b.
Proof. unfold PyFloat.leb; destruct (Rle_dec a b); split; intros; easy. Qed.

Lemma leb_false_iff (a b : R) : (a <=? b) = false <-> b < a.
Proof. unfold PyFloat.leb; destruct (Rle_dec a b); split; intros; try easy; lra. Qed.

Lemma gtb_true_iff (a b : R) : (a >? b) = true <-> b < a.
Proof. unfold PyFloat.gtb; destruct (Rgt_dec a b); split; intros; try easy; lra. Qed.

Lemma gtb_false_iff (a b : R) : (a >? b) = false <-> a <= b.
Proof. unfold PyFloat.gtb; destruct (Rgt_dec a b); split; intros; try easy; lra. Qed.

Lemma geb_true_iff (a b : R) : (a >=? b) = true <-> b <= a.
Proof. unfold PyFloat.geb; destruct (Rge_dec a b); split; intros; try easy; lra. Qed.

Lemma geb_false_iff (a b : R) : (a >=? b) = false <-> a < b.
Proof. unfold PyFloat.geb; destruct (Rge_dec a b); split; intros; try easy; lra. Qed.

Lemma ltb_true (a b : R) : a < b -> (a <? b) = true.
Proof. apply ltb_true_iff. Qed.
Lemma ltb_false (a b : R) : b <= a -> (a <? b) = false.
Proof. apply ltb_false_iff. Qed.
Lemma leb_true (a b : R) : a <= b -> (a <=? b) = true.
Proof. apply leb_true_iff. Qed.
Lemma gtb_true (a b : R) : b < a -> (a >? b) = true.
Proof. apply gtb_true_iff. Qed.
Lemma gtb_false (a b : R) : a <= b -> (a >? b) = false.
Proof. apply gtb_false_iff. Qed.

(** Case analysis on a comparison, with the fact it decides. *)
Ltac case_cmp :=
  match goal with
  | |- context [PyFloat.ltb ?a ?b] =>
      let H := fresh "Hcmp" in
      destruct (PyFloat.ltb a b) eqn:H;
      [apply ltb_true_iff in H | apply ltb_false_iff in H]
  | |- context [PyFloat.leb ?a ?b] =>
      let H := fresh "Hcmp" in
      destruct (PyFloat.leb a b) eqn:H;
      [apply leb_true_iff in H | apply leb_false_iff in H]
  | |- context [PyFloat.gtb ?a ?b] =>
      let H := fresh "Hcmp" in
      destruct (PyFloat.gtb a b) eqn:H;
      [apply gtb_true_iff in H | apply gtb_false_iff in H]
  | |- context [PyFloat.geb ?a ?b] =>
      let H := fresh "Hcmp" in
      destruct (PyFloat.geb a b) eqn:H;
      [apply geb_true_iff in H | apply geb_false_iff in H]
  end.

(** ** Square roots against bounds *)

Lemma sqrt_lt_bound (s r : R) : 0 <= s -> 0 < r -> s < r * r -> sqrt s < r.
Proof.
  intros Hs Hr Hsr.
  rewrite <- (sqrt_square r) by lra.
  apply sqrt_lt_1; nra.
Qed.

Lemma sqrt_ge_bound (s r : R) : 0 <= r -> r * r <= s -> r <= sqrt s.
Proof.
  intros Hr Hrs.
  rewrite <- (sqrt_square r) at 1 by lra.
  apply sqrt_le_1; nra.
Qed.

Lemma sum_squares_nonneg (a b c : R) : 0 <= a ^ 2 + b ^ 2 + c ^ 2.
Proof. nra. Qed.

Lemma sum_squares_zero (a b c : R) :
  a ^ 2 + b ^ 2 + c ^ 2 = 0 -> a = 0 /\ b = 0 /\ c = 0.
Proof. intros H; repeat split; nra. Qed.

(** ** Vector3 *)

Lemma vec_eq (a b : Vec) :
  Vector3.x a = Vector3.x b -> Vector3.y a = Vector3.y b -> Vector3.z a = Vector3.z b ->
  a = b.
Proof. destruct a, b; simpl; intros; subst; reflexivity. Qed.

Lemma length_nonneg (v : Vec) : 0 <= Vector3.length v.
Proof. apply sqrt_pos. Qed.

Lemma length_zero_iff (v : Vec) : Vector3.length v = 0 <-> v = Vector3.mk 0 0 0.
Proof.
  unfold Vector3.length; split.
  - intros H. apply sqrt_eq_0 in H; [| apply sum_squares_nonneg].
    apply sum_squares_zero in H as (Hx & Hy & Hz).
    apply vec_eq; assumption.
  - intros ->; cbn [Vector3.x Vector3.y Vector3.z].
    replace (0 ^ 2 + 0 ^ 2 + 0 ^ 2) with 0 by ring. apply sqrt_0.
Qed.

Lemma length_pos_iff (v : Vec) : 0 < Vector3.length v <-> v <> Vector3.mk 0 0 0.
Proof.
  rewrite <- length_zero_iff. pose proof (length_nonneg v). lra.
Qed.

Lemma sub_zero_iff (a b : Vec) : Vector3.sub a b = Vector3.mk 0 0 0 <-> a = b.
Proof.
  split.
  - intros H. injection H as Hx Hy Hz. apply vec_eq; lra.
  - intros ->. unfold Vector3.sub. f_equal; ring.
Qed.

Lemma copy_id (v : Vec) : Vector3.copy v = v.
Proof. destruct v; reflexivity. Qed.

Lemma length_truediv_self (v : Vec) :
  0 < Vector3.length v -> Vector3.length (Vector3.truediv v (Vector3.length v)) = 1.
Proof.
  intros Hpos.
  assert (Hsq : Vector3.length v * Vector3.length v
                = Vector3.x v ^ 2 + Vector3.y v ^ 2 + Vector3.z v ^ 2).
  { unfold Vector3.length. apply sqrt_sqrt, sum_squares_nonneg. }
  set (l := Vector3.length v) in *.
  unfold Vector3.length at 1, Vector3.truediv; cbn [Vector3.x Vector3.y Vector3.z].
  replace ((Vector3.x v / l) ^ 2 + (Vector3.y v / l) ^ 2 + (Vector3.z v / l) ^ 2)
    with ((Vector3.x v ^ 2 + Vector3.y v ^ 2 + Vector3.z v ^ 2) / (l * l))
    by (field; lra).
  rewrite <- Hsq.
  replace (l * l / (l * l)) with 1 by (field; lra).
  apply sqrt_1.
Qed.


Lemma length_3_4_0 : Vector3.length (Vector3.mk 3 4 0) = 5.
Proof.
  unfold Vector3.length; cbn [Vector3.x Vector3.y Vector3.z].
  replace (3 ^ 2 + 4 ^ 2 + 0 ^ 2) with (5 * 5) by ring.
  apply sqrt_square; lra.
Qed.


(** ** Collision test *)

Lemma distance_to_euclidean (p q : Vec) :
  Vector3.distance_to p q
  = sqrt ((Vector3.x p - Vector3.x q) ^ 2
          + (Vector3.y p - Vector3.y q) ^ 2
          + (Vector3.z p - Vector3.z q) ^ 2).
Proof. reflexivity. Qed.

Lemma check_collision_true_iff (a b : Entity.t) :
  CollisionSystem.check_collision a b = true <->
  Vector3.distance_to (Entity.position a) (Entity.position b)
  < Entity.radius a + Entity.radius b.
Proof.
  unfold CollisionSystem.check_collision, BoundingSphere.intersects, Entity.get_radius.
  cbn [BoundingSphere.center BoundingSphere.radius].
  apply ltb_true_iff.
Qed.

Lemma check_collision_false_iff (a b : Entity.t) :
  CollisionSystem.check_collision a b = false <->
  Entity.radius a + Entity.radius b
  <= Vector3.distance_to (Entity.position a) (Entity.position b).
Proof.
  unfold CollisionSystem.check_collision, BoundingSphere.intersects, Entity.get_radius.
  cbn [BoundingSphere.center BoundingSphere.radius].
  apply ltb_false_iff.
Qed.

(** C1. [check_collision(a, b)] is true exactly when the Euclidean
    distance between the two positions is strictly below the sum of the
    two radii; at a distance equal to that sum it is false. *)
Theorem check_collision_strict (a b : Entity.t) :
  let pa := Entity.position a in
  let pb := Entity.position b in
  let distance := sqrt ((Vector3.x pa - Vector3.x pb) ^ 2
                        + (Vector3.y pa - Vector3.y pb) ^ 2
                        + (Vector3.z pa - Vector3.z pb) ^ 2) in
  (CollisionSystem.check_collision a b = true
   <-> distance < Entity.radius a + Entity.radius b) /\
  (distance = Entity.radius a + Entity.radius b ->
   CollisionSystem.check_collision a b = false).
Proof.
  intros pa pb distance.
  assert (Hd : Vector3.distance_to pa pb = distance) by apply distance_to_euclidean.
  split.
  - rewrite check_collision_true_iff. fold pa pb. rewrite Hd. reflexivity.
  - intros Htangent. apply check_collision_false_iff. fold pa pb. rewrite Hd. lra.
Qed.

(** Two spheres of radius 1 whose centres are 2 apart touch and do not
    collide. *)
Lemma check_collision_strict_witness :
  CollisionSystem.check_collision
    (Entity.init (Some (Vector3.mk 0 0 0))) (Entity.init (Some (Vector3.mk 2 0 0)))
  = false.
Proof.
  apply (proj2 (check_collision_strict
                  (Entity.init (Some (Vector3.mk 0 0 0)))
                  (Entity.init (Some (Vector3.mk 2 0 0))))).
  cbn [Entity.init Entity.position Entity.radius Vector3.x Vector3.y Vector3.z].
  replace ((0 - 2) ^ 2 + (0 - 0) ^ 2 + (0 - 0) ^ 2) with (2 * 2) by ring.
  rewrite sqrt_square by lra. ring.
Defined.

(** ** Push-back *)

(** C8. [resolve_collision(a, b, push_distance)] moves [a] by
    [push_distance] times the normalized direction from [b] to [a],
    along the fixed axis [(1, 0, 0)] when the two positions are the
    same, changes nothing else of [a], and leaves [b] as it was. *)
Theorem resolve_collision_push (a b : Entity.t) (push_distance : R) :
  let a' := fst (CollisionSystem.resolve_collision a b push_distance) in
  let b' := snd (CollisionSystem.resolve_collision a b push_distance) in
  b' = b /\
  (Entity.position a <> Entity.position b ->
   Entity.position a'
   = Vector3.add (Entity.position a)
       (Vector3.mul (Vector3.normalize (Vector3.sub (Entity.position a) (Entity.position b)))
                    push_distance)) /\
  (Entity.position a = Entity.position b ->
   Entity.position a'
   = Vector3.add (Entity.position a) (Vector3.mul (Vector3.mk 1 0 0) push_distance)) /\
  a' = Entity.with_position (Entity.position a') a.
Proof.
  unfold CollisionSystem.resolve_collision; cbn [fst snd].
  repeat split.
  - intros Hne.
    assert (Hpos : 0 < Vector3.length (Vector3.sub (Entity.position a) (Entity.position b))).
    { apply length_pos_iff. rewrite sub_zero_iff. assumption. }
    rewrite gtb_true by assumption. reflexivity.
  - intros Heq.
    assert (Hzero : Vector3.length (Vector3.sub (Entity.position a) (Entity.position b)) = 0).
    { apply length_zero_iff. rewrite sub_zero_iff. assumption. }
    rewrite gtb_false by lra. reflexivity.
Qed.

(** A sphere at [(3, 4, 0)] pushed 5 away from one at the origin ends at
    [(6, 8, 0)]; pushed away from itself, at [(8, 4, 0)]. *)
Lemma resolve_collision_push_witness :
  let a := Entity.init (Some (Vector3.mk 3 4 0)) in
  let b := Entity.init (Some (Vector3.mk 0 0 0)) in
  Entity.position (fst (CollisionSystem.resolve_collision a b 5)) = Vector3.mk 6 8 0 /\
  Entity.position (fst (CollisionSystem.resolve_collision a a 5)) = Vector3.mk 8 4 0.
Proof.
  intros a b. split.
  - destruct (resolve_collision_push a b 5) as (_ & Hpush & _ & _).
    rewrite Hpush.
    + subst a b. cbn [Entity.init Entity.position].
      replace (Vector3.sub (Vector3.mk 3 4 0) (Vector3.mk 0 0 0)) with (Vector3.mk 3 4 0)
        by (unfold Vector3.sub; cbn [Vector3.x Vector3.y Vector3.z]; f_equal; ring).
      unfold Vector3.normalize. rewrite length_3_4_0, gtb_true by lra.
      unfold Vector3.add, Vector3.mul, Vector3.truediv.
      cbn [Vector3.x Vector3.y Vector3.z]. f_equal; field.
    + subst a b. cbn [Entity.init Entity.position]. intros H. injection H; intros; lra.
  - destruct (resolve_collision_push a a 5) as (_ & _ & Hfallback & _).
    rewrite Hfallback by reflexivity.
    subst a. cbn [Entity.init Entity.position].
    unfold Vector3.add, Vector3.mul. cbn [Vector3.x Vector3.y Vector3.z]. f_equal; ring.
Defined.

(** ** Enemy fire *)

(** The two outcomes of [can_shoot(target_pos)]. *)
Lemma can_shoot_cases (e : Enemy.t) (target_pos : Vec) :
  (Enemy.shoot_timer e <= 0 /\
   Vector3.distance_to (Entity.position (Enemy.base e)) target_pos < Config.ENEMY_SHOOT_RANGE /\
   Enemy.can_shoot target_pos e = (true, Enemy.with_shoot_timer Config.ENEMY_SHOOT_INTERVAL e))
  \/
  ((Enemy.shoot_timer e > 0 \/
    Config.ENEMY_SHOOT_RANGE
    <= Vector3.distance_to (Entity.position (Enemy.base e)) target_pos) /\
   Enemy.can_shoot target_pos e = (false, e)).
Proof.
  unfold Enemy.can_shoot.
  repeat case_cmp;
    first [ left; split; [lra | split; [lra | reflexivity]]
          | right; split; [first [left; lra | right; lra] | reflexivity] ].
Qed.



Lemma can_shoot_ready (target_pos : Vec) (e : Enemy.t) :
  Enemy.shoot_timer e <= 0 ->
  Vector3.distance_to (Entity.position (Enemy.base e)) target_pos < Config.ENEMY_SHOOT_RANGE ->
  Enemy.can_shoot target_pos e
  = (true, Enemy.with_shoot_timer Config.ENEMY_SHOOT_INTERVAL e).
Proof.
  intros Ht Hr.
  destruct (can_shoot_cases e target_pos) as [(_ & _ & ->) | (Hwait & _)]; [reflexivity |].
  destruct Hwait; lra.
Qed.

(** C6. [can_shoot(target_pos)] returns false and leaves the enemy (its
    [shoot_timer] too) unchanged while [shoot_timer > 0]; it returns
    true exactly when [shoot_timer <= 0] and the target is at a distance
    below [ENEMY_SHOOT_RANGE], and then [shoot_timer] is reset to
    [ENEMY_SHOOT_INTERVAL]; whenever it returns false the enemy is
    unchanged. *)
Theorem can_shoot_check_and_reset (e : Enemy.t) (target_pos : Vec) :
  let fired := fst (Enemy.can_shoot target_pos e) in
  let e' := snd (Enemy.can_shoot target_pos e) in
  (Enemy.shoot_timer e > 0 -> fired = false /\ e' = e) /\
  (fired = true <->
   Enemy.shoot_timer e <= 0 /\
   Vector3.distance_to (Entity.position (Enemy.base e)) target_pos < Config.ENEMY_SHOOT_RANGE) /\
  (fired = true -> e' = Enemy.with_shoot_timer Config.ENEMY_SHOOT_INTERVAL e) /\
  (fired = false -> e' = e).
Proof.
  unfold Enemy.can_shoot.
  repeat case_cmp; cbn [fst snd]; repeat split; intros; try easy; try lra.
Qed.

Lemma can_shoot_check_and_reset_witness :
  let waiting := Enemy.init (Some (Vector3.mk 0 0 0)) 1 in
  let ready := Enemy.init (Some (Vector3.mk 0 0 0)) 0 in
  Enemy.can_shoot (Vector3.mk 3 4 0) waiting = (false, waiting) /\
  Enemy.shoot_timer (snd (Enemy.can_shoot (Vector3.mk 3 4 0) ready)) = 2.
Proof.
  intros waiting ready. split.
  - destruct (can_shoot_check_and_reset waiting (Vector3.mk 3 4 0)) as (Hwait & _).
    destruct Hwait as [Hf He]; [subst waiting; cbn; lra |].
    rewrite (surjective_pairing (Enemy.can_shoot _ _)), Hf, He. reflexivity.
  - destruct (can_shoot_check_and_reset ready (Vector3.mk 3 4 0)) as (_ & Hiff & Hreset & _).
    rewrite Hreset; [reflexivity |].
    apply Hiff. subst ready. cbn [Enemy.init Enemy.shoot_timer Enemy.base Entity.init
                                  Entity.with_radius Entity.position].
    split; [lra |].
    unfold Vector3.distance_to.
    replace (Vector3.sub (Vector3.mk 0 0 0) (Vector3.mk 3 4 0)) with (Vector3.mk (-3) (-4) 0)
      by (unfold Vector3.sub; cbn [Vector3.x Vector3.y Vector3.z]; f_equal; ring).
    unfold Vector3.length, Config.ENEMY_SHOOT_RANGE. cbn [Vector3.x Vector3.y Vector3.z].
    apply sqrt_lt_bound; lra.
Defined.

(** ** Player damage *)

Lemma take_damage_lives (p : Player.t) :
  Player.lives (Player.take_damage p) = (Player.lives p - 1)%Z.
Proof.
  unfold Player.take_damage; cbn.
  destruct (Player.lives p - 1 <=? 0)%Z; reflexivity.
Qed.

Lemma take_damage_alive (p : Player.t) :
  Player.is_alive (Player.take_damage p)
  = if (Player.lives p - 1 <=? 0)%Z then false else Player.is_alive p.
Proof.
  unfold Player.take_damage; cbn.
  destruct (Player.lives p - 1 <=? 0)%Z; reflexivity.
Qed.

(** C5. From a fresh player with [n > 0] lives, [k] calls of
    [take_damage()] leave [n - k] lives; the player is still alive after
    [k < n] calls and is dead after the [n]-th. *)
Theorem take_damage_n_times (n : Z) (position : option Vec) (k : nat) :
  (0 < n)%Z ->
  let p := Nat.iter k Player.take_damage (Player.init_with n position) in
  Player.lives p = (n - Z.of_nat k)%Z /\
  ((Z.of_nat k < n)%Z -> Player.is_alive p = true) /\
  ((Z.of_nat k = n)%Z -> Player.is_alive p = false).
Proof.
  intros Hn p; subst p.
  assert (Hinv : Player.lives (Nat.iter k Player.take_damage (Player.init_with n position))
                 = (n - Z.of_nat k)%Z /\
                 Player.is_alive (Nat.iter k Player.take_damage (Player.init_with n position))
                 = (Z.of_nat k <? n)%Z).
  { induction k as [| k [IHlives IHalive]].
    - change (Nat.iter 0 Player.take_damage (Player.init_with n position))
        with (Player.init_with n position).
      split; [cbn; lia |].
      cbn. symmetry. apply Z.ltb_lt. lia.
    - rewrite Nat.iter_succ, take_damage_lives, take_damage_alive, IHlives, IHalive.
      split; [lia |].
      destruct (n - Z.of_nat k - 1 <=? 0)%Z eqn:Hle.
      + apply Z.leb_le in Hle. symmetry. apply Z.ltb_ge. lia.
      + apply Z.leb_gt in Hle.
        transitivity true; [apply Z.ltb_lt | symmetry; apply Z.ltb_lt]; lia. }
  destruct Hinv as [Hlives Halive].
  split; [exact Hlives |].
  rewrite Halive. split; intros Hk.
  - apply Z.ltb_lt; assumption.
  - apply Z.ltb_ge; lia.
Qed.

(** The player of the game ([PLAYER_STARTING_LIVES = 3]) survives two
    hits and dies of the third, as the repository's test has it. *)
Lemma take_damage_n_times_witness :
  Player.is_alive (Nat.iter 2 Player.take_damage (Player.init None)) = true /\
  Player.lives (Nat.iter 3 Player.take_damage (Player.init None)) = 0%Z /\
  Player.is_alive (Nat.iter 3 Player.take_damage (Player.init None)) = false.
Proof.
  assert (H3 : (0 < Config.PLAYER_STARTING_LIVES)%Z) by reflexivity.
  destruct (take_damage_n_times Config.PLAYER_STARTING_LIVES None 2 H3) as (_ & Halive2 & _).
  destruct (take_damage_n_times Config.PLAYER_STARTING_LIVES None 3 H3) as (Hl3 & _ & Hdead3).
  split; [| split].
  - apply Halive2. reflexivity.
  - exact Hl3.
  - apply Hdead3. reflexivity.
Defined.

(** ** Yaw delta *)

Lemma while_above_180_step (d : R) :
  while_above_180 d = if d >? 180 then while_above_180 (d - 360) else d.
Proof.
  rewrite while_above_180_equation_1. unfold PyFloat.gtb.
  destruct (Rgt_dec d 180); reflexivity.
Qed.

Lemma while_below_minus_180_step (d : R) :
  while_below_minus_180 d = if d <? -180 then while_below_minus_180 (d + 360) else d.
Proof.
  rewrite while_below_minus_180_equation_1. unfold PyFloat.ltb.
  destruct (Rlt_dec d (-180)); reflexivity.
Qed.

Lemma while_above_180_spec (d : R) :
  while_above_180 d <= 180 /\
  (d <= 180 -> while_above_180 d = d) /\
  (d > 180 -> -180 < while_above_180 d) /\
  exists k : nat, while_above_180 d = d - 360 * INR k.
Proof.
  remember (turns d) as n eqn:Hn.
  assert (Hle : (turns d <= n)%nat) by lia. clear Hn.
  revert d Hle. induction n as [| n IH]; intros d Hle;
    rewrite while_above_180_step; case_cmp.
  - apply turns_decrease in Hcmp. lia.
  - split; [lra | split; [reflexivity | split; [lra |]]]. exists 0%nat. simpl. ring.
  - pose proof (turns_decrease d Hcmp) as Hdec.
    destruct (IH (d - 360)) as (Hup & Hid & Hlow & k & Hk); [lia |].
    split; [lra | split; [lra | split]].
    + intros _. destruct (Rle_dec (d - 360) 180) as [Hsmall | Hbig].
      * rewrite Hid by assumption. lra.
      * apply Hlow. lra.
    + exists (S k). rewrite Hk, S_INR. ring.
  - split; [lra | split; [reflexivity | split; [lra |]]]. exists 0%nat. simpl. ring.
Qed.

Lemma while_below_minus_180_spec (d : R) :
  -180 <= while_below_minus_180 d /\
  (-180 <= d -> while_below_minus_180 d = d) /\
  (d < -180 -> while_below_minus_180 d < 180) /\
  exists k : nat, while_below_minus_180 d = d + 360 * INR k.
Proof.
  remember (turns (- d)) as n eqn:Hn.
  assert (Hle : (turns (- d) <= n)%nat) by lia. clear Hn.
  revert d Hle. induction n as [| n IH]; intros d Hle;
    rewrite while_below_minus_180_step; case_cmp.
  - assert (Hgt : - d > 180) by lra. apply turns_decrease in Hgt. lia.
  - split; [lra | split; [reflexivity | split; [lra |]]]. exists 0%nat. simpl. ring.
  - assert (Hgt : - d > 180) by lra.
    pose proof (turns_decrease (- d) Hgt) as Hdec.
    replace (- d - 360) with (- (d + 360)) in Hdec by ring.
    destruct (IH (d + 360)) as (Hlo & Hid & Hhigh & k & Hk); [lia |].
    split; [lra | split; [lra | split]].
    + intros _. destruct (Rle_dec (-180) (d + 360)) as [Hsmall | Hbig].
      * rewrite Hid by assumption. lra.
      * apply Hhigh. lra.
    + exists (S k). rewrite Hk, S_INR. ring.
  - split; [lra | split; [reflexivity | split; [lra |]]]. exists 0%nat. simpl. ring.
Qed.

(** The wrapped delta lies in the closed interval [[-180, 180]] and
    differs from the raw delta by a whole number of turns; a raw delta
    already in the interval is kept. *)
Lemma normalize_yaw_delta_spec (d : R) :
  -180 <= normalize_yaw_delta d <= 180 /\
  (-180 <= d <= 180 -> normalize_yaw_delta d = d) /\
  exists k : Z, normalize_yaw_delta d = d + 360 * IZR k.
Proof.
  unfold normalize_yaw_delta.
  destruct (while_above_180_spec d) as (Hup & Hid & Hlow & k1 & Hk1).
  destruct (while_below_minus_180_spec (while_above_180 d)) as (Hlo2 & Hid2 & Hhigh2 & k2 & Hk2).
  split; [| split].
  - split; [assumption |].
    destruct (Rle_dec (-180) (while_above_180 d)) as [Hin | Hout].
    + rewrite Hid2 by assumption. assumption.
    + left. apply Hhigh2. lra.
  - intros [Hl Hu]. rewrite Hid2; [apply Hid; assumption |].
    rewrite (Hid Hu). assumption.
  - exists (Z.of_nat k2 - Z.of_nat k1)%Z.
    rewrite Hk2, Hk1, minus_IZR, <- !INR_IZR_INZ. ring.
Qed.

(** C9 (as amended). The raw yaw delta is wrapped into the closed
    interval [[-180, 180]] (a whole number of turns away from the raw
    delta) before [_update_ship_animation] uses it; from previous yaw
    179 to new yaw -179 the wrapped delta is +2. *)
Theorem yaw_delta_wrapped_closed (yaw previous_yaw : R) :
  let wrapped := normalize_yaw_delta (yaw - previous_yaw) in
  -180 <= wrapped <= 180 /\
  (exists k : Z, wrapped = yaw - previous_yaw + 360 * IZR k) /\
  normalize_yaw_delta (-179 - 179) = 2.
Proof.
  intros wrapped.
  destruct (normalize_yaw_delta_spec (yaw - previous_yaw)) as (Hrange & _ & Hturns).
  split; [exact Hrange | split; [exact Hturns |]].
  unfold normalize_yaw_delta.
  rewrite while_above_180_step, gtb_false by lra.
  rewrite while_below_minus_180_step, ltb_true by lra.
  rewrite while_below_minus_180_step, ltb_false by lra.
  ring.
Qed.

(** C9, the claim as stated fails: a raw delta of exactly -180 (new yaw
    -180 from previous yaw 0) is left at -180, outside [(-180, 180]]. *)
Lemma yaw_delta_minus_180_not_wrapped :
  normalize_yaw_delta (-180 - 0) = -180 /\
  ~ (forall yaw previous_yaw : R,
       -180 < normalize_yaw_delta (yaw - previous_yaw) <= 180).
Proof.
  assert (Hkept : normalize_yaw_delta (-180 - 0) = -180).
  { destruct (normalize_yaw_delta_spec (-180 - 0)) as (_ & Hid & _).
    rewrite Hid; lra. }
  split; [exact Hkept |].
  intros Hclaim. specialize (Hclaim (-180) 0). lra.
Qed.

(** ** Player fire *)










(** ** Loops *)

Ltac case_if :=
  match goal with
  | |- context [if ?b then _ else _] => destruct b
  end.

Lemma for_each_fst_id {A S : Type} (body : A -> S -> A * S) :
  (forall a s, fst (body a s) = a) ->
  forall l s, fst (for_each body l s) = l.
Proof.
  intros Hid l. induction l as [| a rest IH]; intros s; cbn [for_each]; [reflexivity |].
  specialize (Hid a s). destruct (body a s) as [a' s']. cbn [fst] in Hid. subst a'.
  specialize (IH s'). destruct (for_each body rest s') as [rest' s''].
  cbn [fst] in *. congruence.
Qed.

Lemma for_each_snd_inv {A S : Type} (P : S -> Prop) (body : A -> S -> A * S) :
  (forall a s, P s -> P (snd (body a s))) ->
  forall l s, P s -> P (snd (for_each body l s)).
Proof.
  intros Hinv l. induction l as [| a rest IH]; intros s Hs; cbn [for_each]; [assumption |].
  specialize (Hinv a s Hs). destruct (body a s) as [a' s']. cbn [snd] in Hinv.
  specialize (IH s' Hinv). destruct (for_each body rest s') as [rest' s''].
  assumption.
Qed.

Lemma for_each_length {A S : Type} (body : A -> S -> A * S) (l : list A) :
  forall s, List.length (fst (for_each body l s)) = List.length l.
Proof.
  induction l as [| a rest IH]; intros s; cbn [for_each]; [reflexivity |].
  destruct (body a s) as [a' s']. specialize (IH s').
  destruct (for_each body rest s') as [rest' s'']. cbn in *. congruence.
Qed.



Lemma for_each_break_fst_id {A S : Type} (body : A -> S -> A * S * bool) :
  (forall a s, fst (fst (body a s)) = a) ->
  forall l s, fst (for_each_break body l s) = l.
Proof.
  intros Hid l. induction l as [| a rest IH]; intros s; cbn [for_each_break]; [reflexivity |].
  specialize (Hid a s). destruct (body a s) as [[a' s'] broke]. cbn [fst] in Hid. subst a'.
  destruct broke; [reflexivity |].
  specialize (IH s'). destruct (for_each_break body rest s') as [rest' s''].
  cbn [fst] in *. congruence.
Qed.

Lemma for_each_break_snd_inv {A S : Type} (P : S -> Prop) (body : A -> S -> A * S * bool) :
  (forall a s, P s -> P (snd (fst (body a s)))) ->
  forall l s, P s -> P (snd (for_each_break body l s)).
Proof.
  intros Hinv l. induction l as [| a rest IH]; intros s Hs; cbn [for_each_break];
    [assumption |].
  specialize (Hinv a s Hs). destruct (body a s) as [[a' s'] broke]. cbn [fst snd] in Hinv.
  destruct broke; [assumption |].
  specialize (IH s' Hinv). destruct (for_each_break body rest s') as [rest' s''].
  assumption.
Qed.

Lemma for_each_break_quiet {A S : Type} (body : A -> S -> A * S * bool) (l : list A) (s : S) :
  Forall (fun a => body a s = (a, s, false)) l -> for_each_break body l s = (l, s).
Proof.
  induction 1 as [| a rest Ha _ IH]; cbn [for_each_break]; [reflexivity |].
  rewrite Ha, IH. reflexivity.
Qed.

(** ** Meteorites *)

Lemma meteorite_with_own_base (m : Meteorite.t) : Meteorite.with_base (Meteorite.base m) m = m.
Proof. destruct m; reflexivity. Qed.

Lemma meteorite_update_alive (dt : R) (m : Meteorite.t) :
  Meteorite.is_alive (Meteorite.update dt m) = Meteorite.is_alive m.
Proof.
  unfold Meteorite.update, Meteorite.is_alive. cbn.
  destruct (Meteorite.rotation_speed m) as [[s0 s1] s2]. unfold Entity.rotate. cbn.
  destruct (Entity.rotation (Meteorite.base m)) as [[rx ry] rz]. reflexivity.
Qed.

Lemma meteorites_ship_animation (dt : R) (env : Env) (g : Game.t) :
  Game.meteorites (Game._update_ship_animation dt env g) = Game.meteorites g.
Proof.
  unfold Game._update_ship_animation. cbn. repeat (case_if; cbn); reflexivity.
Qed.

Lemma meteorites_update_enemy (dt : R) (enemy : Enemy.t) (g : Game.t) :
  Game.meteorites (snd (Game.update_enemy dt enemy g)) = Game.meteorites g.
Proof.
  unfold Game.update_enemy.
  destruct (Enemy.can_shoot _ _) as [fire e']. destruct fire; reflexivity.
Qed.

Lemma meteorites_update_spawning (dt : R) (env : Env) (g : Game.t) :
  Game.meteorites (Game._update_spawning dt env g) = Game.meteorites g.
Proof.
  unfold Game._update_spawning. cbn. repeat (case_if; cbn); reflexivity.
Qed.

Lemma player_meteorite_keeps (meteorite : Meteorite.t) (g : Game.t) :
  fst (Game.player_meteorite meteorite g) = meteorite /\
  Game.enemies (snd (Game.player_meteorite meteorite g)) = Game.enemies g /\
  Game.life_spheres (snd (Game.player_meteorite meteorite g)) = Game.life_spheres g /\
  Game.projectiles (snd (Game.player_meteorite meteorite g)) = Game.projectiles g /\
  Game.meteorites (snd (Game.player_meteorite meteorite g)) = Game.meteorites g.
Proof.
  unfold Game.player_meteorite, CollisionSystem.resolve_collision.
  destruct (CollisionSystem.check_collision _ _); cbn;
    rewrite ?meteorite_with_own_base; repeat split; reflexivity.
Qed.

Lemma projectile_meteorite_keeps (meteorite : Meteorite.t) (s : Projectile.t * Game.t) :
  fst (fst (Game.projectile_meteorite meteorite s)) = meteorite /\
  snd (snd (fst (Game.projectile_meteorite meteorite s))) = snd s.
Proof.
  unfold Game.projectile_meteorite. destruct s as [p g].
  destruct (CollisionSystem.check_collision _ _); split; reflexivity.
Qed.

Lemma projectile_enemy_meteorites (enemy : Enemy.t) (s : Projectile.t * Game.t) :
  Game.meteorites (snd (snd (fst (Game.projectile_enemy enemy s)))) = Game.meteorites (snd s).
Proof.
  unfold Game.projectile_enemy. destruct s as [p g].
  destruct (CollisionSystem.check_collision _ _); cbn; [| reflexivity].
  case_if; reflexivity.
Qed.

Lemma projectile_life_sphere_meteorites (sphere : LifeSphere.t) (s : Projectile.t * Game.t) :
  Game.meteorites (snd (snd (fst (Game.projectile_life_sphere sphere s))))
  = Game.meteorites (snd s).
Proof.
  unfold Game.projectile_life_sphere. destruct s as [p g].
  destruct (CollisionSystem.check_collision _ _); reflexivity.
Qed.

Lemma meteorites_blocking_loop (ms : list Meteorite.t) (s : Projectile.t * Game.t) :
  fst (for_each_break Game.projectile_meteorite ms s) = ms /\
  snd (snd (for_each_break Game.projectile_meteorite ms s)) = snd s.
Proof.
  split.
  - apply for_each_break_fst_id. intros a s0. apply projectile_meteorite_keeps.
  - apply (for_each_break_snd_inv (fun s0 => snd s0 = snd s)); [| reflexivity].
    intros a s0 Hs0. rewrite <- Hs0. apply projectile_meteorite_keeps.
Qed.

Lemma meteorites_projectile_collisions (projectile : Projectile.t) (g : Game.t) :
  Game.meteorites (snd (Game.projectile_collisions projectile g)) = Game.meteorites g.
Proof.
  unfold Game.projectile_collisions.
  destruct (Projectile.is_player_projectile projectile).
  - pose proof (for_each_break_snd_inv
                  (fun s => Game.meteorites (snd s) = Game.meteorites g)
                  Game.projectile_enemy) as Hes.
    specialize (Hes (fun a s Hs => eq_trans (projectile_enemy_meteorites a s) Hs)
                    (Game.enemies g) (projectile, g) eq_refl).
    destruct (for_each_break Game.projectile_enemy _ _) as [es [p1 g1]]. cbn [snd] in Hes.
    pose proof (for_each_break_snd_inv
                  (fun s => Game.meteorites (snd s) = Game.meteorites g)
                  Game.projectile_life_sphere) as Hss.
    specialize (Hss (fun a s Hs => eq_trans (projectile_life_sphere_meteorites a s) Hs)
                    (Game.life_spheres (Game.with_enemies es g1))
                    (p1, Game.with_enemies es g1) Hes).
    destruct (for_each_break Game.projectile_life_sphere _ _) as [ss [p2 g2]].
    cbn [snd] in Hss.
    destruct (meteorites_blocking_loop
                (Game.meteorites (Game.with_life_spheres ss g2))
                (p2, Game.with_life_spheres ss g2)) as [Hms Hg].
    destruct (for_each_break Game.projectile_meteorite _ _) as [ms [p3 g3]].
    cbn [fst snd] in *. subst ms g3. cbn. assumption.
  - destruct (Projectile.is_enemy_projectile projectile); [| reflexivity].
    destruct (CollisionSystem.check_collision _ _).
    + destruct (meteorites_blocking_loop
                  (Game.meteorites (Game.with_player (Player.take_damage (Game.player g)) g))
                  (Projectile.destroy projectile,
                   Game.with_player (Player.take_damage (Game.player g)) g)) as [Hms Hg].
      destruct (for_each_break Game.projectile_meteorite _ _) as [ms [p3 g3]].
      cbn [fst snd] in *. subst ms g3. reflexivity.
    + destruct (meteorites_blocking_loop (Game.meteorites g) (projectile, g)) as [Hms Hg].
      destruct (for_each_break Game.projectile_meteorite _ _) as [ms [p3 g3]].
      cbn [fst snd] in *. subst ms g3. reflexivity.
Qed.

Lemma player_life_sphere_meteorites (sphere : LifeSphere.t) (g : Game.t) :
  Game.meteorites (snd (Game.player_life_sphere sphere g)) = Game.meteorites g.
Proof. unfold Game.player_life_sphere. case_if; reflexivity. Qed.

Lemma player_enemy_meteorites (enemy : Enemy.t) (g : Game.t) :
  Game.meteorites (snd (Game.player_enemy enemy g)) = Game.meteorites g.
Proof. unfold Game.player_enemy. case_if; reflexivity. Qed.

Lemma meteorites_handle_collisions (g : Game.t) :
  Game.meteorites (Game._handle_collisions g) = Game.meteorites g.
Proof.
  unfold Game._handle_collisions.
  pose proof (for_each_fst_id Game.player_meteorite
                (fun a s => proj1 (player_meteorite_keeps a s)) (Game.meteorites g) g) as Hms.
  destruct (for_each Game.player_meteorite _ _) as [ms g1]. cbn [fst] in Hms. subst ms.
  set (M := Game.meteorites g).
  pose proof (for_each_snd_inv (fun s => Game.meteorites s = M) Game.player_life_sphere
                (fun a s Hs => eq_trans (player_life_sphere_meteorites a s) Hs)
                (Game.life_spheres (Game.with_meteorites M g1))
                (Game.with_meteorites M g1) eq_refl) as H2.
  destruct (for_each Game.player_life_sphere _ _) as [ss g2]. cbn [snd] in H2.
  pose proof (for_each_snd_inv (fun s => Game.meteorites s = M) Game.player_enemy
                (fun a s Hs => eq_trans (player_enemy_meteorites a s) Hs)
                (Game.enemies (Game.with_life_spheres ss g2))
                (Game.with_life_spheres ss g2) H2) as H3.
  destruct (for_each Game.player_enemy _ _) as [es g3]. cbn [snd] in H3.
  pose proof (for_each_snd_inv (fun s => Game.meteorites s = M) Game.projectile_collisions
                (fun a s Hs => eq_trans (meteorites_projectile_collisions a s) Hs)
                (Game.projectiles (Game.with_enemies es g3))
                (Game.with_enemies es g3) H3) as H4.
  destruct (for_each Game.projectile_collisions _ _) as [ps g4]. cbn [snd] in H4.
  case_if; cbn; assumption.
Qed.

Lemma meteorites_cleanup_entities (g : Game.t) :
  Game.meteorites (Game._cleanup_entities g) = Game.meteorites g.
Proof. reflexivity. Qed.

Lemma meteorites_with_player (p : Player.t) (g : Game.t) :
  Game.meteorites (Game.with_player p g) = Game.meteorites g.
Proof. reflexivity. Qed.

Lemma meteorites_enemy_loop (dt : R) (es : list Enemy.t) (g : Game.t) :
  Game.meteorites (snd (for_each (Game.update_enemy dt) es g)) = Game.meteorites g.
Proof.
  apply (for_each_snd_inv (fun s => Game.meteorites s = Game.meteorites g));
    [| reflexivity].
  intros a s Hs. rewrite meteorites_update_enemy. exact Hs.
Qed.

Lemma meteorites_update (dt : R) (env : Env) (g : Game.t) :
  Game.meteorites (Game.update dt env g)
  = if Game.paused g || Game.game_over g then Game.meteorites g
    else map (Meteorite.update dt) (Game.meteorites g).
Proof.
  unfold Game.update. destruct (Game.paused g || Game.game_over g); [reflexivity |].
  cbv zeta.
  match goal with
  | |- context [for_each (Game.update_enemy dt) ?es ?g1] =>
      pose proof (meteorites_enemy_loop dt es g1) as Hloop;
      destruct (for_each (Game.update_enemy dt) es g1) as [es' g2]
  end.
  cbn [snd] in Hloop.
  rewrite meteorites_with_player, meteorites_ship_animation in Hloop.
  rewrite meteorites_cleanup_entities, meteorites_handle_collisions,
    meteorites_update_spawning.
  cbn [Game.with_projectiles Game.with_life_spheres Game.with_meteorites
       Game.with_enemies Game.meteorites].
  rewrite Hloop. reflexivity.
Qed.

Lemma meteorites_shoot_player_laser (g : Game.t) :
  Game.meteorites (Game._shoot_player_laser g) = Game.meteorites g /\
  Game.game_over (Game._shoot_player_laser g) = Game.game_over g.
Proof.
  unfold Game._shoot_player_laser.
  destruct (Player.shoot (Game.player g)) as [fired p]. destruct fired; split; reflexivity.
Qed.

Lemma meteorites_restart_game (seeds : nat -> MeteoriteSeed) (g : Game.t) :
  Game.meteorites (Game._restart_game seeds g) = seeded_meteorites seeds.
Proof. reflexivity. Qed.

Lemma meteorites_init (seeds : nat -> MeteoriteSeed) :
  Game.meteorites (Game.init seeds) = seeded_meteorites seeds.
Proof. reflexivity. Qed.

(** An event that is not the restart key of the game-over screen leaves
    the meteorites and the game-over flag as they are. *)
Lemma meteorites_handle_event (seeds : nat -> MeteoriteSeed) (event : Event) (g : Game.t) :
  Game.game_over g = false \/ event <> KEYDOWN K_r ->
  Game.meteorites (Game.handle_event seeds event g) = Game.meteorites g /\
  Game.game_over (Game.handle_event seeds event g) = Game.game_over g.
Proof.
  intros Hno. unfold Game.handle_event.
  destruct event as [| key | key | dx dy | w h |]; try (split; reflexivity).
  - cbn [Game.with_keys_pressed Game.meteorites Game.game_over].
    pose proof (meteorites_shoot_player_laser g) as Hlaser.
    destruct (Z.eqb key K_ESCAPE) eqn:Hesc.
    { destruct (Game.game_over g) eqn:Hover; cbn; rewrite Hover; split; reflexivity. }
    destruct (Z.eqb key K_r) eqn:Hr; cbn [andb].
    { destruct (Game.game_over g) eqn:Hover.
      - destruct Hno as [Hno | Hno]; [discriminate |].
        apply Z.eqb_eq in Hr. subst key. contradiction.
      - destruct (_ && _); [exact Hlaser | split; [reflexivity | assumption]]. }
    destruct (_ && _); [exact Hlaser | split; reflexivity].
  - destruct (Game.key_in key (Game.keys_pressed g)); split; reflexivity.
  - destruct (_ && _); split; reflexivity.
Qed.

Lemma meteorites_handle_events (seeds : nat -> MeteoriteSeed) (events : list Event) :
  forall g : Game.t,
    Game.game_over g = false \/ ~ In (KEYDOWN K_r) events ->
    Game.meteorites (Game.handle_events seeds events g) = Game.meteorites g /\
    Game.game_over (Game.handle_events seeds events g) = Game.game_over g.
Proof.
  unfold Game.handle_events.
  induction events as [| event events IH]; intros g Hno; cbn [fold_left];
    [split; reflexivity |].
  destruct (meteorites_handle_event seeds event g) as [Hm Ho].
  { destruct Hno as [Hno | Hno]; [left; assumption |].
    right. intros ->. apply Hno. left. reflexivity. }
  destruct (IH (Game.handle_event seeds event g)) as [Hm' Ho'].
  { destruct Hno as [Hno | Hno]; [left; congruence |].
    right. intros Hin. apply Hno. right. assumption. }
  split; congruence.
Qed.

Lemma meteorites_handle_movement (dt : R) (g : Game.t) :
  Game.meteorites (Game.handle_movement dt g) = Game.meteorites g.
Proof.
  unfold Game.handle_movement. destruct (_ || _); [reflexivity |].
  cbn. repeat (case_if; cbn); reflexivity.
Qed.

(** C10. The meteorite list is fixed after seeding.  A call of
    [update] maps the list, element by element, to the same meteorites
    one [Meteorite.update] later (or leaves it alone when paused or
    over): same length, same [alive] flags.  Collision handling,
    clean-up and spawning do not touch the list.  A whole frame keeps
    the list, updated or not, unless it restarts the game from the
    game-over screen, which seeds [METEORITE_COUNT] meteorites anew. *)
Theorem meteorites_fixed_after_seeding
  (dt : R) (events : list Event) (seeds : nat -> MeteoriteSeed) (env : Env) (g : Game.t) :
  (Game.meteorites (Game.update dt env g)
   = if Game.paused g || Game.game_over g then Game.meteorites g
     else map (Meteorite.update dt) (Game.meteorites g)) /\
  List.length (Game.meteorites (Game.update dt env g)) = List.length (Game.meteorites g) /\
  map Meteorite.is_alive (Game.meteorites (Game.update dt env g))
  = map Meteorite.is_alive (Game.meteorites g) /\
  Game.meteorites (Game._handle_collisions g) = Game.meteorites g /\
  Game.meteorites (Game._cleanup_entities g) = Game.meteorites g /\
  Game.meteorites (Game._update_spawning dt env g) = Game.meteorites g /\
  (Game.game_over g = false \/ ~ In (KEYDOWN K_r) events ->
   Game.meteorites (Game.frame dt events seeds env g) = Game.meteorites g \/
   Game.meteorites (Game.frame dt events seeds env g)
   = map (Meteorite.update dt) (Game.meteorites g)) /\
  List.length (Game.meteorites (Game._restart_game seeds g)) = Config.METEORITE_COUNT.
Proof.
  pose proof (meteorites_update dt env g) as Hupd.
  split; [exact Hupd |].
  split; [| split].
  - rewrite Hupd. case_if; [reflexivity | apply length_map].
  - rewrite Hupd. case_if; [reflexivity |].
    rewrite map_map. apply map_ext. intros m. apply meteorite_update_alive.
  - split; [apply meteorites_handle_collisions |].
    split; [apply meteorites_cleanup_entities |].
    split; [apply meteorites_update_spawning |].
    split.
    + intros Hno. unfold Game.frame.
      destruct (meteorites_handle_events seeds events g Hno) as [Hev _].
      rewrite meteorites_update, meteorites_handle_movement, Hev.
      case_if; [left | right]; reflexivity.
    + rewrite meteorites_restart_game. unfold seeded_meteorites.
      rewrite length_map, length_seq. reflexivity.
Qed.

Lemma meteorites_fixed_after_seeding_witness :
  let g := Game.init (fun _ => still_seed) in
  let g' := Game.frame (1 / 60) [KEYDOWN K_SPACE] (fun _ => still_seed) quiet_env g in
  List.length (Game.meteorites g') = 10%nat.
Proof.
  intros g g'.
  destruct (meteorites_fixed_after_seeding
              (1 / 60) [KEYDOWN K_SPACE] (fun _ => still_seed) quiet_env g)
    as (_ & _ & _ & _ & _ & _ & Hframe & _).
  destruct Hframe as [Hsame | Hupdated]; [left; reflexivity | |]; subst g'.
  - rewrite Hsame. reflexivity.
  - rewrite Hupdated, length_map. reflexivity.
Defined.

(** ** Projectiles against the entity lists *)

Lemma update_first_changes_one {A : Type} (hit : A -> bool) (f : A -> A) (l : list A) :
  changed_at_most_one l (update_first hit f l).
Proof.
  induction l as [| a rest [IHlen [i IH]]]; cbn [update_first].
  - split; [reflexivity | exists 0%nat; reflexivity].
  - destruct (hit a).
    + split; [reflexivity |]. exists 0%nat. intros [| j] Hj; [contradiction | reflexivity].
    + split; [cbn; congruence |]. exists (S i). intros [| j] Hj; [reflexivity |].
      cbn. apply IH. congruence.
Qed.


Lemma hits_destroy (projectile : Projectile.t) (e : Entity.t) :
  hits (Projectile.destroy projectile) e = hits projectile e.
Proof. reflexivity. Qed.

Lemma enemies_loop (projectile : Projectile.t) (g : Game.t) (es : list Enemy.t) :
  for_each_break Game.projectile_enemy es (projectile, g)
  = (update_first (fun e => hits projectile (Enemy.base e)) (Enemy.take_damage 1) es,
     match find (fun e => hits projectile (Enemy.base e)) es with
     | Some e =>
         (Projectile.destroy projectile,
          if negb (Enemy.is_alive (Enemy.take_damage 1 e))
          then Game.with_score (Game.score g + Enemy.get_points (Enemy.take_damage 1 e))%Z g
          else g)
     | None => (projectile, g)
     end).
Proof.
  induction es as [| e rest IH]; cbn [for_each_break update_first find]; [reflexivity |].
  unfold Game.projectile_enemy at 1. fold (hits projectile (Enemy.base e)).
  destruct (hits projectile (Enemy.base e)); [reflexivity |].
  rewrite IH. reflexivity.
Qed.

Lemma life_spheres_loop (projectile : Projectile.t) (g : Game.t) (ss : list LifeSphere.t) :
  for_each_break Game.projectile_life_sphere ss (projectile, g)
  = (update_first (fun s => hits projectile (LifeSphere.base s)) LifeSphere.collect ss,
     if existsb (fun s => hits projectile (LifeSphere.base s)) ss
     then (Projectile.destroy projectile, Game.with_player (Player.add_life (Game.player g)) g)
     else (projectile, g)).
Proof.
  induction ss as [| s rest IH]; cbn [for_each_break update_first existsb]; [reflexivity |].
  unfold Game.projectile_life_sphere at 1. fold (hits projectile (LifeSphere.base s)).
  destruct (hits projectile (LifeSphere.base s)); [reflexivity |].
  rewrite IH. reflexivity.
Qed.

Lemma meteorites_loop (projectile : Projectile.t) (g : Game.t) (ms : list Meteorite.t) :
  for_each_break Game.projectile_meteorite ms (projectile, g)
  = (ms,
     if existsb (fun m => hits projectile (Meteorite.base m)) ms
     then (Projectile.destroy projectile, g)
     else (projectile, g)).
Proof.
  induction ms as [| m rest IH]; cbn [for_each_break existsb]; [reflexivity |].
  unfold Game.projectile_meteorite at 1. fold (hits projectile (Meteorite.base m)).
  destruct (hits projectile (Meteorite.base m)); [reflexivity |].
  rewrite IH. reflexivity.
Qed.

Lemma find_some_existsb {A : Type} (hit : A -> bool) (l : list A) :
  existsb hit l = match find hit l with Some _ => true | None => false end.
Proof.
  induction l as [| a rest IH]; cbn [existsb find]; [reflexivity |].
  destruct (hit a); [reflexivity | exact IH].
Qed.

(** What the collision phase does with one player projectile: each of
    the three loops runs, whatever the loops before it did. *)
Lemma player_projectile_collisions (projectile : Projectile.t) (g : Game.t) :
  Projectile.is_player_projectile projectile = true ->
  let hit_enemy := fun e => hits projectile (Enemy.base e) in
  let hit_sphere := fun s => hits projectile (LifeSphere.base s) in
  let hit_meteorite := fun m => hits projectile (Meteorite.base m) in
  let projectile' := fst (Game.projectile_collisions projectile g) in
  let g' := snd (Game.projectile_collisions projectile g) in
  Game.enemies g' = update_first hit_enemy (Enemy.take_damage 1) (Game.enemies g) /\
  Game.life_spheres g' = update_first hit_sphere LifeSphere.collect (Game.life_spheres g) /\
  Game.meteorites g' = Game.meteorites g /\
  Game.player g'
  = (if existsb hit_sphere (Game.life_spheres g)
     then Player.add_life (Game.player g) else Game.player g) /\
  Game.score g'
  = match find hit_enemy (Game.enemies g) with
    | Some e => if negb (Enemy.is_alive (Enemy.take_damage 1 e))
                then (Game.score g + Enemy.get_points (Enemy.take_damage 1 e))%Z
                else Game.score g
    | None => Game.score g
    end /\
  Projectile.is_alive projectile'
  = (if existsb hit_enemy (Game.enemies g)
        || existsb hit_sphere (Game.life_spheres g)
        || existsb hit_meteorite (Game.meteorites g)
     then false else Projectile.is_alive projectile).
Proof.
  intros Howner. cbv zeta. unfold Game.projectile_collisions. rewrite Howner.
  rewrite enemies_loop, (find_some_existsb (fun e => hits projectile (Enemy.base e))).
  destruct (find (fun e => hits projectile (Enemy.base e)) (Game.enemies g)) as [e |];
    cbn [Game.with_enemies Game.life_spheres];
    rewrite life_spheres_loop.
  - assert (Hls : forall g0 : Game.t,
               Game.life_spheres (if negb (Enemy.is_alive (Enemy.take_damage 1 e))
                                  then Game.with_score
                                         (Game.score g + Enemy.get_points (Enemy.take_damage 1 e))%Z g
                                  else g) = Game.life_spheres g).
    { intros _. case_if; reflexivity. }
    rewrite (Hls g).
    assert (Hsame : (fun s => hits (Projectile.destroy projectile) (LifeSphere.base s))
                    = (fun s => hits projectile (LifeSphere.base s))) by reflexivity.
    rewrite Hsame.
    destruct (existsb (fun s => hits projectile (LifeSphere.base s)) (Game.life_spheres g));
      cbn [Game.with_life_spheres Game.meteorites Game.with_player];
      rewrite meteorites_loop; cbn;
      repeat (case_if; cbn); repeat split; reflexivity.
  - destruct (existsb (fun s => hits projectile (LifeSphere.base s)) (Game.life_spheres g));
      cbn [Game.with_life_spheres Game.meteorites Game.with_player];
      rewrite meteorites_loop.
    + cbn. case_if; cbn; repeat split; reflexivity.
    + cbn. case_if; cbn; repeat split; reflexivity.
Qed.

(** C2 (as amended). In the collision phase of a frame a player
    projectile changes at most one enemy, the first in list order that
    its sphere overlaps, at most one life sphere, again the first it
    overlaps, and no meteorite; the three loops all run, each against
    the projectile as it entered the phase, so one projectile can hit
    an enemy, collect a life sphere and be blocked by a meteorite in
    the same frame. *)
Theorem player_projectile_one_hit_per_kind (projectile : Projectile.t) (g : Game.t) :
  Projectile.is_player_projectile projectile = true ->
  let g' := snd (Game.projectile_collisions projectile g) in
  changed_at_most_one (Game.enemies g) (Game.enemies g') /\
  changed_at_most_one (Game.life_spheres g) (Game.life_spheres g') /\
  Game.meteorites g' = Game.meteorites g /\
  Game.enemies g'
  = update_first (fun e => hits projectile (Enemy.base e)) (Enemy.take_damage 1)
      (Game.enemies g) /\
  Game.life_spheres g'
  = update_first (fun s => hits projectile (LifeSphere.base s)) LifeSphere.collect
      (Game.life_spheres g).
Proof.
  intros Howner g'.
  destruct (player_projectile_collisions projectile g Howner) as (Hes & Hss & Hms & _).
  fold g' in Hes, Hss, Hms.
  split; [rewrite Hes; apply update_first_changes_one |].
  split; [rewrite Hss; apply update_first_changes_one |].
  split; [exact Hms | split; assumption].
Qed.

Lemma projectile_init_base (position direction : Vec) (owner_type : string) :
  let projectile := Projectile.init position direction owner_type in
  Entity.position (Projectile.base projectile) = position /\
  Entity.radius (Projectile.base projectile) = 3 / 10 /\
  Entity.alive (Projectile.base projectile) = true /\
  Projectile.owner_type projectile = owner_type /\
  Projectile.age projectile = 0 /\
  Projectile.lifetime projectile = Config.LASER_LIFETIME.
Proof.
  unfold Projectile.init, Projectile._set_rotation_from_direction. cbn.
  case_if; cbn; repeat split; reflexivity.
Qed.

Lemma hits_iff (projectile : Projectile.t) (e : Entity.t) :
  hits projectile e = true <->
  Vector3.distance_to (Entity.position (Projectile.base projectile)) (Entity.position e)
  < Entity.radius (Projectile.base projectile) + Entity.radius e.
Proof. apply check_collision_true_iff. Qed.

Lemma crossfire_hits_enemy : hits crossfire_projectile (Enemy.base crossfire_enemy) = true.
Proof.
  apply hits_iff.
  destruct (projectile_init_base (Vector3.mk 0 0 (-10)) (Vector3.mk 0 0 (-1)) "player")
    as (Hpos & Hrad & _).
  unfold crossfire_projectile. rewrite Hpos, Hrad.
  unfold Vector3.distance_to, Vector3.length, Vector3.sub. cbn.
  apply sqrt_lt_bound; lra.
Qed.

Lemma crossfire_hits_sphere :
  hits crossfire_projectile (LifeSphere.base crossfire_sphere) = true.
Proof.
  apply hits_iff.
  destruct (projectile_init_base (Vector3.mk 0 0 (-10)) (Vector3.mk 0 0 (-1)) "player")
    as (Hpos & Hrad & _).
  unfold crossfire_projectile. rewrite Hpos, Hrad.
  unfold Vector3.distance_to, Vector3.length, Vector3.sub. cbn.
  unfold Config.LIFE_SPHERE_SIZE. apply sqrt_lt_bound; lra.
Qed.

(** C2, the claim as stated fails: in one pass of the collision phase
    the projectile above kills the enemy (the score goes up by its
    point) and also collects the life sphere (the player gains a
    life). *)
Lemma player_projectile_hits_enemy_and_sphere :
  let g' := snd (Game.projectile_collisions crossfire_projectile crossfire_game) in
  Projectile.is_player_projectile crossfire_projectile = true /\
  map Enemy.is_alive (Game.enemies crossfire_game) = [true] /\
  map Enemy.is_alive (Game.enemies g') = [false] /\
  Game.score g' = (Game.score crossfire_game + 1)%Z /\
  map LifeSphere.is_collected (Game.life_spheres crossfire_game) = [false] /\
  map LifeSphere.is_collected (Game.life_spheres g') = [true] /\
  Player.lives (Game.player g') = (Player.lives (Game.player crossfire_game) + 1)%Z /\
  ~ (forall (projectile : Projectile.t) (g : Game.t),
       Projectile.is_player_projectile projectile = true ->
       Game.enemies (snd (Game.projectile_collisions projectile g)) <> Game.enemies g ->
       Game.life_spheres (snd (Game.projectile_collisions projectile g))
       = Game.life_spheres g).
Proof.
  intros g'.
  assert (Howner : Projectile.is_player_projectile crossfire_projectile = true).
  { unfold crossfire_projectile, Projectile.is_player_projectile.
    destruct (projectile_init_base (Vector3.mk 0 0 (-10)) (Vector3.mk 0 0 (-1)) "player")
      as (_ & _ & _ & Hown & _).
    rewrite Hown. reflexivity. }
  destruct (player_projectile_collisions crossfire_projectile crossfire_game Howner)
    as (Hes & Hss & _ & Hplayer & Hscore & _).
  fold g' in Hes, Hss, Hplayer, Hscore.
  cbn [crossfire_game Game.with_life_spheres Game.with_enemies Game.enemies Game.life_spheres
       update_first existsb find orb] in Hes, Hss, Hplayer, Hscore.
  rewrite crossfire_hits_enemy in Hes, Hscore.
  rewrite crossfire_hits_sphere in Hss, Hplayer. cbn [orb] in Hplayer.
  split; [exact Howner |].
  split; [reflexivity |].
  split; [rewrite Hes; reflexivity |].
  split; [rewrite Hscore; reflexivity |].
  split; [reflexivity |].
  split; [rewrite Hss; reflexivity |].
  split; [rewrite Hplayer; reflexivity |].
  intros Hclaim.
  specialize (Hclaim crossfire_projectile crossfire_game Howner).
  fold g' in Hclaim. rewrite Hes, Hss in Hclaim.
  assert (Hne : [Enemy.take_damage 1 crossfire_enemy] <> Game.enemies crossfire_game).
  { intros H. apply (f_equal (map Enemy.is_alive)) in H. discriminate H. }
  specialize (Hclaim Hne).
  apply (f_equal (map LifeSphere.is_collected)) in Hclaim. discriminate Hclaim.
Qed.

Lemma player_projectile_one_hit_per_kind_witness :
  changed_at_most_one
    (Game.enemies crossfire_game)
    (Game.enemies (snd (Game.projectile_collisions crossfire_projectile crossfire_game))) /\
  Game.meteorites (snd (Game.projectile_collisions crossfire_projectile crossfire_game))
  = Game.meteorites crossfire_game.
Proof.
  assert (Howner : Projectile.is_player_projectile crossfire_projectile = true).
  { unfold crossfire_projectile, Projectile.is_player_projectile.
    destruct (projectile_init_base (Vector3.mk 0 0 (-10)) (Vector3.mk 0 0 (-1)) "player")
      as (_ & _ & _ & Hown & _).
    rewrite Hown. reflexivity. }
  destruct (player_projectile_one_hit_per_kind crossfire_projectile crossfire_game Howner)
    as (Hes & _ & Hms & _).
  split; assumption.
Defined.

(** ** A frame in which nothing collides *)







(** The fields [_update_ship_animation] writes are the five of the
    animation; it keeps all the others. *)
Lemma ship_animation_frame (dt : R) (env : Env) (g : Game.t) :
  let a := Game._update_ship_animation dt env g in
  a = Game.mk (Game.camera g) (Game.previous_camera_yaw a) (Game.previous_camera_pitch a)
        (Game.ship_roll a) (Game.ship_pitch_offset a) (Game.ship_yaw_offset g)
        (Game.running g) (Game.paused g) (Game.game_over g) (Game.score g)
        (Game.player g) (Game.enemies g) (Game.meteorites g) (Game.life_spheres g)
        (Game.projectiles g) (Game.enemy_spawn_timer g) (Game.life_sphere_spawn_timer g)
        (Game.keys_pressed g) (Game.cockpit_sway a).
Proof.
  unfold Game._update_ship_animation. cbn. repeat (case_if; cbn); reflexivity.
Qed.




(** ** Updates with a zero delta time *)

Lemma vec_add_mul_zero (p v : Vec) : Vector3.add p (Vector3.mul v 0) = p.
Proof. apply vec_eq; cbn; ring. Qed.

Lemma entity_update_zero (e : Entity.t) : Entity.update 0 e = e.
Proof.
  unfold Entity.update. rewrite vec_add_mul_zero. destruct e; reflexivity.
Qed.

Lemma entity_rotate_zero (e : Entity.t) (a b c : R) :
  a = 0 -> b = 0 -> c = 0 -> Entity.rotate a b c e = e.
Proof.
  intros -> -> ->. unfold Entity.rotate.
  destruct e as [p v [[rx ry] rz] s al r]. cbn.
  rewrite !Rplus_0_r. reflexivity.
Qed.






(** With a zero delta time the enemy's update only steers: it sets the
    velocity and nothing else. *)
Lemma enemy_update_zero (target : option Vec) (e : Enemy.t) :
  same_but_velocity e (Enemy.update 0 target e).
Proof.
  unfold same_but_velocity, Enemy.update. rewrite entity_update_zero.
  destruct e as [b h pt t]. cbn.
  assert (Hrot : forall b0 : Entity.t, Entity.rotate 0 (0 * (5 / 10)) 0 b0 = b0).
  { intros b0. apply entity_rotate_zero; ring. }
  destruct target as [pos |]; cbn.
  - unfold Enemy._move_toward_target. cbn. case_cmp; cbn; rewrite Hrot, Rminus_0_r;
      destruct b; reflexivity.
  - rewrite Hrot, Rminus_0_r. destruct b; reflexivity.
Qed.

Lemma same_but_velocity_fields (e e' : Enemy.t) :
  same_but_velocity e e' ->
  Entity.position (Enemy.base e') = Entity.position (Enemy.base e) /\
  Entity.radius (Enemy.base e') = Entity.radius (Enemy.base e) /\
  Enemy.is_alive e' = Enemy.is_alive e /\
  Enemy.shoot_timer e' = Enemy.shoot_timer e /\
  Enemy.health e' = Enemy.health e.
Proof. intros ->. repeat split; reflexivity. Qed.






(** ** Frames with a zero delta time *)











(** ** A frame of the game that spawns a life sphere *)

Lemma still_seed_ok : seed_ok still_seed.
Proof.
  unfold seed_ok, still_seed, Config.WORLD_SIZE, Config.METEORITE_MIN_SIZE,
    Config.METEORITE_MAX_SIZE. cbn. lra.
Qed.

Lemma quiet_env_ok : env_ok quiet_env.
Proof.
  unfold env_ok, quiet_env, Config.ENEMY_SHOOT_INTERVAL, Config.LIFE_SPHERE_SPAWN_DISTANCE.
  cbn. split; [intros _; lia | lra].
Qed.


Lemma sphere_game_reachable : reachable sphere_game.
Proof.
  unfold sphere_game, seeded_game.
  apply reachable_frame;
    [apply reachable_init | lra | | apply quiet_env_ok]; intros _; apply still_seed_ok.
Qed.


















(** Nor does the fire of the enemies: an enemy whose timer has run out,
    with the player in range, fires in a frame with [dt = 0]; its timer
    is reset and a projectile is added. *)
Lemma update_enemy_zero_fires (enemy : Enemy.t) (g : Game.t) :
  let player_position := Entity.position (Player.base (Game.player g)) in
  Enemy.shoot_timer enemy <= 0 ->
  Vector3.distance_to (Entity.position (Enemy.base enemy)) player_position
  < Config.ENEMY_SHOOT_RANGE ->
  Enemy.shoot_timer (fst (Game.update_enemy 0 enemy g)) = Config.ENEMY_SHOOT_INTERVAL /\
  List.length (Game.projectiles (snd (Game.update_enemy 0 enemy g)))
  = S (List.length (Game.projectiles g)).
Proof.
  intros target Hexpired Hrange. unfold Game.update_enemy. fold target.
  destruct (same_but_velocity_fields _ _ (enemy_update_zero (Some target) enemy))
    as (Hpos & _ & _ & Htimer & _).
  rewrite can_shoot_ready by (rewrite ?Htimer, ?Hpos; assumption).
  cbn [fst snd].
  split; [reflexivity |].
  cbn [Game.with_projectiles Game.projectiles]. rewrite length_app. cbn. lia.
Qed.

(** Nor does the collision phase, which takes no [dt]: a player that
    overlaps a meteorite pays the penalty in every frame. *)
Lemma player_meteorite_penalty (meteorite : Meteorite.t) (g : Game.t) :
  CollisionSystem.check_collision (Player.base (Game.player g)) (Meteorite.base meteorite)
  = true ->
  Game.score (snd (Game.player_meteorite meteorite g)) = (Game.score g - 1)%Z.
Proof.
  intros Hhit. unfold Game.player_meteorite. rewrite Hhit.
  unfold CollisionSystem.resolve_collision. cbn. unfold Config.METEORITE_COLLISION_PENALTY.
  lia.
Qed.




(** * Part IV: further properties of the code *)

(** ** Vectors: lengths, products and distances *)

Lemma length_sq (v : Vec) :
  Vector3.length v * Vector3.length v
  = Vector3.x v ^ 2 + Vector3.y v ^ 2 + Vector3.z v ^ 2.
Proof. unfold Vector3.length. apply sqrt_sqrt, sum_squares_nonneg. Qed.

Lemma length_le_bound (v : Vec) (r : R) :
  0 <= r -> Vector3.x v ^ 2 + Vector3.y v ^ 2 + Vector3.z v ^ 2 <= r * r ->
  Vector3.length v <= r.
Proof.
  intros Hr Hle. unfold Vector3.length.
  rewrite <- (sqrt_square r) by assumption.
  apply sqrt_le_1; [apply sum_squares_nonneg | nra | assumption].
Qed.

Lemma length_mul (v : Vec) (s : R) :
  Vector3.length (Vector3.mul v s) = Rabs s * Vector3.length v.
Proof.
  unfold Vector3.length, Vector3.mul; cbn [Vector3.x Vector3.y Vector3.z].
  replace ((Vector3.x v * s) ^ 2 + (Vector3.y v * s) ^ 2 + (Vector3.z v * s) ^ 2)
    with (Rsqr s * (Vector3.x v ^ 2 + Vector3.y v ^ 2 + Vector3.z v ^ 2))
    by (unfold Rsqr; ring).
  rewrite sqrt_mult by (try apply Rle_0_sqr; apply sum_squares_nonneg).
  rewrite sqrt_Rsqr_abs. reflexivity.
Qed.

Lemma length_truediv (v : Vec) (s : R) :
  s <> 0 -> Vector3.length (Vector3.truediv v s) = Vector3.length v / Rabs s.
Proof.
  intros Hs.
  replace (Vector3.truediv v s) with (Vector3.mul v (/ s))
    by (unfold Vector3.truediv, Vector3.mul; reflexivity).
  rewrite length_mul, Rabs_inv. unfold Rdiv. ring.
Qed.

Lemma cauchy_schwarz (u v : Vec) :
  Vector3.dot u v <= Vector3.length u * Vector3.length v.
Proof.
  pose proof (length_nonneg u) as Hu. pose proof (length_nonneg v) as Hv.
  pose proof (length_sq u) as Hu2. pose proof (length_sq v) as Hv2.
  destruct u as [a b c], v as [d e f].
  unfold Vector3.dot; cbn [Vector3.x Vector3.y Vector3.z] in *.
  set (lu := Vector3.length (Vector3.mk a b c)) in *.
  set (lv := Vector3.length (Vector3.mk d e f)) in *.
  destruct (Rle_dec (a * d + b * e + c * f) 0) as [Hneg | Hpos].
  - assert (0 <= lu * lv) by (apply Rmult_le_pos; assumption). lra.
  - apply Rnot_le_lt in Hpos.
    apply Rsqr_incr_0_var; [| apply Rmult_le_pos; assumption].
    unfold Rsqr.
    replace (lu * lv * (lu * lv)) with ((lu * lu) * (lv * lv)) by ring.
    rewrite Hu2, Hv2.
    pose proof (Rle_0_sqr (a * e - b * d)) as H1.
    pose proof (Rle_0_sqr (a * f - c * d)) as H2.
    pose proof (Rle_0_sqr (b * f - c * e)) as H3.
    unfold Rsqr in H1, H2, H3. nra.
Qed.

Lemma length_add_le (u v : Vec) :
  Vector3.length (Vector3.add u v) <= Vector3.length u + Vector3.length v.
Proof.
  pose proof (length_nonneg u) as Hu. pose proof (length_nonneg v) as Hv.
  apply length_le_bound; [lra |].
  pose proof (cauchy_schwarz u v) as Hcs.
  pose proof (length_sq u) as Hu2. pose proof (length_sq v) as Hv2.
  unfold Vector3.dot, Vector3.add in *; cbn [Vector3.x Vector3.y Vector3.z] in *.
  nra.
Qed.

Lemma distance_to_sym (a b : Vec) : Vector3.distance_to a b = Vector3.distance_to b a.
Proof.
  unfold Vector3.distance_to, Vector3.length, Vector3.sub; cbn [Vector3.x Vector3.y Vector3.z].
  f_equal; ring.
Qed.

Lemma distance_to_zero_iff (a b : Vec) : Vector3.distance_to a b = 0 <-> a = b.
Proof. unfold Vector3.distance_to. rewrite length_zero_iff. apply sub_zero_iff. Qed.

Lemma distance_to_triangle (a b c : Vec) :
  Vector3.distance_to a c <= Vector3.distance_to a b + Vector3.distance_to b c.
Proof.
  unfold Vector3.distance_to.
  replace (Vector3.sub a c) with (Vector3.add (Vector3.sub a b) (Vector3.sub b c))
    by (unfold Vector3.add, Vector3.sub; cbn [Vector3.x Vector3.y Vector3.z]; f_equal; ring).
  apply length_add_le.
Qed.

Lemma normalize_nonzero (v : Vec) :
  v <> Vector3.mk 0 0 0 -> Vector3.normalize v = Vector3.truediv v (Vector3.length v).
Proof.
  intros Hnz. apply length_pos_iff in Hnz.
  unfold Vector3.normalize. rewrite gtb_true by assumption. reflexivity.
Qed.

Lemma normalize_zero : Vector3.normalize (Vector3.mk 0 0 0) = Vector3.mk 0 0 0.
Proof.
  unfold Vector3.normalize. rewrite gtb_false; [reflexivity |].
  assert (H : Vector3.length (Vector3.mk 0 0 0) = 0) by (apply length_zero_iff; reflexivity).
  lra.
Qed.

Lemma length_normalize (v : Vec) :
  v <> Vector3.mk 0 0 0 -> Vector3.length (Vector3.normalize v) = 1.
Proof.
  intros Hnz. rewrite normalize_nonzero by assumption.
  apply length_truediv_self, length_pos_iff; assumption.
Qed.


Lemma vec_eq_dec (a b : Vec) : a = b \/ a <> b.
Proof.
  destruct a as [a1 a2 a3], b as [b1 b2 b3].
  destruct (Req_dec a1 b1) as [-> | H1]; [| right; intros H; injection H; intros; lra].
  destruct (Req_dec a2 b2) as [-> | H2]; [| right; intros H; injection H; intros; lra].
  destruct (Req_dec a3 b3) as [-> | H3]; [| right; intros H; injection H; intros; lra].
  left; reflexivity.
Qed.


Lemma max_min_bounds (lo hi x : R) :
  lo <= hi -> lo <= PyFloat.max lo (PyFloat.min hi x) <= hi.
Proof. intros Hle. unfold PyFloat.max, PyFloat.min. repeat case_cmp; lra. Qed.


(** X1. [clamp(value, min_value, max_value)] with [min_value <=
    max_value] returns a number of [[min_value, max_value]]: [value]
    itself when it lies there, the bound it passed otherwise.  With the
    bounds the wrong way round it returns [min_value], whatever
    [value] is. *)
Theorem clamp_range (value min_value max_value : R) :
  (min_value <= max_value ->
   min_value <= clamp value min_value max_value <= max_value /\
   (min_value <= value <= max_value -> clamp value min_value max_value = value) /\
   (value < min_value -> clamp value min_value max_value = min_value) /\
   (max_value < value -> clamp value min_value max_value = max_value)) /\
  (max_value < min_value -> clamp value min_value max_value = min_value).
Proof.
  unfold clamp, PyFloat.max, PyFloat.min.
  split; [intros Hle; repeat split; intros |]; intros;
    repeat case_cmp; try reflexivity; lra.
Qed.

(** The pitch limit of the camera. *)
Lemma clamp_range_witness :
  clamp 120 (-89) 89 = 89 /\ clamp (-120) (-89) 89 = -89 /\ clamp 30 (-89) 89 = 30 /\
  clamp 30 89 (-89) = 89.
Proof.
  destruct (clamp_range 120 (-89) 89) as [Hin _].
  destruct (clamp_range (-120) (-89) 89) as [Hin' _].
  destruct (clamp_range 30 (-89) 89) as [Hin'' _].
  destruct (clamp_range 30 89 (-89)) as [_ Hout].
  split; [apply Hin; lra | split; [apply Hin'; lra | split; [apply Hin''; lra | apply Hout; lra]]].
Defined.

(** [lerp(a, b, t)] is the weighted mean [(1 - t) * a + t * b]: it
    is [a] at [t = 0] and [b] at [t = 1], lies between [a] and [b] for
    [t] in [[0, 1]], and swapping the end points mirrors [t]. *)
Lemma lerp_between (a b t : R) :
  lerp a b t = (1 - t) * a + t * b /\
  lerp a b 0 = a /\
  lerp a b 1 = b /\
  lerp b a (1 - t) = lerp a b t /\
  (0 <= t <= 1 -> Rmin a b <= lerp a b t <= Rmax a b).
Proof.
  unfold lerp.
  split; [ring | split; [ring | split; [ring | split; [ring |]]]].
  intros [H0 H1]. unfold Rmin, Rmax. destruct (Rle_dec a b); split; nra.
Qed.








(** ** Bounding spheres and the collision system *)

Lemma intersects_true_iff (s1 s2 : BoundingSphere.t) :
  BoundingSphere.intersects s1 s2 = true <->
  Vector3.distance_to (BoundingSphere.center s1) (BoundingSphere.center s2)
  < BoundingSphere.radius s1 + BoundingSphere.radius s2.
Proof. unfold BoundingSphere.intersects. apply ltb_true_iff. Qed.

Lemma contains_point_true_iff (s : BoundingSphere.t) (p : Vec) :
  BoundingSphere.contains_point s p = true <->
  Vector3.distance_to (BoundingSphere.center s) p < BoundingSphere.radius s.
Proof. unfold BoundingSphere.contains_point. apply ltb_true_iff. Qed.

Lemma bool_eq_iff (a b : bool) : (a = true <-> b = true) -> a = b.
Proof.
  destruct a, b; intros [H1 H2]; try reflexivity;
    [symmetry; apply H1; reflexivity | apply H2; reflexivity].
Qed.

Lemma distance_to_self (p : Vec) : Vector3.distance_to p p = 0.
Proof. apply distance_to_zero_iff. reflexivity. Qed.

(** X5. The collision test is symmetric: [check_collision(a, b)] and
    [check_collision(b, a)] agree, and [check_projectile_collision] is
    the same test.  Two entities at the same position collide exactly
    when their radii add up to more than 0. *)
Theorem check_collision_symmetric (a b : Entity.t) :
  CollisionSystem.check_collision a b = CollisionSystem.check_collision b a /\
  CollisionSystem.check_projectile_collision a b = CollisionSystem.check_collision b a /\
  (Entity.position a = Entity.position b ->
   (CollisionSystem.check_collision a b = true <-> 0 < Entity.radius a + Entity.radius b)).
Proof.
  assert (Hsym : CollisionSystem.check_collision a b = CollisionSystem.check_collision b a).
  { apply bool_eq_iff. rewrite !check_collision_true_iff.
    rewrite (distance_to_sym (Entity.position a)). lra. }
  split; [exact Hsym | split; [exact Hsym |]].
  intros Hpos. rewrite check_collision_true_iff, Hpos, distance_to_self. reflexivity.
Qed.

Lemma check_collision_symmetric_witness :
  CollisionSystem.check_collision
    (Entity.init (Some (Vector3.mk 1 2 3))) (Entity.init (Some (Vector3.mk 1 2 3))) = true.
Proof.
  destruct (check_collision_symmetric
              (Entity.init (Some (Vector3.mk 1 2 3))) (Entity.init (Some (Vector3.mk 1 2 3))))
    as (_ & _ & Hsame).
  apply Hsame; [reflexivity |].
  cbn [Entity.init Entity.radius]. lra.
Defined.

(** A point is inside a bounding sphere exactly when the sphere
    intersects the sphere of radius 0 around the point; two spheres
    that contain a common point intersect; a sphere contains its own
    centre exactly when its radius is positive. *)
Lemma contains_point_intersects (s1 s2 : BoundingSphere.t) (p : Vec) :
  BoundingSphere.contains_point s1 p
  = BoundingSphere.intersects s1 (BoundingSphere.mk p 0) /\
  (BoundingSphere.contains_point s1 p = true ->
   BoundingSphere.contains_point s2 p = true ->
   BoundingSphere.intersects s1 s2 = true) /\
  (BoundingSphere.contains_point s1 (BoundingSphere.center s1) = true
   <-> 0 < BoundingSphere.radius s1).
Proof.
  split; [| split].
  - apply bool_eq_iff. rewrite contains_point_true_iff, intersects_true_iff.
    cbn [BoundingSphere.center BoundingSphere.radius]. lra.
  - rewrite !contains_point_true_iff, intersects_true_iff. intros H1 H2.
    pose proof (distance_to_triangle (BoundingSphere.center s1) p (BoundingSphere.center s2))
      as Htri.
    rewrite (distance_to_sym p) in Htri. lra.
  - rewrite contains_point_true_iff, distance_to_self. reflexivity.
Qed.

(** X6. [check_collision_list(entity, entity_list)] returns the first
    element of the list, in list order, that is another object than
    [entity] and whose sphere intersects that of [entity]: every
    element before it is [entity] itself or does not collide.  It
    returns [None] exactly when there is no such element, so for the
    empty list and for a list that holds only [entity]. *)
Theorem check_collision_list_first (store : nat -> Entity.t) (entity : nat)
  (entity_list : list nat) :
  let misses (other : nat) :=
    other = entity \/
    CollisionSystem.check_collision (store entity) (store other) = false in
  match CollisionSystem.check_collision_list store entity entity_list with
  | Some other =>
      exists before after : list nat,
        entity_list = before ++ other :: after /\
        Forall misses before /\
        other <> entity /\
        CollisionSystem.check_collision (store entity) (store other) = true
  | None => Forall misses entity_list
  end /\
  CollisionSystem.check_collision_list store entity [] = None /\
  CollisionSystem.check_collision_list store entity [entity] = None.
Proof.
  intros misses. split; [| split].
  - unfold CollisionSystem.check_collision_list.
    induction entity_list as [| other rest IH]; cbn [CollisionSystem.check_collision_list_loop].
    + constructor.
    + destruct (Nat.eqb other entity) eqn:Hsame.
      * apply Nat.eqb_eq in Hsame.
        destruct (CollisionSystem.check_collision_list_loop _ _ _ rest) as [found |].
        -- destruct IH as (before & after & -> & Hbefore & Hne & Hhit).
           exists (other :: before), after.
           split; [reflexivity | split; [| split; assumption]].
           constructor; [left; assumption | assumption].
        -- constructor; [left; assumption | assumption].
      * apply Nat.eqb_neq in Hsame.
        change (BoundingSphere.intersects
                  (BoundingSphere.mk (Entity.position (store entity))
                                     (Entity.get_radius (store entity)))
                  (BoundingSphere.mk (Entity.position (store other))
                                     (Entity.get_radius (store other))))
          with (CollisionSystem.check_collision (store entity) (store other)).
        destruct (CollisionSystem.check_collision (store entity) (store other)) eqn:Hhit.
        -- exists [], rest. split; [reflexivity | split; [constructor | split; assumption]].
        -- destruct (CollisionSystem.check_collision_list_loop _ _ _ rest) as [found |].
           ++ destruct IH as (before & after & -> & Hbefore & Hne & Hhit').
              exists (other :: before), after.
              split; [reflexivity | split; [| split; assumption]].
              constructor; [right; assumption | assumption].
           ++ constructor; [right; assumption | assumption].
  - reflexivity.
  - unfold CollisionSystem.check_collision_list.
    cbn [CollisionSystem.check_collision_list_loop]. rewrite Nat.eqb_refl. reflexivity.
Qed.


Lemma sub_add_mul (p n : Vec) (s : R) :
  Vector3.sub (Vector3.add p (Vector3.mul n s)) p = Vector3.mul n s.
Proof.
  unfold Vector3.sub, Vector3.add, Vector3.mul; cbn [Vector3.x Vector3.y Vector3.z].
  f_equal; ring.
Qed.

Lemma with_position_same (e : Entity.t) : Entity.with_position (Entity.position e) e = e.
Proof. destruct e; reflexivity. Qed.

(** [push_back(entity, direction, distance)] changes the position
    only: it moves the entity by [distance] against the normalized
    [direction], so by [|distance|] whatever the length of [direction]
    is.  With the zero vector for a direction the entity is not moved
    at all. *)
Lemma push_back_moves (entity : Entity.t) (direction : Vec) (distance : R) :
  let entity' := CollisionSystem.push_back entity direction distance in
  entity' = Entity.with_position (Entity.position entity') entity /\
  (direction <> Vector3.mk 0 0 0 ->
   Entity.position entity'
   = Vector3.sub (Entity.position entity)
                 (Vector3.mul (Vector3.truediv direction (Vector3.length direction)) distance) /\
   Vector3.distance_to (Entity.position entity') (Entity.position entity) = Rabs distance) /\
  (direction = Vector3.mk 0 0 0 -> entity' = entity).
Proof.
  unfold CollisionSystem.push_back. cbn zeta.
  split; [reflexivity | split].
  - intros Hnz. cbn [Entity.with_position Entity.position]. split.
    + rewrite normalize_nonzero by assumption.
      unfold Vector3.add, Vector3.sub, Vector3.mul; cbn [Vector3.x Vector3.y Vector3.z].
      f_equal; ring.
    + unfold Vector3.distance_to. rewrite sub_add_mul, length_mul.
      rewrite length_normalize by assumption. rewrite Rabs_Ropp. ring.
  - intros ->. rewrite normalize_zero.
    transitivity (Entity.with_position (Entity.position entity) entity);
      [| apply with_position_same].
    f_equal.
    unfold Vector3.add, Vector3.mul; cbn [Vector3.x Vector3.y Vector3.z].
    destruct (Entity.position entity); cbn [Vector3.x Vector3.y Vector3.z]. f_equal; ring.
Qed.









(** ** The camera *)





(** [normalize] only rescales. *)
Lemma normalize_scaling (v : Vec) :
  exists k : R, Vector3.normalize v = Vector3.mul v k.
Proof.
  unfold Vector3.normalize. case_cmp.
  - exists (/ Vector3.length v). reflexivity.
  - exists 0. unfold Vector3.mul. f_equal; ring.
Qed.





Lemma update_vectors_keeps (c : Camera.t) :
  Camera.position (Camera.update_vectors c) = Camera.position c /\
  Camera.yaw (Camera.update_vectors c) = Camera.yaw c /\
  Camera.pitch (Camera.update_vectors c) = Camera.pitch c /\
  Camera.world_up (Camera.update_vectors c) = Camera.world_up c.
Proof. repeat split. Qed.



(** X10. [process_mouse_movement(xoffset, yoffset)] adds [xoffset] to
    the yaw, without any bound or wrap-around, and adds [yoffset] to
    the pitch, which it then keeps within [[-CAMERA_YAW_LIMIT,
    CAMERA_YAW_LIMIT]] = [[-89, 89]]: a pitch that would leave the
    interval stops at its end.  With [constrain_pitch=False] the pitch
    is not bounded.  The position does not change. *)
Theorem process_mouse_movement_pitch_limit (xoffset yoffset : R) (c : Camera.t) :
  let c' := Camera.process_mouse_movement xoffset yoffset true c in
  Camera.yaw c' = Camera.yaw c + xoffset /\
  - Config.CAMERA_YAW_LIMIT <= Camera.pitch c' <= Config.CAMERA_YAW_LIMIT /\
  Camera.pitch c'
  = clamp (Camera.pitch c + yoffset) (- Config.CAMERA_YAW_LIMIT) Config.CAMERA_YAW_LIMIT /\
  (Config.CAMERA_YAW_LIMIT < Camera.pitch c + yoffset ->
   Camera.pitch c' = Config.CAMERA_YAW_LIMIT) /\
  (Camera.pitch c + yoffset < - Config.CAMERA_YAW_LIMIT ->
   Camera.pitch c' = - Config.CAMERA_YAW_LIMIT) /\
  Camera.pitch (Camera.process_mouse_movement xoffset yoffset false c)
  = Camera.pitch c + yoffset /\
  Camera.position c' = Camera.position c.
Proof.
  intros c'. subst c'.
  unfold Camera.process_mouse_movement. cbn zeta.
  destruct (update_vectors_keeps
              (Camera.with_pitch
                 (clamp (Camera.pitch (Camera.with_pitch
                                         (Camera.pitch (Camera.with_yaw (Camera.yaw c + xoffset) c)
                                          + yoffset)
                                         (Camera.with_yaw (Camera.yaw c + xoffset) c)))
                        (- Config.CAMERA_YAW_LIMIT) Config.CAMERA_YAW_LIMIT)
                 (Camera.with_pitch
                    (Camera.pitch (Camera.with_yaw (Camera.yaw c + xoffset) c) + yoffset)
                    (Camera.with_yaw (Camera.yaw c + xoffset) c))))
    as (Hpos & Hyaw & Hpitch & _).
  rewrite Hpos, Hyaw, Hpitch.
  cbn [Camera.with_pitch Camera.with_yaw Camera.pitch Camera.yaw Camera.position].
  split; [reflexivity |].
  split; [apply max_min_bounds; unfold Config.CAMERA_YAW_LIMIT; lra |].
  split; [reflexivity |].
  split; [| split; [| split; reflexivity]];
    intros Hout; unfold clamp, PyFloat.max, PyFloat.min, Config.CAMERA_YAW_LIMIT in *;
    repeat case_cmp; lra.
Qed.

Lemma process_mouse_movement_pitch_limit_witness :
  Camera.pitch
    (Camera.process_mouse_movement 0 200 true (Camera.init None (-90) 0))
  = Config.CAMERA_YAW_LIMIT.
Proof.
  destruct (process_mouse_movement_pitch_limit 0 200 (Camera.init None (-90) 0))
    as (_ & _ & _ & Hup & _).
  apply Hup. cbn [Camera.init Camera.update_vectors Camera.pitch Camera.with_up
                  Camera.with_right Camera.with_front].
  unfold Config.CAMERA_YAW_LIMIT. lra.
Defined.

Lemma camera_with_position_same (c : Camera.t) : Camera.with_position (Camera.position c) c = c.
Proof. destruct c; reflexivity. Qed.

Lemma add_sub_cancel (p v : Vec) : Vector3.sub (Vector3.add p v) v = p.
Proof.
  destruct p. unfold Vector3.sub, Vector3.add; cbn [Vector3.x Vector3.y Vector3.z].
  f_equal; ring.
Qed.

(** The moves of the camera change its position only, and a move
    and the opposite move by the same distance cancel: forward then
    backward, right then left, up then down leave the camera where it
    was.  Two moves forward add up, and moving backward is moving
    forward by the negated distance.  When [front] has length 1,
    [move_forward(distance)] displaces the camera by [|distance|] and
    the view target is at distance 1. *)
Lemma camera_moves_cancel (distance distance' : R) (c : Camera.t) :
  Camera.move_backward distance (Camera.move_forward distance c) = c /\
  Camera.move_left distance (Camera.move_right distance c) = c /\
  Camera.move_down distance (Camera.move_up distance c) = c /\
  Camera.move_forward distance' (Camera.move_forward distance c)
  = Camera.move_forward (distance + distance') c /\
  Camera.move_backward distance c = Camera.move_forward (- distance) c /\
  Camera.move_forward distance c
  = Camera.with_position (Camera.position (Camera.move_forward distance c)) c /\
  (Vector3.length (Camera.front c) = 1 ->
   Vector3.distance_to (Camera.position (Camera.move_forward distance c)) (Camera.position c)
   = Rabs distance /\
   Vector3.distance_to (Camera.get_view_target c) (Camera.position c) = 1).
Proof.
  assert (Hwith : forall p q : Vec, p = q -> Camera.with_position p c = Camera.with_position q c)
    by (intros p q ->; reflexivity).
  unfold Camera.move_backward, Camera.move_forward, Camera.move_left, Camera.move_right,
    Camera.move_down, Camera.move_up, Camera.get_view_target.
  split; [cbn [Camera.with_position Camera.position Camera.front];
          rewrite add_sub_cancel; destruct c; reflexivity |].
  split; [cbn [Camera.with_position Camera.position Camera.right];
          rewrite add_sub_cancel; destruct c; reflexivity |].
  split; [cbn [Camera.with_position Camera.position Camera.up];
          rewrite add_sub_cancel; destruct c; reflexivity |].
  split.
  { change (Camera.with_position
              (Vector3.add (Vector3.add (Camera.position c)
                                        (Vector3.mul (Camera.front c) distance))
                           (Vector3.mul (Camera.front c) distance')) c
            = Camera.with_position
                (Vector3.add (Camera.position c)
                             (Vector3.mul (Camera.front c) (distance + distance'))) c).
    apply Hwith. apply vec_eq;
      unfold Vector3.add, Vector3.mul; cbn [Vector3.x Vector3.y Vector3.z]; ring. }
  split.
  { apply Hwith. apply vec_eq;
      unfold Vector3.add, Vector3.sub, Vector3.mul; cbn [Vector3.x Vector3.y Vector3.z]; ring. }
  split; [reflexivity |].
  intros Hunit. cbn [Camera.with_position Camera.position]. unfold Vector3.distance_to. split.
  - rewrite sub_add_mul, length_mul, Hunit. ring.
  - replace (Vector3.sub (Vector3.add (Camera.position c) (Camera.front c)) (Camera.position c))
      with (Camera.front c); [exact Hunit |].
    apply vec_eq; unfold Vector3.sub, Vector3.add; cbn [Vector3.x Vector3.y Vector3.z]; ring.
Qed.

(** ** The player: cooldown, flash and lives *)

Lemma player_update_fields (dt : R) (p : Player.t) :
  Player.lives (Player.update dt p) = Player.lives p /\
  Player.base (Player.update dt p) = Entity.update dt (Player.base p) /\
  Player.damage_flash_timer (Player.update dt p)
  = (if Player.damage_flash_timer p >? 0 then Player.damage_flash_timer p - dt
     else Player.damage_flash_timer p) /\
  Player.shoot_cooldown (Player.update dt p)
  = (if Player.shoot_cooldown p >? 0 then Player.shoot_cooldown p - dt
     else Player.shoot_cooldown p) /\
  Player.can_shoot (Player.update dt p)
  = (if Player.shoot_cooldown p >? 0
     then (if Player.shoot_cooldown p - dt <=? 0 then true else Player.can_shoot p)
     else Player.can_shoot p).
Proof.
  unfold Player.update. cbn.
  repeat (case_cmp; cbn in * ); repeat split; try reflexivity; lra.
Qed.





Lemma shoot_state_op (op : PlayerOp) (p : Player.t) :
  match op with OpUpdate dt => 0 <= dt | _ => True end ->
  shoot_state_ok p -> shoot_state_ok (apply_op op p).
Proof.
  unfold shoot_state_ok. intros Hdt [Hiff Hle].
  destruct op as [dt | | |]; cbn [apply_op].
  - destruct (player_update_fields dt p) as (_ & _ & _ & Hcool & Hcan).
    rewrite Hcool, Hcan.
    destruct (Player.shoot_cooldown p >? 0) eqn:Hpos.
    + apply gtb_true_iff in Hpos.
      destruct (Player.shoot_cooldown p - dt <=? 0) eqn:Hdone.
      * apply leb_true_iff in Hdone. split; [tauto | lra].
      * apply leb_false_iff in Hdone. split; [| lra].
        split; [intros Hcs; apply Hiff in Hcs; lra | intros; lra].
    + split; assumption.
  - unfold Player.shoot. destruct (Player.can_shoot p) eqn:Hcs; cbn.
    + unfold Config.PLAYER_SHOOT_COOLDOWN. split; [| lra].
      split; [discriminate | intros; lra].
    + rewrite Hcs. split; assumption.
  - unfold Player.take_damage. cbn. destruct (_ <=? _)%Z; cbn; split; assumption.
  - unfold Player.add_life. cbn. split; assumption.
Qed.

Lemma shoot_state_ops (ops : list PlayerOp) :
  forward_ops ops -> forall p : Player.t, shoot_state_ok p -> shoot_state_ok (apply_ops ops p).
Proof.
  unfold forward_ops, apply_ops.
  induction 1 as [| op ops Hop Hops IH]; intros p Hok; cbn [fold_left]; [assumption |].
  apply IH, shoot_state_op; assumption.
Qed.

(** X12. Along any calls of [update(dt)] ([dt >= 0]), [shoot()],
    [take_damage()] and [add_life()] on a new player, [can_shoot] is
    true exactly when [shoot_cooldown <= 0], and [shoot_cooldown]
    never exceeds [PLAYER_SHOOT_COOLDOWN].  So a player that cannot
    shoot is never stuck: an update by [PLAYER_SHOOT_COOLDOWN] makes
    it able to shoot again. *)
Theorem player_shoot_state (starting_lives : Z) (position : option Vec) (ops : list PlayerOp) :
  forward_ops ops ->
  let p := apply_ops ops (Player.init_with starting_lives position) in
  (Player.can_shoot p = true <-> Player.shoot_cooldown p <= 0) /\
  Player.shoot_cooldown p <= Config.PLAYER_SHOOT_COOLDOWN /\
  Player.can_shoot (Player.update Config.PLAYER_SHOOT_COOLDOWN p) = true.
Proof.
  intros Hops p.
  assert (Hok : shoot_state_ok p).
  { apply shoot_state_ops; [assumption |].
    unfold shoot_state_ok, Player.init_with, Config.PLAYER_SHOOT_COOLDOWN. cbn.
    split; [split; intros; [lra | reflexivity] | lra]. }
  destruct Hok as [Hiff Hle].
  split; [exact Hiff | split; [exact Hle |]].
  destruct (player_update_fields Config.PLAYER_SHOOT_COOLDOWN p) as (_ & _ & _ & _ & Hcan).
  rewrite Hcan.
  destruct (Player.shoot_cooldown p >? 0) eqn:Hpos.
  - rewrite leb_true by lra. reflexivity.
  - apply gtb_false_iff in Hpos. apply Hiff. assumption.
Qed.

Lemma player_shoot_state_witness :
  Player.can_shoot
    (Player.update Config.PLAYER_SHOOT_COOLDOWN
       (apply_ops [OpShoot; OpUpdate (1 / 10); OpShoot] (Player.init None))) = true.
Proof.
  assert (Hops : forward_ops [OpShoot; OpUpdate (1 / 10); OpShoot]).
  { repeat constructor. lra. }
  destruct (player_shoot_state Config.PLAYER_STARTING_LIVES None
              [OpShoot; OpUpdate (1 / 10); OpShoot] Hops) as (_ & _ & Hready).
  exact Hready.
Defined.

Lemma apply_op_lives (op : PlayerOp) (p : Player.t) :
  Player.lives (apply_op op p)
  = match op with
    | OpTakeDamage => (Player.lives p - 1)%Z
    | OpAddLife => (Player.lives p + 1)%Z
    | _ => Player.lives p
    end.
Proof.
  destruct op as [dt | | |]; cbn [apply_op].
  - apply player_update_fields.
  - unfold Player.shoot. destruct (Player.can_shoot p); reflexivity.
  - unfold Player.take_damage. cbn. destruct (_ <=? _)%Z; reflexivity.
  - reflexivity.
Qed.

Lemma apply_op_alive (op : PlayerOp) (p : Player.t) :
  Player.is_alive (apply_op op p)
  = match op with
    | OpTakeDamage => if (Player.lives p - 1 <=? 0)%Z then false else Player.is_alive p
    | _ => Player.is_alive p
    end.
Proof.
  destruct op as [dt | | |]; cbn [apply_op].
  - unfold Player.is_alive. destruct (player_update_fields dt p) as (_ & -> & _). reflexivity.
  - unfold Player.shoot. destruct (Player.can_shoot p); reflexivity.
  - unfold Player.take_damage. cbn. destruct (_ <=? _)%Z; reflexivity.
  - reflexivity.
Qed.

(** X13. Along any calls of [update], [shoot], [take_damage] and
    [add_life], [lives] is the starting number plus the calls of
    [add_life()] minus the calls of [take_damage()], also after the
    player has died.  A dead player is never alive again, whatever is
    called, so [add_life()] on a dead player leaves a dead player with
    one more life; a player that is alive, and had at least one life
    when it started alive, has at least one life. *)
Theorem player_lives_bookkeeping (ops : list PlayerOp) (p : Player.t) :
  let p' := apply_ops ops p in
  Player.lives p' = (Player.lives p + life_calls ops - damage_calls ops)%Z /\
  (Player.is_alive p = false -> Player.is_alive p' = false) /\
  ((Player.is_alive p = true -> (1 <= Player.lives p)%Z) ->
   Player.is_alive p' = true -> (1 <= Player.lives p')%Z).
Proof.
  unfold apply_ops, life_calls, damage_calls.
  revert p. induction ops as [| op ops IH]; intros p; cbn [fold_left].
  - cbn. split; [lia | split; auto].
  - destruct (IH (apply_op op p)) as (Hlives & Hdead & Halive).
    pose proof (apply_op_lives op p) as Hl. pose proof (apply_op_alive op p) as Ha.
    split; [| split].
    + rewrite Hlives, Hl. destruct op; cbn [filter List.length]; lia.
    + intros Hd. apply Hdead. rewrite Ha, Hd.
      destruct op; try reflexivity. destruct (_ <=? _)%Z; reflexivity.
    + intros Hinv. apply Halive. rewrite Ha, Hl.
      destruct op; try assumption.
      * destruct (Player.lives p - 1 <=? 0)%Z eqn:Hle; [discriminate |].
        intros _. apply Z.leb_gt in Hle. lia.
      * intros Hal. specialize (Hinv Hal). lia.
Qed.

(** A player with one life that is hit and then picks up a life: one
    life, and dead. *)
Lemma player_lives_bookkeeping_witness :
  let p := apply_ops [OpTakeDamage; OpAddLife] (Player.init_with 1 None) in
  Player.lives p = 1%Z /\ Player.is_alive p = false.
Proof.
  intros p.
  destruct (player_lives_bookkeeping [OpAddLife] (Player.take_damage (Player.init_with 1 None)))
    as (Hlives & Hdead & _).
  split; [exact Hlives | apply Hdead; reflexivity].
Defined.

(** ** Enemies *)

Lemma enemy_take_damage_fields (damage : Z) (e : Enemy.t) :
  Enemy.health (Enemy.take_damage damage e) = (Enemy.health e - damage)%Z /\
  Enemy.is_alive (Enemy.take_damage damage e)
  = (if (Enemy.health e - damage <=? 0)%Z then false else Enemy.is_alive e) /\
  Enemy.points (Enemy.take_damage damage e) = Enemy.points e /\
  Entity.position (Enemy.base (Enemy.take_damage damage e)) = Entity.position (Enemy.base e).
Proof.
  unfold Enemy.take_damage. cbn. destruct (_ <=? _)%Z; repeat split.
Qed.

Lemma enemy_hits_dead (damages : list Z) (e : Enemy.t) :
  Enemy.is_alive e = false -> Enemy.is_alive (enemy_hits damages e) = false.
Proof.
  unfold enemy_hits. revert e. induction damages as [| d damages IH]; intros e Hdead;
    cbn [fold_left]; [assumption |].
  apply IH. destruct (enemy_take_damage_fields d e) as (_ & -> & _).
  rewrite Hdead. destruct (_ <=? _)%Z; reflexivity.
Qed.

Lemma total_damage_nonneg (damages : list Z) :
  Forall (fun d => (0 <= d)%Z) damages -> (0 <= total_damage damages)%Z.
Proof.
  induction 1 as [| d damages Hd Hds IH]; cbn [total_damage fold_right]; [lia |].
  fold (total_damage damages). lia.
Qed.

(** X14. Hits add up: after [take_damage(damage)] calls with damages
    [>= 0], the health of an enemy is its health before minus the
    damage dealt, and an enemy that was alive with positive health is
    still alive exactly when the damage dealt is below that health.  A
    dead enemy stays dead whatever damage follows, negative damage
    too. *)
Theorem enemy_take_damage_total (e : Enemy.t) (damages : list Z) :
  let e' := enemy_hits damages e in
  Enemy.health e' = (Enemy.health e - total_damage damages)%Z /\
  (Enemy.is_alive e = false -> Enemy.is_alive e' = false) /\
  (Enemy.is_alive e = true -> (0 < Enemy.health e)%Z ->
   Forall (fun damage => (0 <= damage)%Z) damages ->
   (Enemy.is_alive e' = true <-> (total_damage damages < Enemy.health e)%Z)).
Proof.
  cbn zeta. split; [| split].
  - unfold enemy_hits. revert e. induction damages as [| d damages IH]; intros e;
      cbn [fold_left total_damage fold_right]; [lia |].
    fold (total_damage damages). rewrite IH.
    destruct (enemy_take_damage_fields d e) as (-> & _). lia.
  - apply enemy_hits_dead.
  - intros Halive Hhealth Hnn. revert e Halive Hhealth.
    induction Hnn as [| d damages Hd Hds IH]; intros e Halive Hhealth.
    + cbn. split; [intros; lia | intros; assumption].
    + change (enemy_hits (d :: damages) e) with (enemy_hits damages (Enemy.take_damage d e)).
      cbn [total_damage fold_right]. fold (total_damage damages).
      pose proof (total_damage_nonneg damages Hds) as Hsum.
      destruct (enemy_take_damage_fields d e) as (Hh & Ha & _).
      destruct (Enemy.health e - d <=? 0)%Z eqn:Hle.
      * apply Z.leb_le in Hle.
        rewrite enemy_hits_dead by (rewrite Ha; reflexivity).
        split; [discriminate | lia].
      * apply Z.leb_gt in Hle.
        rewrite IH; [rewrite Hh; lia | rewrite Ha; assumption | rewrite Hh; lia].
Qed.

(** A new enemy ([ENEMY_HEALTH] = 1) is destroyed by one hit of damage
    1. *)
Lemma enemy_take_damage_total_witness :
  Enemy.is_alive (enemy_hits [1%Z] (Enemy.init None 0)) = false.
Proof.
  destruct (enemy_take_damage_total (Enemy.init None 0) [1%Z]) as (_ & _ & Hiff).
  destruct (Enemy.is_alive (enemy_hits [1%Z] (Enemy.init None 0))) eqn:Halive; [| reflexivity].
  exfalso.
  assert (Hlt : (total_damage [1%Z] < Enemy.health (Enemy.init None 0))%Z).
  { apply Hiff; [reflexivity | reflexivity | repeat constructor; lia | reflexivity]. }
  cbn in Hlt. unfold Config.ENEMY_HEALTH in Hlt. lia.
Defined.


Lemma enemy_update_fields (dt : R) (player_position : Vec) (e : Enemy.t) :
  let moved := Vector3.add (Entity.position (Enemy.base e))
                           (Vector3.mul (Entity.velocity (Enemy.base e)) dt) in
  let e' := Enemy.update dt (Some player_position) e in
  Entity.position (Enemy.base e') = moved /\
  Entity.velocity (Enemy.base e')
  = (if Vector3.length (Vector3.sub player_position moved) >? 10
     then Vector3.mul (Vector3.normalize (Vector3.sub player_position moved)) Config.ENEMY_SPEED
     else Vector3.mk 0 0 0) /\
  Enemy.shoot_timer e' = Enemy.shoot_timer e - dt /\
  Enemy.health e' = Enemy.health e /\
  Enemy.points e' = Enemy.points e /\
  Enemy.is_alive e' = Enemy.is_alive e /\
  Entity.radius (Enemy.base e') = Entity.radius (Enemy.base e).
Proof.
  unfold Enemy.update, Enemy._move_toward_target, Entity.update, Entity.rotate, Enemy.is_alive,
    Entity.is_alive.
  cbn. destruct (Entity.rotation (Enemy.base e)) as [[rx ry] rz].
  case_cmp; cbn; repeat split; destruct (Entity.rotation _) as [[? ?] ?]; reflexivity.
Qed.



(** ** Projectiles *)

Lemma set_rotation_base (p : Projectile.t) :
  let p' := Projectile._set_rotation_from_direction p in
  Entity.position (Projectile.base p') = Entity.position (Projectile.base p) /\
  Entity.velocity (Projectile.base p') = Entity.velocity (Projectile.base p) /\
  Entity.radius (Projectile.base p') = Entity.radius (Projectile.base p) /\
  Entity.alive (Projectile.base p') = Entity.alive (Projectile.base p) /\
  Projectile.direction p' = Projectile.direction p /\
  Projectile.owner_type p' = Projectile.owner_type p /\
  Projectile.age p' = Projectile.age p /\
  Projectile.lifetime p' = Projectile.lifetime p /\
  (Projectile.direction p = Vector3.mk 0 0 0 -> p' = p).
Proof.
  unfold Projectile._set_rotation_from_direction. cbn zeta.
  case_cmp; repeat split.
  intros Hz. apply length_zero_iff in Hz. lra.
Qed.



Lemma projectile_update_fields (dt : R) (p : Projectile.t) :
  let p' := Projectile.update dt p in
  Entity.position (Projectile.base p')
  = Vector3.add (Entity.position (Projectile.base p))
                (Vector3.mul (Entity.velocity (Projectile.base p)) dt) /\
  Entity.velocity (Projectile.base p') = Entity.velocity (Projectile.base p) /\
  Projectile.age p' = Projectile.age p + dt /\
  Projectile.lifetime p' = Projectile.lifetime p /\
  Projectile.owner_type p' = Projectile.owner_type p /\
  Projectile.is_alive p'
  = (if Projectile.age p + dt >=? Projectile.lifetime p then false else Projectile.is_alive p).
Proof.
  unfold Projectile.update, Projectile.destroy, Projectile.is_alive. cbn.
  case_cmp; repeat split.
Qed.



(** ** The animation of the ship *)

Lemma roll_if_roll (c : bool) (x : R) (g : Game.t) :
  Game.ship_roll (if c then Game.with_ship_roll x g else g)
  = if c then x else Game.ship_roll g.
Proof. destruct c; reflexivity. Qed.

Lemma roll_if_pitch (c : bool) (x : R) (g : Game.t) :
  Game.ship_roll (if c then Game.with_ship_pitch_offset x g else g) = Game.ship_roll g.
Proof. destruct c; reflexivity. Qed.

Lemma pitch_if_roll (c : bool) (x : R) (g : Game.t) :
  Game.ship_pitch_offset (if c then Game.with_ship_roll x g else g) = Game.ship_pitch_offset g.
Proof. destruct c; reflexivity. Qed.

Lemma pitch_if_pitch (c : bool) (x : R) (g : Game.t) :
  Game.ship_pitch_offset (if c then Game.with_ship_pitch_offset x g else g)
  = if c then x else Game.ship_pitch_offset g.
Proof. destruct c; reflexivity. Qed.


Ltac angles :=
  repeat first
    [ rewrite roll_if_roll | rewrite roll_if_pitch
    | rewrite pitch_if_roll | rewrite pitch_if_pitch ];
  cbn [Game.ship_roll Game.ship_pitch_offset Game.with_ship_roll Game.with_ship_pitch_offset].

Lemma ship_animation_roll (dt : R) (env : Env) (g : Game.t) :
  Game.ship_roll (Game._update_ship_animation dt env g)
  = eased (Game.ship_roll g) (- clamped_yaw_delta g * Config.SHIP_ROLL_SENSITIVITY)
          Config.MAX_SHIP_ROLL (clamped_yaw_delta g) dt.
Proof.
  unfold Game._update_ship_animation, eased.
  fold (clamped_yaw_delta g). fold (clamped_pitch_delta g). cbv zeta.
  cbn [Game.ship_roll Game.with_cockpit_sway Game.with_previous_camera_yaw
       Game.with_previous_camera_pitch].
  angles. reflexivity.
Qed.

Lemma ship_animation_pitch_offset (dt : R) (env : Env) (g : Game.t) :
  Game.ship_pitch_offset (Game._update_ship_animation dt env g)
  = eased (Game.ship_pitch_offset g) (clamped_pitch_delta g * Config.SHIP_PITCH_SENSITIVITY)
          Config.MAX_SHIP_PITCH_OFFSET (clamped_pitch_delta g) dt.
Proof.
  unfold Game._update_ship_animation, eased.
  fold (clamped_yaw_delta g). fold (clamped_pitch_delta g). cbv zeta.
  cbn [Game.ship_pitch_offset Game.with_cockpit_sway Game.with_previous_camera_yaw
       Game.with_previous_camera_pitch].
  angles. reflexivity.
Qed.


Lemma eased_bounded (angle target limit delta dt : R) :
  0 <= limit ->
  - limit <= eased angle target limit delta dt <= limit /\
  (eased angle target limit delta dt = 0 \/ 1 / 10 <= Rabs (eased angle target limit delta dt)).
Proof.
  intros Hlimit. unfold eased. cbv zeta.
  set (settled := PyFloat.max (- limit) (PyFloat.min limit _)).
  assert (Hin : - limit <= settled <= limit) by (apply max_min_bounds; lra).
  clearbody settled. unfold PyFloat.abs.
  destruct (Rabs delta <? 5 / 10);
    case_cmp; (split; [lra | first [left; reflexivity | right; assumption]]).
Qed.





(** ** Spawning *)

Lemma distance_at_least_dz (p q : Vec) (d : R) :
  0 <= d -> Vector3.z q - Vector3.z p = d \/ Vector3.z p - Vector3.z q = d ->
  d <= Vector3.distance_to p q.
Proof.
  intros Hd Hz. unfold Vector3.distance_to, Vector3.length.
  apply sqrt_ge_bound; [assumption |].
  unfold Vector3.sub; cbn [Vector3.x Vector3.y Vector3.z].
  assert (Hd2 : d * d = (Vector3.z p - Vector3.z q) ^ 2)
    by (destruct Hz as [Hz | Hz]; rewrite <- Hz; ring).
  rewrite Hd2.
  pose proof (pow2_ge_0 (Vector3.x p - Vector3.x q)).
  pose proof (pow2_ge_0 (Vector3.y p - Vector3.y q)). lra.
Qed.

(** X19. One call of [_update_spawning(dt)] appends at most one
    enemy and at most one life sphere, however large [dt] is.  The
    enemy timer grows by [dt]; when it reaches [ENEMY_SPAWN_INTERVAL]
    it is set to 0, what it had above the interval being dropped, and
    one new enemy is appended, [ENEMY_SPAWN_DISTANCE] ahead of the
    camera along [-z]: at least that far from the camera, so out of
    [ENEMY_SHOOT_RANGE].  The life-sphere timer works the same way with
    [LIFE_SPHERE_SPAWN_INTERVAL]; the new sphere is at least 30 from
    the camera. *)
Theorem update_spawning_one_each (dt : R) (env : Env) (g : Game.t) :
  let g' := Game._update_spawning dt env g in
  let camera := Camera.position (Game.camera g) in
  (Game.enemy_spawn_timer g + dt < Config.ENEMY_SPAWN_INTERVAL ->
   Game.enemies g' = Game.enemies g /\
   Game.enemy_spawn_timer g' = Game.enemy_spawn_timer g + dt) /\
  (Config.ENEMY_SPAWN_INTERVAL <= Game.enemy_spawn_timer g + dt ->
   Game.enemy_spawn_timer g' = 0 /\
   exists enemy : Enemy.t,
     Game.enemies g' = Game.enemies g ++ [enemy] /\
     Enemy.is_alive enemy = true /\
     Vector3.z (Entity.position (Enemy.base enemy))
     = Vector3.z camera - Config.ENEMY_SPAWN_DISTANCE /\
     Config.ENEMY_SHOOT_RANGE
     < Vector3.distance_to (Entity.position (Enemy.base enemy)) camera) /\
  (Game.life_sphere_spawn_timer g + dt < Config.LIFE_SPHERE_SPAWN_INTERVAL ->
   Game.life_spheres g' = Game.life_spheres g /\
   Game.life_sphere_spawn_timer g' = Game.life_sphere_spawn_timer g + dt) /\
  (Config.LIFE_SPHERE_SPAWN_INTERVAL <= Game.life_sphere_spawn_timer g + dt ->
   Game.life_sphere_spawn_timer g' = 0 /\
   exists sphere : LifeSphere.t,
     Game.life_spheres g' = Game.life_spheres g ++ [sphere] /\
     LifeSphere.is_alive sphere = true /\
     LifeSphere.is_collected sphere = false /\
     (30 <= sphere_draw_z env ->
      30 <= Vector3.distance_to (Entity.position (LifeSphere.base sphere)) camera)) /\
  Game.player g' = Game.player g /\
  Game.camera g' = Game.camera g /\
  Game.projectiles g' = Game.projectiles g /\
  Game.meteorites g' = Game.meteorites g /\
  Game.score g' = Game.score g.
Proof.
  intros g' camera. subst g'. unfold Game._update_spawning. cbv zeta.
  cbn [Game.enemy_spawn_timer Game.with_enemy_spawn_timer].
  assert (Henemy : Config.ENEMY_SHOOT_RANGE
                   < Vector3.distance_to
                       (Entity.position (Enemy.base
                          (Enemy.init
                             (Some (Vector3.mk
                                      (Vector3.x camera
                                       + Config.ENEMY_SPAWN_DISTANCE * enemy_draw_x env)
                                      (Vector3.y camera + enemy_draw_y env)
                                      (Vector3.z camera - Config.ENEMY_SPAWN_DISTANCE)))
                             (enemy_draw_timer env))))
                       camera).
  { apply Rlt_le_trans with (r2 := Config.ENEMY_SPAWN_DISTANCE);
      [unfold Config.ENEMY_SHOOT_RANGE, Config.ENEMY_SPAWN_DISTANCE; lra |].
    apply distance_at_least_dz; [unfold Config.ENEMY_SPAWN_DISTANCE; lra |].
    left. cbn. ring. }
  assert (Hsphere : 30 <= sphere_draw_z env ->
                    30 <= Vector3.distance_to
                            (Entity.position (LifeSphere.base
                               (LifeSphere.init
                                  (Some (Vector3.mk (Vector3.x camera + sphere_draw_x env)
                                                    (Vector3.y camera + sphere_draw_y env)
                                                    (Vector3.z camera - sphere_draw_z env))))))
                            camera).
  { intros Hz. apply Rle_trans with (r2 := sphere_draw_z env); [assumption |].
    apply distance_at_least_dz; [lra |]. left. cbn. ring. }
  destruct (Game.enemy_spawn_timer g + dt >=? Config.ENEMY_SPAWN_INTERVAL) eqn:Hen;
    [apply geb_true_iff in Hen | apply geb_false_iff in Hen];
    cbn [Game._spawn_enemy Game.life_sphere_spawn_timer Game.with_enemy_spawn_timer
         Game.with_life_sphere_spawn_timer Game.with_enemies Game.camera Game.enemies];
    (destruct (Game.life_sphere_spawn_timer g + dt >=? Config.LIFE_SPHERE_SPAWN_INTERVAL)
       eqn:Hsp;
     [apply geb_true_iff in Hsp | apply geb_false_iff in Hsp]);
    cbn [Game._spawn_life_sphere Game._spawn_enemy Game.life_sphere_spawn_timer
         Game.enemy_spawn_timer Game.with_enemy_spawn_timer
         Game.with_life_sphere_spawn_timer Game.with_enemies Game.with_life_spheres
         Game.camera Game.enemies Game.life_spheres Game.player Game.projectiles
         Game.meteorites Game.score];
    fold camera;
    (split; [intros Hlt; first [lra | split; reflexivity] |]);
    (split; [intros Hge;
             first [lra
                   | split; [reflexivity |];
                     eexists; split; [reflexivity |]; split; [reflexivity |];
                     split; [reflexivity | exact Henemy]] |]);
    (split; [intros Hlt; first [lra | split; reflexivity] |]);
    (split; [intros Hge;
             first [lra
                   | split; [reflexivity |];
                     eexists; split; [reflexivity |]; split; [reflexivity |];
                     split; [reflexivity | exact Hsphere]] |]);
    repeat split.
Qed.

Lemma update_spawning_one_each_witness :
  Game.enemy_spawn_timer (Game._update_spawning 100 quiet_env seeded_game) = 0.
Proof.
  destruct (update_spawning_one_each 100 quiet_env seeded_game) as (_ & Hdue & _).
  apply Hdue. cbn. unfold Config.ENEMY_SPAWN_INTERVAL. lra.
Defined.

(** ** Restart *)

(** X20. [_restart_game()] puts the game in the state of a new game
    (with the meteorites of its own draws) in everything but three
    fields that it leaves as they are: [running], the set of keys held
    and the cockpit sway. *)
Theorem restart_game_is_new_game (seeds : nat -> MeteoriteSeed) (g : Game.t) :
  Game._restart_game seeds g
  = Game.with_cockpit_sway (Game.cockpit_sway g)
      (Game.with_keys_pressed (Game.keys_pressed g)
         (Game.with_running (Game.running g) (Game.init seeds))).
Proof. reflexivity. Qed.

(** ** Keys *)

Lemma key_in_add (k key : Z) (keys : list Z) :
  Game.key_in k (Game.key_add key keys) = (k =? key)%Z || Game.key_in k keys.
Proof.
  unfold Game.key_add. destruct (Game.key_in key keys) eqn:Hin.
  - destruct (k =? key)%Z eqn:Hk; [| reflexivity].
    apply Z.eqb_eq in Hk. subst k. rewrite Hin. reflexivity.
  - reflexivity.
Qed.

Lemma key_in_remove (k key : Z) (keys : list Z) :
  Game.key_in k (Game.key_remove key keys) = negb (k =? key)%Z && Game.key_in k keys.
Proof.
  unfold Game.key_in, Game.key_remove.
  induction keys as [| a keys IH]; cbn [filter existsb];
    [symmetry; apply andb_false_r |].
  destruct (key =? a)%Z eqn:Hka; cbn [negb existsb].
  - apply Z.eqb_eq in Hka. subst a. rewrite IH.
    destruct (k =? key)%Z; reflexivity.
  - rewrite IH. destruct (k =? a)%Z eqn:Hk; [| reflexivity].
    apply Z.eqb_eq in Hk. subst a. rewrite Z.eqb_sym, Hka. reflexivity.
Qed.

Lemma handle_event_keys (seeds : nat -> MeteoriteSeed) (event : Event) (g : Game.t) :
  Game.keys_pressed (Game.handle_event seeds event g)
  = match event with
    | KEYDOWN key => Game.key_add key (Game.keys_pressed g)
    | KEYUP key =>
        if Game.key_in key (Game.keys_pressed g)
        then Game.key_remove key (Game.keys_pressed g) else Game.keys_pressed g
    | _ => Game.keys_pressed g
    end.
Proof.
  destruct event as [| key | key | dx dy | w h |]; cbn [Game.handle_event];
    try reflexivity.
  - cbn [Game.with_keys_pressed Game.keys_pressed].
    repeat case_if; try reflexivity.
    all: unfold Game._shoot_player_laser;
      destruct (Player.shoot (Game.player g)) as [[|] p]; reflexivity.
  - destruct (Game.key_in key (Game.keys_pressed g)); reflexivity.
  - destruct (_ && _); reflexivity.
Qed.

(** X21. [keys_pressed] follows the keyboard: after a [KEYDOWN] of a
    key the key is in the set, after a [KEYUP] it is not, and whether
    any other key is in the set is not changed by either; a [KEYUP] of
    a key that is not in the set changes nothing.  No other event
    changes the set, and the keys stay in it across a restart of the
    game. *)
Theorem keys_pressed_follow_keyboard
  (seeds : nat -> MeteoriteSeed) (key other : Z) (g : Game.t) :
  let keys (g : Game.t) := Game.keys_pressed g in
  Game.key_in key (keys (Game.handle_event seeds (KEYDOWN key) g)) = true /\
  Game.key_in key (keys (Game.handle_event seeds (KEYUP key) g)) = false /\
  (other <> key ->
   Game.key_in other (keys (Game.handle_event seeds (KEYDOWN key) g))
   = Game.key_in other (keys g) /\
   Game.key_in other (keys (Game.handle_event seeds (KEYUP key) g))
   = Game.key_in other (keys g)) /\
  (Game.key_in key (keys g) = false ->
   Game.handle_event seeds (KEYUP key) g = g) /\
  (forall event : Event,
     (forall k : Z, event <> KEYDOWN k /\ event <> KEYUP k) ->
     keys (Game.handle_event seeds event g) = keys g) /\
  keys (Game._restart_game seeds g) = keys g.
Proof.
  intros keys. subst keys. cbv beta.
  rewrite !handle_event_keys.
  split; [| split; [| split; [| split; [| split]]]].
  - rewrite key_in_add, Z.eqb_refl. reflexivity.
  - destruct (Game.key_in key (Game.keys_pressed g)) eqn:Hin; [| exact Hin].
    rewrite key_in_remove, Z.eqb_refl. reflexivity.
  - intros Hne. apply Z.eqb_neq in Hne. split.
    + rewrite key_in_add, Hne. reflexivity.
    + destruct (Game.key_in key (Game.keys_pressed g)); [| reflexivity].
      rewrite key_in_remove, Hne. reflexivity.
  - intros Hout. cbn [Game.handle_event]. rewrite Hout. reflexivity.
  - intros event Hother. rewrite handle_event_keys.
    destruct event as [| k | k | dx dy | w h |]; try reflexivity;
      destruct (Hother k) as [Hd Hu]; contradiction.
  - reflexivity.
Qed.

Lemma keys_pressed_follow_keyboard_witness :
  Game.key_in K_a
    (Game.keys_pressed (Game.handle_event (fun _ => still_seed) (KEYDOWN K_w) seeded_game))
  = Game.key_in K_a (Game.keys_pressed seeded_game).
Proof.
  destruct (keys_pressed_follow_keyboard (fun _ => still_seed) K_w K_a seeded_game)
    as (_ & _ & Hother & _).
  apply Hother. unfold K_a, K_w. lia.
Defined.

(** ** Paused and game-over frames *)

Lemma same_but_input_refl (g : Game.t) : same_but_input g g.
Proof. unfold same_but_input. destruct g; reflexivity. Qed.

Lemma same_but_input_trans (g1 g2 g3 : Game.t) :
  same_but_input g1 g2 -> same_but_input g2 g3 -> same_but_input g1 g3.
Proof.
  unfold same_but_input. intros H12 H23. rewrite H23 at 1. rewrite H12 at 1.
  destruct g1; reflexivity.
Qed.

Lemma same_but_input_flags (g g' : Game.t) :
  same_but_input g g' ->
  Game.paused g' = Game.paused g /\ Game.game_over g' = Game.game_over g.
Proof. unfold same_but_input. intros ->. split; reflexivity. Qed.

Lemma handle_event_frozen (seeds : nat -> MeteoriteSeed) (event : Event) (g : Game.t) :
  (Game.game_over g = true /\ event <> KEYDOWN K_r) \/
  (Game.game_over g = false /\ Game.paused g = true /\ event <> KEYDOWN K_ESCAPE) ->
  same_but_input g (Game.handle_event seeds event g).
Proof.
  unfold same_but_input. intros Hfrozen.
  destruct event as [| key | key | dx dy | w h |]; cbn [Game.handle_event].
  - destruct g; reflexivity.
  - destruct Hfrozen as [[Hover Hno] | (Hover & Hpaused & Hno)]; rewrite Hover.
    + destruct (key =? K_ESCAPE)%Z; [destruct g; reflexivity |].
      destruct (key =? K_r)%Z eqn:Hr.
      * apply Z.eqb_eq in Hr. subst key. contradiction.
      * cbn [andb negb]. rewrite andb_false_r. destruct g; reflexivity.
    + destruct (key =? K_ESCAPE)%Z eqn:Hesc.
      * apply Z.eqb_eq in Hesc. subst key. contradiction.
      * rewrite Hpaused. cbn [andb negb]. rewrite !andb_false_r. destruct g; reflexivity.
  - destruct (Game.key_in key (Game.keys_pressed g)); destruct g; reflexivity.
  - destruct Hfrozen as [[Hover Hno] | (Hover & Hpaused & Hno)].
    + rewrite Hover, andb_false_r. destruct g; reflexivity.
    + rewrite Hpaused. cbn [andb negb]. destruct g; reflexivity.
  - destruct g; reflexivity.
  - destruct g; reflexivity.
Qed.

Lemma handle_events_frozen (seeds : nat -> MeteoriteSeed) (events : list Event) :
  forall g : Game.t,
    (Game.game_over g = true /\ ~ In (KEYDOWN K_r) events) \/
    (Game.game_over g = false /\ Game.paused g = true /\ ~ In (KEYDOWN K_ESCAPE) events) ->
    same_but_input g (Game.handle_events seeds events g).
Proof.
  unfold Game.handle_events.
  induction events as [| event events IH]; intros g Hfrozen; cbn [fold_left].
  - apply same_but_input_refl.
  - assert (Hstep : same_but_input g (Game.handle_event seeds event g)).
    { apply handle_event_frozen.
      destruct Hfrozen as [[Hover Hno] | (Hover & Hpaused & Hno)].
      - left. split; [assumption |]. intros ->. apply Hno. left. reflexivity.
      - right. split; [assumption | split; [assumption |]].
        intros ->. apply Hno. left. reflexivity. }
    destruct (same_but_input_flags _ _ Hstep) as [Hp Ho].
    apply (same_but_input_trans _ _ _ Hstep). apply IH.
    rewrite Hp, Ho.
    destruct Hfrozen as [[Hover Hno] | (Hover & Hpaused & Hno)].
    + left. split; [assumption |]. intros Hin. apply Hno. right. assumption.
    + right. split; [assumption | split; [assumption |]].
      intros Hin. apply Hno. right. assumption.
Qed.

(** X22. While the game is over, a frame whose events hold no
    key-down of R changes nothing of the game but [running] and the set
    of keys held: no entity moves, nothing is spawned, the score and
    the camera stay, whatever [dt], the keys and the mouse do.  The
    same holds while the game is paused (and not over) for a frame
    whose events hold no key-down of Escape. *)
Theorem frozen_frame
  (dt : R) (events : list Event) (seeds : nat -> MeteoriteSeed) (env : Env) (g : Game.t) :
  (Game.game_over g = true /\ ~ In (KEYDOWN K_r) events) \/
  (Game.game_over g = false /\ Game.paused g = true /\ ~ In (KEYDOWN K_ESCAPE) events) ->
  let g' := Game.frame dt events seeds env g in
  g' = Game.with_keys_pressed (Game.keys_pressed g') (Game.with_running (Game.running g') g).
Proof.
  intros Hfrozen g'.
  pose proof (handle_events_frozen seeds events g Hfrozen) as Hevents.
  destruct (same_but_input_flags _ _ Hevents) as [Hp Ho].
  assert (Hstop : Game.paused (Game.handle_events seeds events g)
                  || Game.game_over (Game.handle_events seeds events g) = true).
  { rewrite Hp, Ho.
    destruct Hfrozen as [[Hover _] | (_ & Hpaused & _)];
      [rewrite Hover; apply orb_true_r | rewrite Hpaused; reflexivity]. }
  assert (Hframe : g' = Game.handle_events seeds events g).
  { subst g'. unfold Game.frame, Game.update, Game.handle_movement.
    rewrite Hstop. cbn iota. rewrite Hstop. reflexivity. }
  rewrite Hframe. exact Hevents.
Qed.

(** The game-over screen: the mouse moves, the player presses the fire
    key, ten seconds pass. *)
Lemma frozen_frame_witness :
  let g := Game.with_game_over true seeded_game in
  let g' := Game.frame 10 [MOUSEMOTION 5 5; KEYDOWN K_SPACE] (fun _ => still_seed)
                       quiet_env g in
  g' = Game.with_keys_pressed (Game.keys_pressed g') (Game.with_running (Game.running g') g).
Proof.
  intros g.
  apply (frozen_frame 10 [MOUSEMOTION 5 5; KEYDOWN K_SPACE] (fun _ => still_seed) quiet_env g).
  left. split; [reflexivity |].
  intros [H | [H | H]]; [discriminate H | | contradiction H].
  injection H as H. unfold K_SPACE, K_r in H. lia.
Defined.

(** ** Movement *)

Lemma handle_movement_running (dt : R) (g : Game.t) :
  Game.paused g || Game.game_over g = false ->
  let moved :=
    Vector3.add
      (Vector3.add (Camera.position (Game.camera g))
         (Vector3.mul (Camera.front (Game.camera g))
                      (Config.PLAYER_SPEED * dt * (held K_w g - held K_s g))))
      (Vector3.mul (Camera.right (Game.camera g))
                   (Config.PLAYER_STRAFE_SPEED * dt * (held K_d g - held K_a g))) in
  Camera.position (Game.camera (Game.handle_movement dt g)) = moved /\
  Game.handle_movement dt g
  = Game.with_player
      (Player.with_base
         (Entity.with_position
            (Camera.position (Game.camera (Game.handle_movement dt g)))
            (Player.base (Game.player g)))
         (Game.player g))
      (Game.with_camera
         (Camera.with_position (Camera.position (Game.camera (Game.handle_movement dt g)))
                               (Game.camera g)) g).
Proof.
  intros Hrun moved. subst moved. unfold Game.handle_movement, held.
  rewrite Hrun. cbv zeta.
  destruct (Game.key_in K_w (Game.keys_pressed g));
    cbn [Game.keys_pressed Game.with_camera Game.camera];
    destruct (Game.key_in K_s (Game.keys_pressed g));
    cbn [Game.keys_pressed Game.with_camera Game.camera];
    destruct (Game.key_in K_a (Game.keys_pressed g));
    cbn [Game.keys_pressed Game.with_camera Game.camera];
    destruct (Game.key_in K_d (Game.keys_pressed g));
    cbn [Game.keys_pressed Game.with_camera Game.camera Game.with_player Game.player];
    unfold Camera.move_forward, Camera.move_backward, Camera.move_left, Camera.move_right;
    cbn [Camera.position Camera.with_position Camera.front Camera.right];
    rewrite ?copy_id;
    (split;
     [apply vec_eq; unfold Vector3.add, Vector3.sub, Vector3.mul;
      cbn [Vector3.x Vector3.y Vector3.z]; ring
     | destruct g as [c ? ? ? ? ? ? ? ? ? ? ? ? ? ? ? ? ? ?]; destruct c; reflexivity]).
Qed.



(** ** Contact of the player with enemies and life spheres *)

Lemma check_collision_same_sphere_left (a a' b : Entity.t) :
  Entity.position a' = Entity.position a -> Entity.radius a' = Entity.radius a ->
  CollisionSystem.check_collision a' b = CollisionSystem.check_collision a b.
Proof.
  intros Hp Hr. unfold CollisionSystem.check_collision, Entity.get_radius.
  rewrite Hp, Hr. reflexivity.
Qed.

Lemma take_damage_sphere (p : Player.t) :
  Entity.position (Player.base (Player.take_damage p)) = Entity.position (Player.base p) /\
  Entity.radius (Player.base (Player.take_damage p)) = Entity.radius (Player.base p) /\
  Entity.velocity (Player.base (Player.take_damage p)) = Entity.velocity (Player.base p).
Proof. unfold Player.take_damage. cbn. destruct (_ <=? _)%Z; repeat split. Qed.

Lemma touches_take_damage (g : Game.t) (e : Entity.t) :
  touches (Game.with_player (Player.take_damage (Game.player g)) g) e = touches g e.
Proof.
  unfold touches. cbn [Game.player Game.with_player].
  apply check_collision_same_sphere_left; apply take_damage_sphere.
Qed.

Lemma touches_add_life (g : Game.t) (e : Entity.t) :
  touches (Game.with_player (Player.add_life (Game.player g)) g) e = touches g e.
Proof. reflexivity. Qed.

Lemma with_player_twice (p q : Player.t) (g : Game.t) :
  Game.with_player p (Game.with_player q g) = Game.with_player p g.
Proof. reflexivity. Qed.

Lemma with_player_same (g : Game.t) : Game.with_player (Game.player g) g = g.
Proof. destruct g; reflexivity. Qed.

Lemma player_enemy_loop (enemies : list Enemy.t) :
  forall g : Game.t,
    for_each Game.player_enemy enemies g
    = (map (fun e => if touches g (Enemy.base e) then Enemy.destroy e else e) enemies,
       Game.with_player
         (Nat.iter (List.length (filter (fun e => touches g (Enemy.base e)) enemies))
                   Player.take_damage (Game.player g)) g).
Proof.
  induction enemies as [| e rest IH]; intros g; cbn [for_each map filter].
  - cbn. rewrite with_player_same. reflexivity.
  - unfold Game.player_enemy at 1. fold (touches g (Enemy.base e)).
    destruct (touches g (Enemy.base e)) eqn:Hhit.
    + rewrite IH.
      rewrite (map_ext _ (fun e0 => if touches g (Enemy.base e0) then Enemy.destroy e0 else e0))
        by (intros e0; rewrite touches_take_damage; reflexivity).
      rewrite (filter_ext _ (fun e0 => touches g (Enemy.base e0)))
        by (intros e0; apply touches_take_damage).
      cbn [Game.player Game.with_player List.length]. rewrite with_player_twice.
      rewrite Nat.iter_succ_r. reflexivity.
    + rewrite IH. reflexivity.
Qed.

Lemma player_life_sphere_loop (spheres : list LifeSphere.t) :
  forall g : Game.t,
    for_each Game.player_life_sphere spheres g
    = (map (fun s => if touches g (LifeSphere.base s) then LifeSphere.collect s else s) spheres,
       Game.with_player
         (Nat.iter (List.length (filter (fun s => touches g (LifeSphere.base s)) spheres))
                   Player.add_life (Game.player g)) g).
Proof.
  induction spheres as [| s rest IH]; intros g; cbn [for_each map filter].
  - cbn. rewrite with_player_same. reflexivity.
  - unfold Game.player_life_sphere at 1. fold (touches g (LifeSphere.base s)).
    destruct (touches g (LifeSphere.base s)) eqn:Hhit.
    + rewrite IH.
      change (fun s0 : LifeSphere.t =>
                touches (Game.with_player (Player.add_life (Game.player g)) g)
                        (LifeSphere.base s0))
        with (fun s0 : LifeSphere.t => touches g (LifeSphere.base s0)).
      change (fun s0 : LifeSphere.t =>
                if touches (Game.with_player (Player.add_life (Game.player g)) g)
                           (LifeSphere.base s0)
                then LifeSphere.collect s0 else s0)
        with (fun s0 : LifeSphere.t =>
                if touches g (LifeSphere.base s0) then LifeSphere.collect s0 else s0).
      cbn [Game.player Game.with_player List.length]. rewrite with_player_twice.
      rewrite Nat.iter_succ_r. reflexivity.
    + rewrite IH. reflexivity.
Qed.

Lemma iter_take_damage_lives (n : nat) (p : Player.t) :
  Player.lives (Nat.iter n Player.take_damage p) = (Player.lives p - Z.of_nat n)%Z.
Proof.
  induction n as [| n IH]; [cbn; lia |].
  rewrite Nat.iter_succ.
  change (Player.take_damage (Nat.iter n Player.take_damage p))
    with (apply_op OpTakeDamage (Nat.iter n Player.take_damage p)).
  rewrite apply_op_lives, IH. lia.
Qed.

Lemma iter_add_life_lives (n : nat) (p : Player.t) :
  Player.lives (Nat.iter n Player.add_life p) = (Player.lives p + Z.of_nat n)%Z.
Proof.
  induction n as [| n IH]; [cbn; lia |].
  rewrite Nat.iter_succ. unfold Player.add_life at 1. cbn [Player.lives Player.with_lives].
  rewrite IH. lia.
Qed.

(** X24. The two passes of [_handle_collisions] for the body of the
    player against the entities are maps: every enemy whose sphere
    overlaps that of the player is destroyed and every other enemy is
    left as it is, and the player loses one life per enemy destroyed;
    every life sphere that overlaps the player is collected and gives
    one life.  Nothing else of the game changes in these passes: the
    score stays, so an enemy destroyed by ramming scores nothing. *)
Theorem player_contact_passes
  (enemies : list Enemy.t) (spheres : list LifeSphere.t) (g : Game.t) :
  let rammed := filter (fun e => touches g (Enemy.base e)) enemies in
  let picked := filter (fun s => touches g (LifeSphere.base s)) spheres in
  for_each Game.player_enemy enemies g
  = (map (fun e => if touches g (Enemy.base e) then Enemy.destroy e else e) enemies,
     Game.with_player
       (Nat.iter (List.length rammed) Player.take_damage (Game.player g)) g) /\
  Player.lives (Game.player (snd (for_each Game.player_enemy enemies g)))
  = (Player.lives (Game.player g) - Z.of_nat (List.length rammed))%Z /\
  Game.score (snd (for_each Game.player_enemy enemies g)) = Game.score g /\
  for_each Game.player_life_sphere spheres g
  = (map (fun s => if touches g (LifeSphere.base s) then LifeSphere.collect s else s) spheres,
     Game.with_player
       (Nat.iter (List.length picked) Player.add_life (Game.player g)) g) /\
  Player.lives (Game.player (snd (for_each Game.player_life_sphere spheres g)))
  = (Player.lives (Game.player g) + Z.of_nat (List.length picked))%Z.
Proof.
  intros rammed picked. subst rammed picked.
  rewrite player_enemy_loop, player_life_sphere_loop. cbn [snd Game.player Game.with_player
                                                           Game.score].
  split; [reflexivity | split; [apply iter_take_damage_lives | split; [reflexivity |]]].
  split; [reflexivity | apply iter_add_life_lives].
Qed.

(** ** Enemy projectiles *)

Lemma enemy_not_player (projectile : Projectile.t) :
  Projectile.is_enemy_projectile projectile = true ->
  Projectile.is_player_projectile projectile = false.
Proof.
  unfold Projectile.is_enemy_projectile, Projectile.is_player_projectile.
  intros H. apply String.eqb_eq in H. rewrite H. reflexivity.
Qed.

Lemma with_meteorites_same (g : Game.t) : Game.with_meteorites (Game.meteorites g) g = g.
Proof. destruct g; reflexivity. Qed.

Lemma destroy_twice (projectile : Projectile.t) :
  Projectile.destroy (Projectile.destroy projectile) = Projectile.destroy projectile.
Proof. reflexivity. Qed.

(** X25. In the collision phase a projectile of an enemy can do two
    things only: take one life from the player, when its sphere
    overlaps that of the player, and be destroyed, when it hit the
    player or overlaps a meteorite.  It never changes an enemy, a life
    sphere, a meteorite or the score.  A projectile whose owner is
    neither the player nor an enemy is not tested against anything. *)
Theorem enemy_projectile_effects (projectile : Projectile.t) (g : Game.t) :
  let hit := hits projectile (Player.base (Game.player g)) in
  let blocked := existsb (fun m => hits projectile (Meteorite.base m)) (Game.meteorites g) in
  (Projectile.is_enemy_projectile projectile = true ->
   Game.projectile_collisions projectile g
   = (if hit || blocked then Projectile.destroy projectile else projectile,
      if hit then Game.with_player (Player.take_damage (Game.player g)) g else g)) /\
  (Projectile.is_player_projectile projectile = false ->
   Projectile.is_enemy_projectile projectile = false ->
   Game.projectile_collisions projectile g = (projectile, g)).
Proof.
  intros hit blocked. subst hit blocked. split.
  - intros Henemy. unfold Game.projectile_collisions.
    rewrite (enemy_not_player _ Henemy), Henemy.
    fold (hits projectile (Player.base (Game.player g))).
    destruct (hits projectile (Player.base (Game.player g)));
      rewrite meteorites_loop; cbn [Game.meteorites Game.with_player orb];
      change (hits (Projectile.destroy projectile)) with (hits projectile);
      destruct (existsb (fun m => hits projectile (Meteorite.base m)) (Game.meteorites g));
      destruct g; reflexivity.
  - intros Hnp Hne. unfold Game.projectile_collisions. rewrite Hnp, Hne. reflexivity.
Qed.

Lemma projectile_init_owner (position direction : Vec) (owner_type : string) :
  Projectile.owner_type (Projectile.init position direction owner_type) = owner_type.
Proof.
  unfold Projectile.init. cbv zeta.
  match goal with
  | |- context [Projectile._set_rotation_from_direction ?p0] =>
      destruct (set_rotation_base p0) as (_ & _ & _ & _ & _ & Howner & _)
  end.
  rewrite Howner. reflexivity.
Qed.

(** A laser of an enemy that reaches the player of a new game. *)
Lemma enemy_projectile_effects_witness :
  let laser := Projectile.init (Vector3.mk 0 0 0) (Vector3.mk 0 0 1) "enemy" in
  Game.enemies (snd (Game.projectile_collisions laser seeded_game)) = Game.enemies seeded_game /\
  Game.score (snd (Game.projectile_collisions laser seeded_game)) = Game.score seeded_game.
Proof.
  intros laser.
  destruct (enemy_projectile_effects laser seeded_game) as [Henemy _].
  rewrite Henemy
    by (unfold Projectile.is_enemy_projectile, laser; rewrite projectile_init_owner;
        reflexivity).
  cbn [snd]. destruct (hits laser (Player.base (Game.player seeded_game))); split; reflexivity.
Defined.

(** ** Invariants of the game *)

(** *** Loops that keep a property of the state and of the elements *)

Lemma for_each_inv {A S : Type} (P : S -> Prop) (Q : A -> Prop) (body : A -> S -> A * S) :
  (forall a s, Q a -> P s -> Q (fst (body a s)) /\ P (snd (body a s))) ->
  forall l s, Forall Q l -> P s ->
              Forall Q (fst (for_each body l s)) /\ P (snd (for_each body l s)).
Proof.
  intros Hbody l. induction l as [| a rest IH]; intros s Hl Hs; cbn [for_each].
  - split; [constructor | assumption].
  - inversion Hl as [| a0 l0 Ha Hrest]; subst.
    destruct (Hbody a s Ha Hs) as [Ha' Hs'].
    destruct (body a s) as [a' s']. cbn [fst snd] in Ha', Hs'.
    destruct (IH s' Hrest Hs') as [Hrest' Hs''].
    destruct (for_each body rest s') as [rest' s'']. cbn [fst snd] in *.
    split; [constructor; assumption | assumption].
Qed.

Lemma for_each_break_inv {A S : Type} (P : S -> Prop) (Q : A -> Prop)
  (body : A -> S -> A * S * bool) :
  (forall a s, Q a -> P s -> Q (fst (fst (body a s))) /\ P (snd (fst (body a s)))) ->
  forall l s, Forall Q l -> P s ->
              Forall Q (fst (for_each_break body l s)) /\ P (snd (for_each_break body l s)).
Proof.
  intros Hbody l. induction l as [| a rest IH]; intros s Hl Hs; cbn [for_each_break].
  - split; [constructor | assumption].
  - inversion Hl as [| a0 l0 Ha Hrest]; subst.
    destruct (Hbody a s Ha Hs) as [Ha' Hs'].
    destruct (body a s) as [[a' s'] broke]. cbn [fst snd] in Ha', Hs'.
    destruct broke.
    + cbn [fst snd]. split; [constructor; assumption | assumption].
    + destruct (IH s' Hrest Hs') as [Hrest' Hs''].
      destruct (for_each_break body rest s') as [rest' s'']. cbn [fst snd] in *.
      split; [constructor; assumption | assumption].
Qed.

Lemma map_indexed_Forall {A B : Type} (Q : A -> Prop) (Q' : B -> Prop) (f : nat -> A -> B) :
  (forall i a, Q a -> Q' (f i a)) ->
  forall l i, Forall Q l -> Forall Q' (map_indexed f i l).
Proof.
  intros Hf l. induction l as [| a rest IH]; intros i Hl; cbn [map_indexed]; [constructor |].
  inversion Hl; subst. constructor; [apply Hf; assumption | apply IH; assumption].
Qed.

Lemma Forall_map_keep {A : Type} (Q : A -> Prop) (f : A -> A) (l : list A) :
  (forall a, Q a -> Q (f a)) -> Forall Q l -> Forall Q (map f l).
Proof.
  intros Hf Hl. induction Hl as [| a rest Ha _ IH]; cbn [map]; constructor; auto.
Qed.

Lemma Forall_filter_keep {A : Type} (Q : A -> Prop) (f : A -> bool) (l : list A) :
  Forall Q l -> Forall Q (filter f l) /\ Forall (fun a => f a = true) (filter f l).
Proof.
  intros Hl. induction Hl as [| a rest Ha _ [IH1 IH2]]; cbn [filter].
  - split; constructor.
  - destruct (f a) eqn:Hfa; [| split; assumption].
    split; constructor; assumption.
Qed.

Lemma Forall_snoc {A : Type} (Q : A -> Prop) (l : list A) (a : A) :
  Forall Q l -> Q a -> Forall Q (l ++ [a]).
Proof. intros Hl Ha. apply Forall_app. split; [assumption | constructor; [assumption | constructor]]. Qed.

(** *** The entities *)

Lemma player_ok_init (position : option Vec) : player_ok (Player.init position).
Proof.
  unfold player_ok, shoot_state_ok, Player.init, Player.init_with, Player.is_alive,
    Config.PLAYER_SHOOT_COOLDOWN, Config.PLAYER_STARTING_LIVES. cbn.
  repeat split; intros; try lra; try lia; reflexivity.
Qed.

Lemma apply_op_keeps_a_life (op : PlayerOp) (p : Player.t) :
  (Player.is_alive p = true -> (1 <= Player.lives p)%Z) ->
  Player.is_alive (apply_op op p) = true -> (1 <= Player.lives (apply_op op p))%Z.
Proof.
  intros Hinv. rewrite apply_op_alive, apply_op_lives.
  destruct op; try assumption.
  - destruct (Player.lives p - 1 <=? 0)%Z eqn:Hle; [discriminate |].
    intros _. apply Z.leb_gt in Hle. lia.
  - intros Hal. specialize (Hinv Hal). lia.
Qed.

Lemma player_ok_op (op : PlayerOp) (p : Player.t) :
  match op with OpUpdate dt => 0 <= dt | _ => True end ->
  player_ok p -> player_ok (apply_op op p).
Proof.
  intros Hdt (Hvel & Hrad & Hshoot & Hlives).
  split; [| split; [| split; [apply shoot_state_op; assumption |]]].
  - destruct op as [dt | | |]; cbn [apply_op].
    + destruct (player_update_fields dt p) as (_ & -> & _). exact Hvel.
    + unfold Player.shoot. destruct (Player.can_shoot p); exact Hvel.
    + rewrite (proj2 (proj2 (take_damage_sphere p))). exact Hvel.
    + exact Hvel.
  - destruct op as [dt | | |]; cbn [apply_op].
    + destruct (player_update_fields dt p) as (_ & -> & _). exact Hrad.
    + unfold Player.shoot. destruct (Player.can_shoot p); exact Hrad.
    + rewrite (proj1 (proj2 (take_damage_sphere p))). exact Hrad.
    + exact Hrad.
  - apply apply_op_keeps_a_life. exact Hlives.
Qed.

Lemma player_ok_update (dt : R) (p : Player.t) :
  0 <= dt -> player_ok p -> player_ok (Player.update dt p).
Proof. intros Hdt. apply (player_ok_op (OpUpdate dt)). exact Hdt. Qed.

Lemma player_ok_take_damage (p : Player.t) : player_ok p -> player_ok (Player.take_damage p).
Proof. apply (player_ok_op OpTakeDamage). exact I. Qed.

Lemma player_ok_add_life (p : Player.t) : player_ok p -> player_ok (Player.add_life p).
Proof. apply (player_ok_op OpAddLife). exact I. Qed.

Lemma player_ok_shoot (p : Player.t) : player_ok p -> player_ok (snd (Player.shoot p)).
Proof. apply (player_ok_op OpShoot). exact I. Qed.

Lemma player_ok_moved (q : Vec) (p : Player.t) :
  player_ok p -> player_ok (Player.with_base (Entity.with_position q (Player.base p)) p).
Proof. intros H. exact H. Qed.

Lemma player_update_position (dt : R) (p : Player.t) :
  Entity.velocity (Player.base p) = Vector3.mk 0 0 0 ->
  Entity.position (Player.base (Player.update dt p)) = Entity.position (Player.base p).
Proof.
  intros Hvel. destruct (player_update_fields dt p) as (_ & -> & _).
  unfold Entity.update. cbn [Entity.position Entity.with_position]. rewrite Hvel.
  apply vec_eq; unfold Vector3.add, Vector3.mul; cbn [Vector3.x Vector3.y Vector3.z]; ring.
Qed.

Lemma update_vectors_idempotent (c : Camera.t) :
  Camera.update_vectors (Camera.update_vectors c) = Camera.update_vectors c.
Proof. reflexivity. Qed.

Lemma camera_ok_init (position : option Vec) : camera_ok (Camera.init position (-90) 0).
Proof.
  unfold camera_ok, Camera.init. rewrite update_vectors_idempotent.
  split; [reflexivity | split; [| reflexivity]].
  cbn [Camera.update_vectors Camera.pitch Camera.with_up Camera.with_right Camera.with_front].
  unfold Config.CAMERA_YAW_LIMIT. lra.
Qed.

Lemma camera_ok_moved (q : Vec) (c : Camera.t) :
  camera_ok c -> camera_ok (Camera.with_position q c).
Proof.
  intros (Hup & Hpitch & Hvec). split; [exact Hup | split; [exact Hpitch |]].
  change (Camera.update_vectors (Camera.with_position q c))
    with (Camera.with_position q (Camera.update_vectors c)).
  rewrite Hvec. reflexivity.
Qed.

Lemma pitch_limit (x : R) :
  - Config.CAMERA_YAW_LIMIT
  <= clamp x (- Config.CAMERA_YAW_LIMIT) Config.CAMERA_YAW_LIMIT
  <= Config.CAMERA_YAW_LIMIT.
Proof. apply max_min_bounds. unfold Config.CAMERA_YAW_LIMIT. lra. Qed.

Lemma camera_ok_mouse (xoffset yoffset : R) (c : Camera.t) :
  camera_ok c -> camera_ok (Camera.process_mouse_movement xoffset yoffset true c).
Proof.
  intros (Hup & _ & _). unfold Camera.process_mouse_movement. cbv zeta.
  split; [exact Hup | split; [| apply update_vectors_idempotent]].
  cbn [Camera.update_vectors Camera.pitch Camera.with_up Camera.with_right Camera.with_front
       Camera.with_pitch Camera.with_yaw].
  apply pitch_limit.
Qed.

Lemma enemy_ok_init (position : option Vec) (timer0 : R) : enemy_ok (Enemy.init position timer0).
Proof. repeat split. Qed.

Lemma enemy_ok_update (dt : R) (player_position : Vec) (e : Enemy.t) :
  enemy_ok e -> enemy_ok (Enemy.update dt (Some player_position) e).
Proof.
  intros (Hpoints & Hrad & Hhealth).
  destruct (enemy_update_fields dt player_position e)
    as (_ & _ & _ & Hh & Hp & Ha & Hr).
  unfold enemy_ok. rewrite Hh, Hp, Ha, Hr. repeat split; assumption.
Qed.

Lemma enemy_ok_can_shoot (player_position : Vec) (e : Enemy.t) :
  enemy_ok e -> enemy_ok (snd (Enemy.can_shoot player_position e)).
Proof.
  intros Hok. destruct (can_shoot_cases e player_position) as [(_ & _ & ->) | (_ & ->)];
    exact Hok.
Qed.

Lemma enemy_ok_take_damage (e : Enemy.t) : enemy_ok e -> enemy_ok (Enemy.take_damage 1 e).
Proof.
  intros (Hpoints & Hrad & Hhealth).
  destruct (enemy_take_damage_fields 1 e) as (Hh & Ha & Hp & _).
  split; [rewrite Hp; exact Hpoints | split].
  - unfold Enemy.take_damage. cbn. destruct (_ <=? _)%Z; exact Hrad.
  - rewrite Ha, Hh. destruct (Enemy.health e - 1 <=? 0)%Z eqn:Hle; [discriminate |].
    intros Halive. apply Z.leb_gt in Hle. specialize (Hhealth Halive).
    unfold Config.ENEMY_HEALTH in *. lia.
Qed.

Lemma enemy_ok_destroy (e : Enemy.t) : enemy_ok e -> enemy_ok (Enemy.destroy e).
Proof.
  intros (Hpoints & Hrad & Hhealth). split; [exact Hpoints | split; [exact Hrad |]].
  intros Halive. discriminate Halive.
Qed.

Lemma sphere_ok_init (position : option Vec) : sphere_ok (LifeSphere.init position).
Proof. split; reflexivity. Qed.

Lemma sphere_ok_update (dt : R) (ticks : Z) (s : LifeSphere.t) :
  sphere_ok s -> sphere_ok (LifeSphere.update dt ticks s).
Proof.
  intros [Hrad Hcol]. unfold sphere_ok, LifeSphere.update, LifeSphere.is_alive,
    LifeSphere.is_collected, Entity.update, Entity.rotate in *.
  cbn. destruct (Entity.rotation (LifeSphere.base s)) as [[rx ry] rz]. cbn.
  split; assumption.
Qed.

Lemma sphere_ok_collect (s : LifeSphere.t) : sphere_ok s -> sphere_ok (LifeSphere.collect s).
Proof. intros [Hrad _]. split; [exact Hrad | reflexivity]. Qed.

Lemma projectile_ok_init (position direction : Vec) (owner_type : string) :
  owner_type = "player"%string \/ owner_type = "enemy"%string ->
  projectile_ok (Projectile.init position direction owner_type).
Proof.
  intros Howner. unfold Projectile.init. cbv zeta.
  match goal with
  | |- context [Projectile._set_rotation_from_direction ?p0] =>
      destruct (set_rotation_base p0)
        as (_ & Hvel & Hrad & Halive & _ & Hown & Hage & Hlife & _)
  end.
  unfold projectile_ok, Projectile.is_player_projectile, Projectile.is_enemy_projectile,
    Projectile.is_alive, Entity.is_alive.
  rewrite Hvel, Hrad, Halive, Hown, Hage, Hlife.
  cbn [Projectile.base Projectile.owner_type Projectile.age Projectile.lifetime
       Entity.with_radius Entity.with_velocity Entity.init Entity.velocity Entity.radius
       Entity.alive].
  split; [destruct Howner as [-> | ->]; [left | right]; reflexivity |].
  split; [reflexivity | split; [| split; [reflexivity |]]].
  - rewrite length_mul. unfold Config.LASER_SPEED. rewrite Rabs_pos_eq by lra.
    destruct (vec_eq_dec direction (Vector3.mk 0 0 0)) as [-> | Hnz].
    + rewrite normalize_zero.
      assert (Hz : Vector3.length (Vector3.mk 0 0 0) = 0) by (apply length_zero_iff; reflexivity).
      rewrite Hz. lra.
    + rewrite length_normalize by assumption. lra.
  - unfold Config.LASER_LIFETIME. split; [lra | intros; lra].
Qed.

Lemma projectile_ok_update (dt : R) (p : Projectile.t) :
  0 <= dt -> projectile_ok p -> projectile_ok (Projectile.update dt p).
Proof.
  intros Hdt (Howner & Hrad & Hspeed & Hlife & Hage & Hyoung).
  destruct (projectile_update_fields dt p) as (_ & Hv & Ha & Hl & Ho & Hal).
  unfold projectile_ok, Projectile.is_player_projectile, Projectile.is_enemy_projectile in *.
  rewrite Hv, Ha, Hl, Ho, Hal.
  split; [exact Howner | split; [| split; [exact Hspeed | split; [exact Hlife | split]]]].
  - unfold Projectile.update, Projectile.destroy. cbn. case_cmp; exact Hrad.
  - lra.
  - case_cmp; [discriminate | intros _; assumption].
Qed.

Lemma projectile_ok_destroy (p : Projectile.t) :
  projectile_ok p -> projectile_ok (Projectile.destroy p).
Proof.
  intros (Howner & Hrad & Hspeed & Hlife & Hage & Hyoung).
  split; [exact Howner | split; [exact Hrad | split; [exact Hspeed |]]].
  split; [exact Hlife | split; [exact Hage |]]. intros H. discriminate H.
Qed.

Lemma meteorite_ok_init (s : MeteoriteSeed) :
  seed_ok s ->
  meteorite_ok (Meteorite.init (Some (Vector3.mk (seed_x s) (seed_y s) (seed_z s)))
                               (seed_draw s)).
Proof.
  intros (_ & _ & _ & Hsize & _). split; [reflexivity | split; [reflexivity | exact Hsize]].
Qed.

Lemma meteorite_ok_update (dt : R) (m : Meteorite.t) :
  meteorite_ok m -> meteorite_ok (Meteorite.update dt m).
Proof.
  intros (Halive & Hrad & Hsize). split; [rewrite meteorite_update_alive; exact Halive |].
  unfold Meteorite.update, Entity.update, Entity.rotate. cbn.
  destruct (Meteorite.rotation_speed m) as [[s0 s1] s2]. cbn.
  destruct (Entity.rotation (Meteorite.base m)) as [[rx ry] rz]. cbn.
  split; assumption.
Qed.

Lemma seeded_meteorites_ok (seeds : nat -> MeteoriteSeed) :
  (forall i, seed_ok (seeds i)) ->
  Forall meteorite_ok (seeded_meteorites seeds) /\
  List.length (seeded_meteorites seeds) = Config.METEORITE_COUNT.
Proof.
  intros Hseeds. unfold seeded_meteorites. split.
  - apply Forall_map. apply Forall_forall. intros i _. apply meteorite_ok_init, Hseeds.
  - rewrite length_map, length_seq. reflexivity.
Qed.

(** *** The fields of the game *)

Lemma anchored_at (q : Vec) (p : Player.t) (c : Camera.t) :
  anchored (Player.with_base (Entity.with_position q (Player.base p)) p)
           (Camera.with_position q c).
Proof. left. reflexivity. Qed.

Lemma game_ok_init (seeds : nat -> MeteoriteSeed) :
  (forall i, seed_ok (seeds i)) -> game_ok (Game.init seeds) /\ settled (Game.init seeds).
Proof.
  intros Hseeds. destruct (seeded_meteorites_ok seeds Hseeds) as [Hms Hlen].
  split.
  - unfold game_ok. rewrite meteorites_init.
    cbn [Game.init Game._spawn_initial_meteorites Game.init_fields Game.with_meteorites
         Game.player Game.camera Game.enemies Game.life_spheres Game.projectiles
         Game.enemy_spawn_timer Game.life_sphere_spawn_timer Game.ship_roll
         Game.ship_pitch_offset].
    unfold Config.ENEMY_SPAWN_INTERVAL, Config.LIFE_SPHERE_SPAWN_INTERVAL,
      Config.MAX_SHIP_ROLL, Config.MAX_SHIP_PITCH_OFFSET.
    split; [apply player_ok_init |].
    split; [apply camera_ok_init |].
    split; [right; split; reflexivity |].
    split; [constructor |]. split; [constructor |]. split; [constructor |].
    split; [exact Hms |]. split; [exact Hlen |].
    split; [lra |]. split; [lra |]. split; lra.
  - repeat split; constructor.
Qed.


Ltac split_game :=
  split; [| split; [| split; [| split; [| split; [| split; [| split; [| split;
    [| split; [| split; [| split]]]]]]]]]].

Ltac game_fields :=
  cbn [Game.player Game.camera Game.enemies Game.life_spheres Game.projectiles Game.meteorites
       Game.enemy_spawn_timer Game.life_sphere_spawn_timer Game.ship_roll
       Game.ship_pitch_offset Game.game_over Game.paused Game.score Game.running
       Game.keys_pressed Game.cockpit_sway Game.previous_camera_yaw
       Game.previous_camera_pitch Game.ship_yaw_offset
       Game.with_player Game.with_camera Game.with_enemies Game.with_life_spheres
       Game.with_projectiles Game.with_meteorites Game.with_enemy_spawn_timer
       Game.with_life_sphere_spawn_timer Game.with_ship_roll Game.with_ship_pitch_offset
       Game.with_game_over Game.with_paused Game.with_score Game.with_running
       Game.with_keys_pressed Game.with_cockpit_sway Game.with_previous_camera_yaw
       Game.with_previous_camera_pitch Game.with_ship_yaw_offset].

Lemma game_ok_with_player (p : Player.t) (g : Game.t) :
  game_ok g -> player_ok p -> anchored p (Game.camera g) -> game_ok (Game.with_player p g).
Proof.
  intros (Hp & Hc & Ha & He & Hs & Hpr & Hm & Hlen & Het & Hlt & Hroll & Hpitch) Hp' Ha'.
  unfold game_ok. game_fields. split_game; assumption.
Qed.

Lemma game_ok_with_projectiles (ps : list Projectile.t) (g : Game.t) :
  game_ok g -> Forall projectile_ok ps -> game_ok (Game.with_projectiles ps g).
Proof.
  intros (Hp & Hc & Ha & He & Hs & Hpr & Hm & Hlen & Het & Hlt & Hroll & Hpitch) Hps.
  unfold game_ok. game_fields. split_game; assumption.
Qed.

Lemma game_ok_with_enemies (es : list Enemy.t) (g : Game.t) :
  game_ok g -> Forall enemy_ok es -> game_ok (Game.with_enemies es g).
Proof.
  intros (Hp & Hc & Ha & He & Hs & Hpr & Hm & Hlen & Het & Hlt & Hroll & Hpitch) Hes.
  unfold game_ok. game_fields. split_game; assumption.
Qed.

Lemma game_ok_with_life_spheres (ss : list LifeSphere.t) (g : Game.t) :
  game_ok g -> Forall sphere_ok ss -> game_ok (Game.with_life_spheres ss g).
Proof.
  intros (Hp & Hc & Ha & He & Hs & Hpr & Hm & Hlen & Het & Hlt & Hroll & Hpitch) Hss.
  unfold game_ok. game_fields. split_game; assumption.
Qed.

Lemma game_ok_with_meteorites (ms : list Meteorite.t) (g : Game.t) :
  game_ok g -> Forall meteorite_ok ms -> List.length ms = Config.METEORITE_COUNT ->
  game_ok (Game.with_meteorites ms g).
Proof.
  intros (Hp & Hc & Ha & He & Hs & Hpr & Hm & Hlen & Het & Hlt & Hroll & Hpitch) Hms Hl.
  unfold game_ok. game_fields. split_game; assumption.
Qed.

Lemma game_ok_with_camera (c : Camera.t) (g : Game.t) :
  game_ok g -> camera_ok c -> anchored (Game.player g) c -> game_ok (Game.with_camera c g).
Proof.
  intros (Hp & Hc & Ha & He & Hs & Hpr & Hm & Hlen & Het & Hlt & Hroll & Hpitch) Hc' Ha'.
  unfold game_ok. game_fields. split_game; assumption.
Qed.

(** Fields that [game_ok] does not read. *)
Lemma game_ok_same_fields (g g' : Game.t) :
  Game.player g' = Game.player g -> Game.camera g' = Game.camera g ->
  Game.enemies g' = Game.enemies g -> Game.life_spheres g' = Game.life_spheres g ->
  Game.projectiles g' = Game.projectiles g -> Game.meteorites g' = Game.meteorites g ->
  Game.enemy_spawn_timer g' = Game.enemy_spawn_timer g ->
  Game.life_sphere_spawn_timer g' = Game.life_sphere_spawn_timer g ->
  Game.ship_roll g' = Game.ship_roll g ->
  Game.ship_pitch_offset g' = Game.ship_pitch_offset g ->
  game_ok g -> game_ok g'.
Proof.
  unfold game_ok. intros -> -> -> -> -> -> -> -> -> ->. exact (fun H => H).
Qed.

Lemma settled_same_fields (g g' : Game.t) :
  Game.player g' = Game.player g -> Game.enemies g' = Game.enemies g ->
  Game.life_spheres g' = Game.life_spheres g -> Game.projectiles g' = Game.projectiles g ->
  Game.game_over g' = Game.game_over g ->
  settled g -> settled g'.
Proof. unfold settled. intros -> -> -> -> ->. exact (fun H => H). Qed.

(** *** Events *)

Lemma restart_ok (seeds : nat -> MeteoriteSeed) (g : Game.t) :
  (forall i, seed_ok (seeds i)) ->
  game_ok (Game._restart_game seeds g) /\ settled (Game._restart_game seeds g).
Proof.
  intros Hseeds. destruct (game_ok_init seeds Hseeds) as [Hok Hsettled].
  split.
  - apply (game_ok_same_fields (Game.init seeds)); try reflexivity. exact Hok.
  - apply (settled_same_fields (Game.init seeds)); try reflexivity. exact Hsettled.
Qed.

Lemma shoot_player_laser_fields (g : Game.t) :
  let g' := Game._shoot_player_laser g in
  Game.player g' = snd (Player.shoot (Game.player g)) /\
  (Game.projectiles g' = Game.projectiles g \/
   Game.projectiles g'
   = Game.projectiles g
     ++ [Projectile.init
           (Vector3.add (Camera.position (Game.camera g))
                        (Vector3.mul (Camera.get_forward_vector (Game.camera g)) 2))
           (Camera.get_forward_vector (Game.camera g)) "player"]) /\
  Game.camera g' = Game.camera g /\ Game.enemies g' = Game.enemies g /\
  Game.life_spheres g' = Game.life_spheres g /\ Game.meteorites g' = Game.meteorites g /\
  Game.enemy_spawn_timer g' = Game.enemy_spawn_timer g /\
  Game.life_sphere_spawn_timer g' = Game.life_sphere_spawn_timer g /\
  Game.ship_roll g' = Game.ship_roll g /\
  Game.ship_pitch_offset g' = Game.ship_pitch_offset g /\
  Game.game_over g' = Game.game_over g.
Proof.
  unfold Game._shoot_player_laser.
  destruct (Player.shoot (Game.player g)) as [[|] p]; cbn; repeat split; auto.
Qed.

Lemma shoot_player_laser_ok (g : Game.t) :
  game_ok g -> settled g ->
  game_ok (Game._shoot_player_laser g) /\ settled (Game._shoot_player_laser g).
Proof.
  intros (Hp & Hc & Ha & He & Hs & Hpr & Hm & Hlen & Het & Hlt & Hroll & Hpitch)
         (Hea & Hsa & Hpa & Hover).
  destruct (shoot_player_laser_fields g)
    as (Hplayer & Hprojectiles & Hcam & Hen & Hsp & Hme & H1 & H2 & H3 & H4 & H5).
  set (g' := Game._shoot_player_laser g) in *.
  assert (Hsame : Entity.position (Player.base (snd (Player.shoot (Game.player g))))
                  = Entity.position (Player.base (Game.player g)) /\
                  Player.is_alive (snd (Player.shoot (Game.player g)))
                  = Player.is_alive (Game.player g)).
  { unfold Player.shoot. destruct (Player.can_shoot (Game.player g)); split; reflexivity. }
  destruct Hsame as [Hposition Halive].
  assert (Hlaser : Forall projectile_ok (Game.projectiles g') /\
                   Forall (fun p => Projectile.is_alive p = true) (Game.projectiles g')).
  { destruct Hprojectiles as [-> | ->]; [split; assumption |].
    split; apply Forall_snoc; try assumption.
    - apply projectile_ok_init. left. reflexivity.
    - unfold Projectile.init. cbv zeta.
      match goal with
      | |- context [Projectile._set_rotation_from_direction ?p0] =>
          destruct (set_rotation_base p0) as (_ & _ & _ & Hal & _)
      end.
      unfold Projectile.is_alive, Entity.is_alive. rewrite Hal. reflexivity. }
  split.
  - unfold game_ok. rewrite Hplayer, Hcam, Hen, Hsp, Hme, H1, H2, H3, H4.
    split_game; try assumption.
    + apply player_ok_shoot. assumption.
    + unfold anchored in *. rewrite Hposition. exact Ha.
    + apply Hlaser.
  - unfold settled. rewrite Hplayer, Hen, Hsp, H5, Halive.
    split; [assumption | split; [assumption | split; [apply Hlaser | assumption]]].
Qed.

Lemma handle_event_ok (seeds : nat -> MeteoriteSeed) (event : Event) (g : Game.t) :
  (forall i, seed_ok (seeds i)) ->
  game_ok g -> settled g ->
  game_ok (Game.handle_event seeds event g) /\ settled (Game.handle_event seeds event g).
Proof.
  intros Hseeds Hok Hsettled.
  assert (Hkeys : forall (ks : list Z) (g0 : Game.t),
            game_ok g0 /\ settled g0 ->
            game_ok (Game.with_keys_pressed ks g0) /\ settled (Game.with_keys_pressed ks g0)).
  { intros ks g0 [H1 H2]. split; assumption. }
  destruct event as [| key | key | dx dy | w h |]; cbn [Game.handle_event].
  - split; assumption.
  - apply Hkeys.
    destruct (key =? K_ESCAPE)%Z.
    { destruct (Game.game_over g); split; assumption. }
    destruct ((key =? K_r)%Z && Game.game_over g); [apply restart_ok; assumption |].
    destruct ((key =? K_SPACE)%Z && negb (Game.paused g) && negb (Game.game_over g));
      [apply shoot_player_laser_ok; assumption | split; assumption].
  - destruct (Game.key_in key (Game.keys_pressed g)); split; assumption.
  - destruct (negb (Game.paused g) && negb (Game.game_over g)); [| split; assumption].
    split; [| exact Hsettled].
    destruct Hok as (Hp & Hc & Ha & He & Hs & Hpr & Hm & Hlen & Het & Hlt & Hroll & Hpitch).
    apply game_ok_with_camera.
    + unfold game_ok. split_game; assumption.
    + apply camera_ok_mouse. assumption.
    + exact Ha.
  - split; assumption.
  - split; assumption.
Qed.

Lemma handle_events_ok (seeds : nat -> MeteoriteSeed) (events : list Event) :
  (forall i, seed_ok (seeds i)) ->
  forall g : Game.t,
    game_ok g -> settled g ->
    game_ok (Game.handle_events seeds events g) /\ settled (Game.handle_events seeds events g).
Proof.
  intros Hseeds. unfold Game.handle_events.
  induction events as [| event events IH]; intros g Hok Hsettled; cbn [fold_left].
  - split; assumption.
  - destruct (handle_event_ok seeds event g Hseeds Hok Hsettled) as [Hok' Hsettled'].
    apply IH; assumption.
Qed.

(** *** Movement *)

Lemma handle_movement_ok (dt : R) (g : Game.t) :
  game_ok g -> settled g ->
  game_ok (Game.handle_movement dt g) /\ settled (Game.handle_movement dt g).
Proof.
  intros Hok Hsettled.
  destruct (Game.paused g || Game.game_over g) eqn:Hfrozen.
  - unfold Game.handle_movement. rewrite Hfrozen. split; assumption.
  - destruct (handle_movement_running dt g Hfrozen) as [_ Hframe].
    rewrite Hframe.
    destruct Hok as (Hp & Hc & Ha & He & Hs & Hpr & Hm & Hlen & Het & Hlt & Hroll & Hpitch).
    split; [| exact Hsettled].
    unfold game_ok. game_fields. split_game; try assumption.
    + apply camera_ok_moved. assumption.
    + apply anchored_at.
Qed.

(** *** The entity updates of [update] *)

Lemma ship_animation_playing (dt : R) (env : Env) (g : Game.t) :
  playing g -> playing (Game._update_ship_animation dt env g).
Proof.
  intros [(Hp & Hc & Ha & He & Hs & Hpr & Hm & Hlen & Het & Hlt & Hroll & Hpitch) Hover].
  pose proof (ship_animation_frame dt env g) as Hframe. cbv zeta in Hframe.
  pose proof (ship_animation_roll dt env g) as Hr.
  pose proof (ship_animation_pitch_offset dt env g) as Hpo.
  assert (Hrb : 0 <= Config.MAX_SHIP_ROLL) by (unfold Config.MAX_SHIP_ROLL; lra).
  assert (Hpb : 0 <= Config.MAX_SHIP_PITCH_OFFSET)
    by (unfold Config.MAX_SHIP_PITCH_OFFSET; lra).
  set (g' := Game._update_ship_animation dt env g) in *.
  split.
  - unfold game_ok. rewrite Hr, Hpo. rewrite Hframe. game_fields.
    split_game; try assumption.
    + apply eased_bounded. assumption.
    + apply eased_bounded. assumption.
  - rewrite Hframe. exact Hover.
Qed.

Lemma player_update_playing (dt : R) (g : Game.t) :
  0 <= dt -> playing g -> playing (Game.with_player (Player.update dt (Game.player g)) g).
Proof.
  intros Hdt [Hok Hover]. split; [| exact Hover].
  pose proof Hok as (Hp & _ & Ha & _).
  apply game_ok_with_player; [assumption | apply player_ok_update; assumption |].
  unfold anchored in *. rewrite player_update_position by apply Hp. exact Ha.
Qed.

Lemma update_enemy_inv (dt : R) (enemy : Enemy.t) (g : Game.t) :
  enemy_ok enemy -> playing g ->
  enemy_ok (fst (Game.update_enemy dt enemy g)) /\ playing (snd (Game.update_enemy dt enemy g)).
Proof.
  intros Henemy [Hok Hover]. unfold Game.update_enemy. cbv zeta.
  set (player_position := Entity.position (Player.base (Game.player g))).
  pose proof (enemy_ok_can_shoot player_position _
                (enemy_ok_update dt player_position enemy Henemy)) as Hshot.
  destruct (Enemy.can_shoot player_position (Enemy.update dt (Some player_position) enemy))
    as [[|] enemy']; cbn [fst snd] in *.
  - split; [exact Hshot |]. split; [| exact Hover].
    apply game_ok_with_projectiles; [assumption |].
    apply Forall_snoc; [apply Hok |].
    apply projectile_ok_init. right. reflexivity.
  - split; [exact Hshot | split; assumption].
Qed.

Lemma entity_updates_playing (dt : R) (env : Env) (es : list Enemy.t) (g : Game.t) :
  0 <= dt -> playing g -> Forall enemy_ok es ->
  playing
    (Game.with_projectiles (map (Projectile.update dt) (Game.projectiles g))
       (Game.with_life_spheres
          (map_indexed (fun i sphere => LifeSphere.update dt (get_ticks env i) sphere)
                       0 (Game.life_spheres g))
          (Game.with_meteorites (map (Meteorite.update dt) (Game.meteorites g))
             (Game.with_enemies es g)))).
Proof.
  intros Hdt [(Hp & Hc & Ha & He & Hs & Hpr & Hm & Hlen & Het & Hlt & Hroll & Hpitch) Hover] Hes.
  split; [| exact Hover].
  unfold game_ok. game_fields. split_game; try assumption.
  - apply (map_indexed_Forall sphere_ok); [| assumption].
    intros i s. apply sphere_ok_update.
  - apply Forall_map_keep; [| assumption]. intros p. apply projectile_ok_update. assumption.
  - apply Forall_map_keep; [| assumption]. apply meteorite_ok_update.
  - rewrite length_map. assumption.
Qed.

Lemma update_spawning_playing (dt : R) (env : Env) (g : Game.t) :
  0 <= dt -> playing g -> playing (Game._update_spawning dt env g).
Proof.
  intros Hdt [(Hp & Hc & Ha & He & Hs & Hpr & Hm & Hlen & Het & Hlt & Hroll & Hpitch) Hover].
  unfold Game._update_spawning. cbv zeta.
  cbn [Game.enemy_spawn_timer Game.with_enemy_spawn_timer].
  destruct (Game.enemy_spawn_timer g + dt >=? Config.ENEMY_SPAWN_INTERVAL) eqn:Hen;
    [apply geb_true_iff in Hen | apply geb_false_iff in Hen];
    cbn [Game._spawn_enemy Game.life_sphere_spawn_timer Game.with_enemy_spawn_timer
         Game.with_life_sphere_spawn_timer Game.with_enemies Game.camera Game.enemies];
    (destruct (Game.life_sphere_spawn_timer g + dt >=? Config.LIFE_SPHERE_SPAWN_INTERVAL)
       eqn:Hsp;
     [apply geb_true_iff in Hsp | apply geb_false_iff in Hsp]);
    (split; [| exact Hover]);
    unfold game_ok, Game._spawn_life_sphere, Game._spawn_enemy; game_fields;
    unfold Config.ENEMY_SPAWN_INTERVAL, Config.LIFE_SPHERE_SPAWN_INTERVAL in *;
    split_game; try assumption; try lra;
    try (apply Forall_snoc; [assumption |]);
    first [apply enemy_ok_init | apply sphere_ok_init].
Qed.

(** *** The collision phase *)

Lemma player_meteorite_inv (meteorite : Meteorite.t) (g : Game.t) :
  meteorite_ok meteorite -> playing g ->
  meteorite_ok (fst (Game.player_meteorite meteorite g)) /\
  playing (snd (Game.player_meteorite meteorite g)).
Proof.
  intros Hm [Hok Hover]. unfold Game.player_meteorite.
  destruct (CollisionSystem.check_collision _ _); [| split; [assumption | split; assumption]].
  unfold CollisionSystem.resolve_collision. cbv zeta. game_fields.
  cbn [fst snd].
  split; [rewrite meteorite_with_own_base; exact Hm |].
  split; [| exact Hover].
  destruct Hok as (Hp & Hc & Ha & He & Hs & Hpr & Hmm & Hlen & Het & Hlt & Hroll & Hpitch).
  unfold game_ok. game_fields. split_game; try assumption.
  - apply camera_ok_moved. assumption.
  - left. cbn [Player.base Player.with_base Entity.position Entity.with_position
               Camera.position Camera.with_position].
    rewrite copy_id. reflexivity.
Qed.

Lemma player_life_sphere_inv (sphere : LifeSphere.t) (g : Game.t) :
  sphere_ok sphere -> playing g ->
  sphere_ok (fst (Game.player_life_sphere sphere g)) /\
  playing (snd (Game.player_life_sphere sphere g)).
Proof.
  intros Hs [Hok Hover]. unfold Game.player_life_sphere.
  destruct (CollisionSystem.check_collision _ _); [| split; [assumption | split; assumption]].
  cbn [fst snd]. split; [apply sphere_ok_collect; assumption |].
  split; [| exact Hover].
  pose proof Hok as (Hp & _ & Ha & _).
  apply game_ok_with_player; [assumption | apply player_ok_add_life; assumption | exact Ha].
Qed.

Lemma anchored_take_damage (p : Player.t) (c : Camera.t) :
  anchored p c -> anchored (Player.take_damage p) c.
Proof.
  unfold anchored. rewrite (proj1 (take_damage_sphere p)). exact (fun H => H).
Qed.

Lemma player_enemy_inv (enemy : Enemy.t) (g : Game.t) :
  enemy_ok enemy -> playing g ->
  enemy_ok (fst (Game.player_enemy enemy g)) /\ playing (snd (Game.player_enemy enemy g)).
Proof.
  intros He [Hok Hover]. unfold Game.player_enemy.
  destruct (CollisionSystem.check_collision _ _); [| split; [assumption | split; assumption]].
  cbn [fst snd]. split; [apply enemy_ok_destroy; assumption |].
  split; [| exact Hover].
  pose proof Hok as (Hp & _ & Ha & _).
  apply game_ok_with_player;
    [assumption | apply player_ok_take_damage; assumption | apply anchored_take_damage, Ha].
Qed.


Lemma game_ok_with_score (score : Z) (g : Game.t) : game_ok g -> game_ok (Game.with_score score g).
Proof. exact (fun H => H). Qed.

Lemma projectile_enemy_inv (enemy : Enemy.t) (s : Projectile.t * Game.t) :
  enemy_ok enemy -> shooting s ->
  enemy_ok (fst (fst (Game.projectile_enemy enemy s))) /\
  shooting (snd (fst (Game.projectile_enemy enemy s))).
Proof.
  destruct s as [p g]. intros He [Hp [Hok Hover]]. cbn [fst snd] in *.
  unfold Game.projectile_enemy.
  destruct (CollisionSystem.check_collision _ _);
    [| split; [assumption | split; [assumption | split; assumption]]].
  cbn [fst snd]. split; [apply enemy_ok_take_damage; assumption |].
  split; [apply projectile_ok_destroy; assumption |].
  cbn [snd]. destruct (negb _); split; assumption.
Qed.

Lemma projectile_life_sphere_inv (sphere : LifeSphere.t) (s : Projectile.t * Game.t) :
  sphere_ok sphere -> shooting s ->
  sphere_ok (fst (fst (Game.projectile_life_sphere sphere s))) /\
  shooting (snd (fst (Game.projectile_life_sphere sphere s))).
Proof.
  destruct s as [p g]. intros Hs [Hp [Hok Hover]]. cbn [fst snd] in *.
  unfold Game.projectile_life_sphere.
  destruct (CollisionSystem.check_collision _ _);
    [| split; [assumption | split; [assumption | split; assumption]]].
  cbn [fst snd]. split; [apply sphere_ok_collect; assumption |].
  split; [apply projectile_ok_destroy; assumption |].
  cbn [snd]. split; [| exact Hover].
  pose proof Hok as (Hpl & _ & Ha & _).
  apply game_ok_with_player; [assumption | apply player_ok_add_life; assumption | exact Ha].
Qed.

Lemma projectile_meteorite_inv (meteorite : Meteorite.t) (s : Projectile.t * Game.t) :
  meteorite_ok meteorite -> shooting s ->
  meteorite_ok (fst (fst (Game.projectile_meteorite meteorite s))) /\
  shooting (snd (fst (Game.projectile_meteorite meteorite s))).
Proof.
  destruct s as [p g]. intros Hm [Hp Hplaying]. cbn [fst snd] in *.
  unfold Game.projectile_meteorite.
  destruct (CollisionSystem.check_collision _ _);
    [| split; [assumption | split; assumption]].
  cbn [fst snd]. split; [assumption |].
  split; [apply projectile_ok_destroy; assumption | assumption].
Qed.

Lemma playing_with_enemies (es : list Enemy.t) (g : Game.t) :
  playing g -> Forall enemy_ok es -> playing (Game.with_enemies es g).
Proof. intros [Hok Hover] Hes. split; [apply game_ok_with_enemies; assumption | exact Hover]. Qed.

Lemma playing_with_life_spheres (ss : list LifeSphere.t) (g : Game.t) :
  playing g -> Forall sphere_ok ss -> playing (Game.with_life_spheres ss g).
Proof.
  intros [Hok Hover] Hss. split; [apply game_ok_with_life_spheres; assumption | exact Hover].
Qed.

Lemma playing_with_projectiles (ps : list Projectile.t) (g : Game.t) :
  playing g -> Forall projectile_ok ps -> playing (Game.with_projectiles ps g).
Proof.
  intros [Hok Hover] Hps. split; [apply game_ok_with_projectiles; assumption | exact Hover].
Qed.

Lemma blocking_loop_inv (projectile : Projectile.t) (g : Game.t) :
  shooting (projectile, g) ->
  let '(ms, (projectile', g')) :=
    for_each_break Game.projectile_meteorite (Game.meteorites g) (projectile, g) in
  shooting (projectile', Game.with_meteorites ms g').
Proof.
  intros Hs. rewrite meteorites_loop.
  destruct Hs as [Hp Hplaying]. cbn [fst snd] in *.
  destruct (existsb _ _); rewrite with_meteorites_same;
    (split; [| exact Hplaying]); cbn [fst]; [apply projectile_ok_destroy |]; assumption.
Qed.

Lemma projectile_collisions_inv (projectile : Projectile.t) (g : Game.t) :
  projectile_ok projectile -> playing g ->
  projectile_ok (fst (Game.projectile_collisions projectile g)) /\
  playing (snd (Game.projectile_collisions projectile g)).
Proof.
  intros Hp Hplaying. unfold Game.projectile_collisions.
  destruct (Projectile.is_player_projectile projectile).
  - destruct (for_each_break_inv shooting enemy_ok Game.projectile_enemy
                projectile_enemy_inv (Game.enemies g) (projectile, g))
      as [Hes Hs1]; [apply Hplaying | split; assumption |].
    destruct (for_each_break Game.projectile_enemy (Game.enemies g) (projectile, g))
      as [es [p1 g1]]. cbn [fst snd] in Hes, Hs1.
    destruct Hs1 as [Hp1 Hg1]. cbn [fst snd] in Hp1, Hg1.
    pose proof (playing_with_enemies es g1 Hg1 Hes) as Hg1'.
    destruct (for_each_break_inv shooting sphere_ok Game.projectile_life_sphere
                projectile_life_sphere_inv
                (Game.life_spheres (Game.with_enemies es g1))
                (p1, Game.with_enemies es g1))
      as [Hss Hs2]; [apply Hg1' | split; assumption |].
    destruct (for_each_break Game.projectile_life_sphere _ _) as [ss [p2 g2]].
    cbn [fst snd] in Hss, Hs2. destruct Hs2 as [Hp2 Hg2]. cbn [fst snd] in Hp2, Hg2.
    pose proof (playing_with_life_spheres ss g2 Hg2 Hss) as Hg2'.
    pose proof (blocking_loop_inv p2 (Game.with_life_spheres ss g2) (conj Hp2 Hg2')) as Hs3.
    destruct (for_each_break Game.projectile_meteorite _ _) as [ms [p3 g3]].
    exact Hs3.
  - destruct (Projectile.is_enemy_projectile projectile); [| split; assumption].
    destruct (CollisionSystem.check_collision _ _).
    + assert (Hhit : shooting (Projectile.destroy projectile,
                                Game.with_player (Player.take_damage (Game.player g)) g)).
      { split; [apply projectile_ok_destroy; assumption |].
        destruct Hplaying as [Hok Hover]. split; [| exact Hover].
        pose proof Hok as (Hpl & _ & Ha & _).
        apply game_ok_with_player;
          [assumption | apply player_ok_take_damage; assumption
          | apply anchored_take_damage, Ha]. }
      pose proof (blocking_loop_inv _ _ Hhit) as Hs3.
      destruct (for_each_break Game.projectile_meteorite _ _) as [ms [p3 g3]].
      exact Hs3.
    + pose proof (blocking_loop_inv projectile g (conj Hp Hplaying)) as Hs3.
      destruct (for_each_break Game.projectile_meteorite _ _) as [ms [p3 g3]].
      exact Hs3.
Qed.

Lemma playing_with_meteorites (ms : list Meteorite.t) (g : Game.t) :
  playing g -> Forall meteorite_ok ms -> List.length ms = Config.METEORITE_COUNT ->
  playing (Game.with_meteorites ms g).
Proof.
  intros [Hok Hover] Hms Hlen.
  split; [apply game_ok_with_meteorites; assumption | exact Hover].
Qed.

Lemma handle_collisions_ok (g : Game.t) :
  playing g ->
  game_ok (Game._handle_collisions g) /\
  Game.game_over (Game._handle_collisions g)
  = negb (Player.is_alive (Game.player (Game._handle_collisions g))).
Proof.
  intros Hplaying. unfold Game._handle_collisions.
  destruct (for_each_inv playing meteorite_ok Game.player_meteorite player_meteorite_inv
              (Game.meteorites g) g) as [Hms Hg1]; [apply Hplaying | assumption |].
  pose proof (for_each_length Game.player_meteorite (Game.meteorites g) g) as Hlen.
  destruct (for_each Game.player_meteorite (Game.meteorites g) g) as [ms g1].
  cbn [fst snd] in Hms, Hg1, Hlen.
  assert (Hg1' : playing (Game.with_meteorites ms g1)).
  { apply playing_with_meteorites; [assumption | assumption |].
    rewrite Hlen. apply Hplaying. }
  destruct (for_each_inv playing sphere_ok Game.player_life_sphere player_life_sphere_inv
              (Game.life_spheres (Game.with_meteorites ms g1)) (Game.with_meteorites ms g1))
    as [Hss Hg2]; [apply Hg1' | assumption |].
  destruct (for_each Game.player_life_sphere _ _) as [ss g2]. cbn [fst snd] in Hss, Hg2.
  pose proof (playing_with_life_spheres ss g2 Hg2 Hss) as Hg2'.
  destruct (for_each_inv playing enemy_ok Game.player_enemy player_enemy_inv
              (Game.enemies (Game.with_life_spheres ss g2)) (Game.with_life_spheres ss g2))
    as [Hes Hg3]; [apply Hg2' | assumption |].
  destruct (for_each Game.player_enemy _ _) as [es g3]. cbn [fst snd] in Hes, Hg3.
  pose proof (playing_with_enemies es g3 Hg3 Hes) as Hg3'.
  destruct (for_each_inv playing projectile_ok Game.projectile_collisions
              projectile_collisions_inv
              (Game.projectiles (Game.with_enemies es g3)) (Game.with_enemies es g3))
    as [Hps Hg4]; [apply Hg3' | assumption |].
  destruct (for_each Game.projectile_collisions _ _) as [ps g4]. cbn [fst snd] in Hps, Hg4.
  destruct (playing_with_projectiles ps g4 Hg4 Hps) as [Hok Hover].
  game_fields.
  destruct (Player.is_alive (Game.player g4)) eqn:Halive; cbn [negb].
  - split; [exact Hok |]. game_fields. rewrite Halive. exact Hover.
  - split; [exact Hok |]. game_fields. rewrite Halive. reflexivity.
Qed.

Lemma cleanup_entities_ok (g : Game.t) :
  game_ok g -> Game.game_over g = negb (Player.is_alive (Game.player g)) ->
  game_ok (Game._cleanup_entities g) /\ settled (Game._cleanup_entities g).
Proof.
  intros (Hp & Hc & Ha & He & Hs & Hpr & Hm & Hlen & Het & Hlt & Hroll & Hpitch) Hover.
  destruct (Forall_filter_keep enemy_ok Enemy.is_alive _ He) as [He1 He2].
  destruct (Forall_filter_keep sphere_ok LifeSphere.is_alive _ Hs) as [Hs1 Hs2].
  destruct (Forall_filter_keep projectile_ok Projectile.is_alive _ Hpr) as [Hp1 Hp2].
  unfold Game._cleanup_entities. cbv zeta. split.
  - unfold game_ok. game_fields. split_game; assumption.
  - unfold settled. game_fields.
    split; [assumption | split; [assumption | split; assumption]].
Qed.

(** *** Frames *)

Lemma update_ok (dt : R) (env : Env) (g : Game.t) :
  0 <= dt -> game_ok g -> settled g ->
  game_ok (Game.update dt env g) /\ settled (Game.update dt env g).
Proof.
  intros Hdt Hok Hsettled. unfold Game.update.
  destruct (Game.paused g || Game.game_over g) eqn:Hfrozen; [split; assumption |].
  apply orb_false_iff in Hfrozen as [_ Hover].
  cbv zeta.
  pose proof (player_update_playing dt _ Hdt
                (ship_animation_playing dt env g (conj Hok Hover))) as Hg2.
  set (g2 := Game.with_player _ (Game._update_ship_animation dt env g)) in *.
  destruct (for_each_inv playing enemy_ok (Game.update_enemy dt) (update_enemy_inv dt)
              (Game.enemies g2) g2) as [Hes Hg3]; [apply Hg2 | assumption |].
  destruct (for_each (Game.update_enemy dt) (Game.enemies g2) g2) as [es g3].
  cbn [fst snd] in Hes, Hg3.
  pose proof (update_spawning_playing dt env _ Hdt
                (entity_updates_playing dt env es g3 Hdt Hg3 Hes)) as Hg5.
  game_fields.
  destruct (handle_collisions_ok _ Hg5) as [Hok6 Hover6].
  apply cleanup_entities_ok; assumption.
Qed.

Lemma frame_ok
  (dt : R) (events : list Event) (seeds : nat -> MeteoriteSeed) (env : Env) (g : Game.t) :
  0 <= dt -> (forall i, seed_ok (seeds i)) ->
  game_ok g -> settled g ->
  game_ok (Game.frame dt events seeds env g) /\ settled (Game.frame dt events seeds env g).
Proof.
  intros Hdt Hseeds Hok Hsettled. unfold Game.frame.
  destruct (handle_events_ok seeds events Hseeds g Hok Hsettled) as [Hok1 Hsettled1].
  destruct (handle_movement_ok dt _ Hok1 Hsettled1) as [Hok2 Hsettled2].
  apply update_ok; assumption.
Qed.

Lemma reachable_ok (g : Game.t) : reachable g -> game_ok g /\ settled g.
Proof.
  induction 1 as [seeds Hseeds | g dt events seeds env Hreach [Hok Hsettled] Hdt Hseeds Henv].
  - apply game_ok_init. assumption.
  - apply frame_ok; assumption.
Qed.

(** ** What holds in every state the game reaches *)



Lemma cooldown_ratio_range (p : Player.t) (g : Game.t) :
  Game.player g = p -> shoot_state_ok p ->
  0 <= Game.cooldown_ratio g <= 1 /\
  (0 < Game.cooldown_ratio g <-> Player.can_shoot p = false).
Proof.
  intros Hp [Hiff Hle]. unfold Game.cooldown_ratio. rewrite Hp.
  unfold Config.PLAYER_SHOOT_COOLDOWN in *.
  case_cmp.
  - assert (Hratio : Player.shoot_cooldown p / (3 / 10) = Player.shoot_cooldown p * (10 / 3))
      by (field; lra).
    rewrite Hratio. split; [lra |]. split.
    + intros _. destruct (Player.can_shoot p); [| reflexivity].
      assert (Player.shoot_cooldown p <= 0) by (apply Hiff; reflexivity). lra.
    + intros _. lra.
  - split; [lra |]. split; [intros; lra |].
    intros Hcannot. assert (Hcan : Player.can_shoot p = true) by (apply Hiff; assumption).
    rewrite Hcan in Hcannot. discriminate.
Qed.

(** X27. In every reachable state the game is over exactly when the
    player is dead, and a player that is alive has at least one life.
    The player can shoot exactly when its cooldown has run out, the
    cooldown never exceeds [PLAYER_SHOOT_COOLDOWN], and the cooldown
    ratio that [render] passes to the HUD lies in [[0, 1]] and is
    positive exactly when the player cannot shoot. *)
Theorem reachable_game_over_iff_dead (g : Game.t) :
  reachable g ->
  Game.game_over g = negb (Player.is_alive (Game.player g)) /\
  (Game.game_over g = false -> (1 <= Player.get_lives (Game.player g))%Z) /\
  (Player.can_shoot (Game.player g) = true <-> Player.shoot_cooldown (Game.player g) <= 0) /\
  Player.shoot_cooldown (Game.player g) <= Config.PLAYER_SHOOT_COOLDOWN /\
  0 <= Game.cooldown_ratio g <= 1 /\
  (0 < Game.cooldown_ratio g <-> Player.can_shoot (Game.player g) = false).
Proof.
  intros Hreach.
  destruct (reachable_ok g Hreach)
    as [((_ & _ & Hshoot & Hlives) & _) (_ & _ & _ & Hover)].
  destruct (cooldown_ratio_range (Game.player g) g eq_refl Hshoot) as [Hrange Hpositive].
  split; [exact Hover |].
  split.
  { intros Hplaying. apply Hlives. rewrite Hplaying in Hover.
    destruct (Player.is_alive (Game.player g)); [reflexivity | discriminate]. }
  destruct Hshoot as [Hiff Hle].
  split; [exact Hiff | split; [exact Hle | split; [exact Hrange | exact Hpositive]]].
Qed.

Lemma reachable_game_over_iff_dead_witness :
  Game.game_over sphere_game = negb (Player.is_alive (Game.player sphere_game)).
Proof.
  destruct (reachable_game_over_iff_dead sphere_game sphere_game_reachable) as [Hover _].
  exact Hover.
Defined.

(** X28. In every reachable state the player has velocity zero and
    radius 2, and it is where the camera is: its position is the
    position of the camera, except in a new or restarted game before
    the first frame that moves, where the player is at the origin and
    the camera at [(0, 0, 5)]. *)
Theorem reachable_player_at_camera (g : Game.t) :
  reachable g ->
  Entity.velocity (Player.base (Game.player g)) = Vector3.mk 0 0 0 /\
  Entity.get_radius (Player.base (Game.player g)) = 2 /\
  (Entity.position (Player.base (Game.player g)) = Camera.position (Game.camera g) \/
   (Entity.position (Player.base (Game.player g)) = Vector3.mk 0 0 0 /\
    Camera.position (Game.camera g) = Vector3.mk 0 0 5)).
Proof.
  intros Hreach.
  destruct (reachable_ok g Hreach) as [((Hvel & Hrad & _) & _ & Hanchored & _) _].
  split; [exact Hvel | split; [exact Hrad | exact Hanchored]].
Qed.

Lemma reachable_player_at_camera_witness :
  Entity.velocity (Player.base (Game.player sphere_game)) = Vector3.mk 0 0 0.
Proof.
  destruct (reachable_player_at_camera sphere_game sphere_game_reachable) as [Hvel _].
  exact Hvel.
Defined.




(** X30. In every reachable state there are exactly
    [METEORITE_COUNT] meteorites, all alive, each with a size in
    [[METEORITE_MIN_SIZE, METEORITE_MAX_SIZE]] and the radius 1.2 times
    its size; the two spawn timers are within [[0, interval)]; the
    roll and the pitch offset of the ship are within their maxima. *)
Theorem reachable_world_bounds (g : Game.t) :
  reachable g ->
  List.length (Game.meteorites g) = Config.METEORITE_COUNT /\
  Forall (fun m => Meteorite.is_alive m = true /\
                   Config.METEORITE_MIN_SIZE <= Meteorite.size m <= Config.METEORITE_MAX_SIZE /\
                   Entity.get_radius (Meteorite.base m) = Meteorite.size m * (12 / 10))
         (Game.meteorites g) /\
  0 <= Game.enemy_spawn_timer g < Config.ENEMY_SPAWN_INTERVAL /\
  0 <= Game.life_sphere_spawn_timer g < Config.LIFE_SPHERE_SPAWN_INTERVAL /\
  - Config.MAX_SHIP_ROLL <= Game.ship_roll g <= Config.MAX_SHIP_ROLL /\
  - Config.MAX_SHIP_PITCH_OFFSET <= Game.ship_pitch_offset g <= Config.MAX_SHIP_PITCH_OFFSET.
Proof.
  intros Hreach.
  destruct (reachable_ok g Hreach)
    as [(_ & _ & _ & _ & _ & _ & Hm & Hlen & Het & Hlt & Hroll & Hpitch) _].
  split; [exact Hlen | split; [| split; [exact Het | split; [exact Hlt | split; assumption]]]].
  eapply Forall_impl; [| exact Hm].
  intros m (Halive & Hrad & Hsize). split; [exact Halive | split; [exact Hsize | exact Hrad]].
Qed.

Lemma reachable_world_bounds_witness :
  List.length (Game.meteorites sphere_game) = Config.METEORITE_COUNT.
Proof.
  destruct (reachable_world_bounds sphere_game sphere_game_reachable) as [Hcount _].
  exact Hcount.
Defined.
